(** * videosift-backend: a shallow embedding of the ingestion, retrieval,
      chat, rate-limit and lock code, and the properties checked on it.

    The file has three parts.  Part I translates the JavaScript sources into
    Rocq definitions, one module per source file.  Parts II and III state
    and prove the properties.

    Conventions of the embedding.
    - A JavaScript string that holds transcript text is a list of UTF-16
      code units ([JS.jsstring]): [.length], the regular expressions and
      [Buffer.from(_, 'utf-8')] all work on that representation.
      Identifiers, table keys and messages, which the code only compares and
      concatenates, are Rocq [string]s.
    - A JavaScript number that holds an integer is a [Z]; scores are
      rationals ([Q]), so the rounding of IEEE doubles is not modelled.
    - The Supabase tables are lists of rows; every request is one function
      from the table to the table. *)

From Stdlib Require Import List ZArith NArith QArith Qround Lia Bool.
From Stdlib Require Import String Ascii DecimalString DecimalPos Sorted.
From stdpp Require Import base gmap strings.
Import ListNotations.

Local Open Scope Z_scope.

(* ===================================================================== *)
(** * Part I: the embedding                                               *)
(* ===================================================================== *)

(** ** JavaScript strings and the string primitives the sources use *)

Module JS.

(** A string is its sequence of UTF-16 code units. *)
Definition jsstring := list N.

Definition of_string (s : string) : jsstring :=
  List.map N_of_ascii (list_ascii_of_string s).

(** [s.length] *)
Definition length (s : jsstring) : Z := Z.of_nat (List.length s).

Definition in_range (lo hi c : N) : bool := ((lo <=? c) && (c <=? hi))%N.

(** The class [\s] (and the characters [trim] removes): WhiteSpace and
    LineTerminator of ECMAScript. *)
Definition isWhiteSpace (c : N) : bool :=
  in_range 9 13 c || (c =? 32)%N || (c =? 160)%N || (c =? 5760)%N
  || in_range 8192 8202 c || (c =? 8232)%N || (c =? 8233)%N
  || (c =? 8239)%N || (c =? 8287)%N || (c =? 12288)%N || (c =? 65279)%N.

(** The class [\w] without the [u] flag: [A-Za-z0-9_]. *)
Definition isWordChar (c : N) : bool :=
  in_range 65 90 c || in_range 97 122 c || in_range 48 57 c || (c =? 95)%N.

(** [toLowerCase] on one code unit.  Basic Latin capitals map to small
    letters; KELVIN SIGN (U+212A) maps to [k] and LATIN CAPITAL I WITH DOT
    ABOVE (U+0130) to [i] followed by U+0307.  Every other code point
    lower-cases to code points outside [\w], and white space stays white
    space; those code units are left as they are, which the callers below
    cannot tell apart from the full Unicode mapping since they match
    against [\w] and [\s] only. *)
Definition lowerUnit (c : N) : list N :=
  if in_range 65 90 c then [(c + 32)%N]
  else if (c =? 8490)%N then [107%N]
  else if (c =? 304)%N then [105%N; 775%N]
  else [c].

Definition toLowerCase (s : jsstring) : jsstring := List.flat_map lowerUnit s.

(** [s.replace(/[^\w\s]/g, ' ')] *)
Definition replaceNonWord (s : jsstring) : jsstring :=
  List.map (fun c => if isWordChar c || isWhiteSpace c then c else 32%N) s.

(** [s.split(/\s+/)]: [cur] is the piece being read (reversed), [inSep]
    tells whether the previous code unit was white space. *)
Fixpoint split_go (s : jsstring) (cur : jsstring) (inSep : bool)
  : list jsstring :=
  match s with
  | [] => [List.rev cur]
  | c :: rest =>
      if isWhiteSpace c
      then (if inSep then split_go rest [] true
            else List.rev cur :: split_go rest [] true)
      else split_go rest (c :: cur) false
  end.

Definition splitWhitespace (s : jsstring) : list jsstring :=
  split_go s [] false.

(** [s.trim()] *)
Fixpoint trimStart (s : jsstring) : jsstring :=
  match s with
  | c :: rest => if isWhiteSpace c then trimStart rest else s
  | [] => []
  end.

Definition trimEnd (s : jsstring) : jsstring :=
  List.rev (trimStart (List.rev s)).

Definition trim (s : jsstring) : jsstring := trimEnd (trimStart s).

Definition jsstring_eqb (a b : jsstring) : bool :=
  bool_decide (a = b).

(** [new Set(words)] followed by a spread: the first occurrence of each
    word, in order. *)
(** [set.has(w)] for a set given by its elements *)
Definition setHas (set : list jsstring) (w : jsstring) : bool :=
  List.existsb (jsstring_eqb w) set.

Fixpoint uniqueFrom (seen : list jsstring) (ws : list jsstring)
  : list jsstring :=
  match ws with
  | [] => []
  | w :: rest =>
      if setHas seen w then uniqueFrom seen rest
      else w :: uniqueFrom (w :: seen) rest
  end.

Definition unique (ws : list jsstring) : list jsstring := uniqueFrom [] ws.

(** [s.startsWith(p)] and [s.includes(p)] *)
Fixpoint startsWith (p s : jsstring) : bool :=
  match p, s with
  | [], _ => true
  | _ :: _, [] => false
  | a :: p', b :: s' => (a =? b)%N && startsWith p' s'
  end.

Fixpoint includes (s p : jsstring) : bool :=
  startsWith p s ||
  match s with
  | [] => false
  | _ :: s' => includes s' p
  end.

(** [n.toString()] for an integer [n] that a double holds exactly and
    prints without an exponent (below [2^53] in magnitude). *)
Definition numberToString (n : Z) : jsstring :=
  of_string (NilZero.string_of_int (Z.to_int n)).

(** [s.padStart(n, '0')] *)
Definition padStart0 (n : nat) (s : jsstring) : jsstring :=
  List.repeat 48%N (n - List.length s) ++ s.

Definition isHighSurrogate (c : N) : bool := in_range 55296 56319 c.
Definition isLowSurrogate (c : N) : bool := in_range 56320 57343 c.

(** [Buffer.from(s, 'utf-8').length]: a surrogate pair takes four bytes,
    a lone surrogate is written as U+FFFD (three bytes). *)
Fixpoint utf8Length (s : jsstring) : Z :=
  match s with
  | [] => 0
  | c :: rest =>
      if (c <? 128)%N then 1 + utf8Length rest
      else if (c <? 2048)%N then 2 + utf8Length rest
      else if isHighSurrogate c then
        match rest with
        | d :: rest' =>
            if isLowSurrogate d then 4 + utf8Length rest'
            else 3 + utf8Length rest
        | [] => 3
        end
      else 3 + utf8Length rest
  end.

(** [/[.!?]$/] matches: the last code unit is a full stop, an exclamation
    mark or a question mark ([$] without the [m] flag is the end of the
    input). *)
Definition endsWithTerminator (s : jsstring) : bool :=
  match List.rev s with
  | c :: _ => (c =? 46)%N || (c =? 33)%N || (c =? 63)%N
  | [] => false
  end.

End JS.

(** ** src/services/videoProcessor.js *)

Module VideoProcessor.
Import JS.

(** A segment as the transcript provider returns it, times already read
    as numbers. *)
Record raw_segment := {
  raw_start : Q;
  raw_duration : Q;
  raw_text : jsstring
}.

(** A segment of [downloadTranscript]'s result. *)
Record segment := {
  seg_start : Z;
  seg_end : Z;
  seg_text : jsstring
}.

(** The [transcript.map(...)] of [downloadTranscript]. *)
Definition convertSegment (r : raw_segment) : segment :=
  {| seg_start := Qfloor (raw_start r);
     seg_end := Qfloor (raw_start r + raw_duration r);
     seg_text := trim (raw_text r) |}.

Definition downloadTranscript_convert (raw : list raw_segment)
  : list segment := List.map convertSegment raw.

(** [formatTimestamp]: [Math.floor(seconds / 60)] is the floor quotient,
    [seconds % 60] has the sign of [seconds]. *)
Definition formatTimestamp (seconds : Z) : jsstring :=
  let mins := seconds / 60 in
  let secs := Z.rem seconds 60 in
  numberToString mins ++ [58%N] ++ padStart0 2 (numberToString secs).

(** The template [`[${timestamp}] ${segment.text}\n`]. *)
Definition line (s : segment) : jsstring :=
  [91%N] ++ formatTimestamp (seg_start s) ++ [93%N; 32%N]
  ++ seg_text s ++ [10%N].

Definition stopWords : list jsstring :=
  List.map of_string
    ["the"; "a"; "an"; "and"; "or"; "but"; "in"; "on"; "at"; "to"; "for";
     "of"; "with"; "by"; "from"; "as"; "is"; "was"; "are"; "were"; "been"]%string.

(** [extractKeywords]: [word.length > 3], then the first ten distinct
    words. *)
Definition extractKeywords (text : jsstring) : list jsstring :=
  let words :=
    List.filter
      (fun word => (3 <? JS.length word) && negb (setHas stopWords word))
      (splitWhitespace (replaceNonWord (toLowerCase text))) in
  List.firstn 10 (unique words).

Record chunk := {
  chunk_index : Z;
  start_time : Z;
  end_time : Z;
  byte_offset : Z;
  byte_length : Z;
  text : jsstring;
  keywords : list jsstring
}.

(** The local variables of [createChunks]. *)
Record state := {
  chunks : list chunk;
  byteOffset : Z;
  chunkIndex : Z;
  currentChunk : jsstring;
  chunkStartTime : Z;
  chunkEndTime : Z;
  chunkStartOffset : Z
}.

Definition init : state :=
  {| chunks := []; byteOffset := 0; chunkIndex := 0; currentChunk := [];
     chunkStartTime := 0; chunkEndTime := 0; chunkStartOffset := 0 |}.

(** One turn of the [for] loop, for the segment at index [i] of a
    transcript of [n] segments. *)
Definition step (chunkSize : Z) (n i : Z) (seg : segment) (st : state)
  : state :=
  let fresh := JS.length (currentChunk st) =? 0 in
  let chunkStartTime' := if fresh then seg_start seg else chunkStartTime st in
  let chunkStartOffset' := if fresh then byteOffset st else chunkStartOffset st in
  let currentChunk' := currentChunk st ++ line seg in
  let chunkEndTime' := seg_end seg in
  let isNaturalBreak := endsWithTerminator (seg_text seg) in
  let isLongEnough := chunkSize <=? JS.length currentChunk' in
  let isTooLong := 2000 <=? JS.length currentChunk' in
  let isLastSegment := i =? n - 1 in
  if (isNaturalBreak && isLongEnough) || isTooLong || isLastSegment then
    let chunkBytes := utf8Length currentChunk' in
    {| chunks := chunks st ++
         [ {| chunk_index := chunkIndex st;
              start_time := chunkStartTime';
              end_time := chunkEndTime';
              byte_offset := chunkStartOffset';
              byte_length := chunkBytes;
              text := currentChunk';
              keywords := extractKeywords currentChunk' |} ];
       byteOffset := byteOffset st + chunkBytes;
       chunkIndex := chunkIndex st + 1;
       currentChunk := [];
       chunkStartTime := chunkStartTime';
       chunkEndTime := chunkEndTime';
       chunkStartOffset := chunkStartOffset' |}
  else
    {| chunks := chunks st;
       byteOffset := byteOffset st;
       chunkIndex := chunkIndex st;
       currentChunk := currentChunk';
       chunkStartTime := chunkStartTime';
       chunkEndTime := chunkEndTime';
       chunkStartOffset := chunkStartOffset' |}.

(** The loop from index [i] on, over the segments not yet read. *)
Fixpoint loop (chunkSize : Z) (n i : Z) (segs : list segment) (st : state)
  : state :=
  match segs with
  | [] => st
  | seg :: rest => loop chunkSize n (i + 1) rest (step chunkSize n i seg st)
  end.

(** The state when the loop reaches index [k]. *)
Definition stateAt (chunkSize : Z) (transcript : list segment) (k : nat)
  : state :=
  loop chunkSize (Z.of_nat (List.length transcript)) 0
       (List.firstn k transcript) init.

Definition createChunksWith (chunkSize : Z) (transcript : list segment)
  : list chunk :=
  chunks (loop chunkSize (Z.of_nat (List.length transcript)) 0 transcript init).

(** [createChunks(transcript)] with the default [chunkSize = 1000]. *)
Definition createChunks (transcript : list segment) : list chunk :=
  createChunksWith 1000 transcript.

(** The text [storeTranscript] uploads. *)
Definition transcriptContent (transcript : list segment) : jsstring :=
  List.fold_left (fun content seg => content ++ line seg) transcript [].

(** *** [storeChunks] and the two tables it touches *)

(** A row of [videos]: its primary key [id] and the provider's id. *)
Record videoRow := {
  id : string;
  youtube_id : string
}.

(** A chunk after [generateEmbeddings]. *)
Record embeddedChunk := {
  base : chunk;
  embedding : option (list Q)
}.

(** A row of [transcript_chunks]; [video_id] refers to [videos.id]. *)
Record chunkRecord := {
  video_id : string;
  rec_chunk_index : Z;
  rec_start_time : Z;
  rec_end_time : Z;
  storage_path : string;
  rec_byte_offset : Z;
  rec_byte_length : Z;
  rec_keywords : list jsstring;
  rec_embedding : option (list Q)
}.

Record store := {
  videos : list videoRow;
  transcript_chunks : list chunkRecord
}.

(** [.from('videos').select('id').eq('youtube_id', videoId).single()]:
    the row when exactly one matches. *)
Definition selectVideo (db : store) (videoId : string) : option videoRow :=
  match List.filter (fun v => String.eqb (youtube_id v) videoId) (videos db) with
  | [v] => Some v
  | _ => None
  end.

(** [.from('transcript_chunks').delete().eq('video_id', videoId)] *)
Definition deleteChunks (db : store) (videoId : string) : store :=
  {| videos := videos db;
     transcript_chunks :=
       List.filter (fun r => negb (String.eqb (video_id r) videoId))
                   (transcript_chunks db) |}.

Definition toRecord (video : videoRow) (transcriptPath : string)
    (c : embeddedChunk) : chunkRecord :=
  {| video_id := id video;
     rec_chunk_index := chunk_index (base c);
     rec_start_time := start_time (base c);
     rec_end_time := end_time (base c);
     storage_path := transcriptPath;
     rec_byte_offset := byte_offset (base c);
     rec_byte_length :=
       if byte_length (base c) =? 0 then JS.length (text (base c))
       else byte_length (base c);
     rec_keywords := keywords (base c);
     rec_embedding := embedding c |}.

(** [storeChunks(videoId, chunks, transcriptPath)], called with the
    provider's id as [processVideo] does.  [insertError] is the error of
    the insert request, if the store reports one; the result is the store
    afterwards and the message of the exception thrown, if any. *)
Definition storeChunks (insertError : option string) (db : store)
    (videoId : string) (chunks : list embeddedChunk) (transcriptPath : string)
  : store * option string :=
  let db1 := deleteChunks db videoId in
  match selectVideo db1 videoId with
  | None => (db1, Some "Video not found"%string)
  | Some video =>
      let chunkRecords := List.map (toRecord video transcriptPath) chunks in
      match insertError with
      | Some message =>
          (db1, Some ("Failed to store chunks: " ++ message)%string)
      | None =>
          ({| videos := videos db1;
              transcript_chunks := transcript_chunks db1 ++ chunkRecords |},
           None)
      end
  end.

(** What a reader of the video's chunks gets
    ([.from('transcript_chunks').eq('video_id', video.id)]). *)
Definition chunksOf (db : store) (video : videoRow) : list chunkRecord :=
  List.filter (fun r => String.eqb (video_id r) (id video)) (transcript_chunks db).

End VideoProcessor.


(** ** Numbers as scores, and the stable sort of [Array.prototype.sort] *)

Module Score.

(** [a < b] on scores *)
Definition ltb (a b : Q) : bool := negb (Qle_bool b a).

Section Sort.
Context {A : Type} (key : A -> Q).

(** [x] comes from the left of [l]: it stays before the elements whose
    key is not larger. *)
Fixpoint insertDesc (x : A) (l : list A) : list A :=
  match l with
  | [] => [x]
  | y :: l' => if ltb (key x) (key y) then y :: insertDesc x l' else x :: l
  end.

(** [l.sort((a, b) => key(b) - key(a))] *)
Fixpoint sortDesc (l : list A) : list A :=
  match l with
  | [] => []
  | x :: l' => insertDesc x (sortDesc l')
  end.
End Sort.

End Score.

(** ** services/ragSearch.js ([hybridChunkSearch], the search the chat
       service calls) *)

Module RagSearch.
Import JS.

Definition stopWords : list jsstring :=
  List.map of_string
    ["the"; "a"; "an"; "and"; "or"; "but"; "in"; "on"; "at"; "to"; "for";
     "of"; "with"; "by"; "from"; "as"; "is"; "was"; "are"; "were"; "been";
     "what"; "when"; "where"; "who"; "why"; "how"; "which"; "that"; "this"]%string.

(** [extractKeywords]: [word.length > 2], every distinct word. *)
Definition extractKeywords (text : jsstring) : list jsstring :=
  let words :=
    List.filter
      (fun word => (2 <? JS.length word) && negb (setHas stopWords word))
      (splitWhitespace (replaceNonWord (toLowerCase text))) in
  unique words.

(** A row of [transcript_chunks] as the search reads it.  The cosine
    similarity needs a square root; the row carries the number the [map]
    callback computes for it ([0] when the embedding is null). *)
Record row := {
  id : string;
  chunk_index : Z;
  keywords : option (list jsstring);
  similarity : Q
}.

(** [{ ...result, score }] *)
Record result := {
  res_row : row;
  score : Q
}.

Definition keywordMatch (queryKeywords : list jsstring) (chunk : row) : bool :=
  match keywords chunk with
  | None => false
  | Some chunkKeywords =>
      List.existsb (fun queryKeyword =>
        List.existsb (fun chunkKeyword =>
          includes (toLowerCase chunkKeyword) (toLowerCase queryKeyword)
          || includes (toLowerCase queryKeyword) (toLowerCase chunkKeyword))
          chunkKeywords)
        queryKeywords
  end.

(** The [Map] [allResults]: keys in insertion order. *)
Definition resultMap := list (string * result).

Definition mapHas (m : resultMap) (k : string) : bool :=
  List.existsb (fun kv => String.eqb (fst kv) k) m.

Fixpoint mapSet (m : resultMap) (k : string) (v : result) : resultMap :=
  match m with
  | [] => [(k, v)]
  | (k', v') :: m' =>
      if String.eqb k' k then (k', v) :: m' else (k', v') :: mapSet m' k v
  end.

(** [existing.score = (existing.score || 0) + 0.3] on the entry at [k] *)
Fixpoint mapBoost (m : resultMap) (k : string) : resultMap :=
  match m with
  | [] => []
  | (k', v') :: m' =>
      if String.eqb k' k
      then (k', {| res_row := res_row v'; score := (score v' + (3 # 10))%Q |}) :: m'
      else (k', v') :: mapBoost m' k
  end.

Definition addSemantic (m : resultMap) (r : row) : resultMap :=
  mapSet m (id r) {| res_row := r; score := similarity r |}.

Definition addKeyword (m : resultMap) (r : row) : resultMap :=
  if mapHas m (id r) then mapBoost m (id r)
  else mapSet m (id r) {| res_row := r; score := (5 # 10)%Q |}.

(** Steps 3 to 6 of [hybridChunkSearch], given the rows of the video in
    [chunk_index] order.  Step 7 only fills in the text. *)
Definition hybridChunkSearch (allChunks : list row) (query : jsstring)
    (topK : nat) : list result :=
  let queryKeywords := extractKeywords query in
  let resultsWithSimilarity :=
    List.firstn topK (Score.sortDesc similarity allChunks) in
  let keywordResults :=
    if (0 <? Z.of_nat (List.length queryKeywords))
    then List.filter (keywordMatch queryKeywords) allChunks
    else [] in
  let allResults := List.fold_left addSemantic resultsWithSimilarity [] in
  let allResults := List.fold_left addKeyword keywordResults allResults in
  List.firstn topK (Score.sortDesc score (List.map snd allResults)).

End RagSearch.

(** ** src/services/ragService.js ([searchVideoChunks]) and the stored
       procedure it calls (supabase/migrations/002_similarity_search.sql) *)

Module RagService.
Import JS.

(** A row of [transcript_chunks] as the procedure reads it.  [similarity]
    is [1 - (embedding <=> query_embedding)] for the query at hand. *)
Record chunkRow := {
  id : string;
  video_id : string;
  has_embedding : bool;
  similarity : Q;
  text_preview : jsstring
}.

(** [search_transcript_chunks(query_embedding, p_video_id, match_threshold,
    match_count)]: ordering by distance is ordering by decreasing
    similarity. *)
Definition search_transcript_chunks (table : list chunkRow)
    (p_video_id : string) (match_threshold : Q) (match_count : nat)
  : list chunkRow :=
  List.firstn match_count
    (Score.sortDesc similarity
       (List.filter
          (fun tc => String.eqb (video_id tc) p_video_id
                     && has_embedding tc
                     && Score.ltb match_threshold (similarity tc))
          table)).

Record enhancedChunk := {
  chunk : chunkRow;
  score : Q;
  keywordMatches : Z
}.

Definition enhance (keywords : list jsstring) (c : chunkRow) : enhancedChunk :=
  let keywordMatches :=
    Z.of_nat (List.length
      (List.filter (fun keyword => includes (toLowerCase (text_preview c)) keyword)
                   keywords)) in
  {| chunk := c;
     score := (similarity c + inject_Z keywordMatches * (1 # 10))%Q;
     keywordMatches := keywordMatches |}.

(** [searchVideoChunks] after the query was embedded, up to the re-sort:
    [video] is the key of the video's row if there is one, [keywords] the
    result of [this.extractKeywords(query)].  The retrieval of the full texts
    that follows keeps or drops results; it changes no score and no order.
    The value the function returns after it is [Retrieval.searchVideoChunks]
    below. *)
Definition searchVideoChunks (table : list chunkRow) (video : option string)
    (keywords : list jsstring) (limit : nat) : list enhancedChunk :=
  match video with
  | None => []
  | Some video_id =>
      let chunks := search_transcript_chunks table video_id (7 # 10) limit in
      Score.sortDesc score (List.map (enhance keywords) chunks)
  end.

End RagService.

(** ** services/channelProcessor.js (the statistics of [processChannel]) *)

Module ChannelProcessor.

(** [s.includes(p)] on messages *)
Fixpoint includes (s p : string) : bool :=
  String.prefix p s ||
  match s with
  | EmptyString => false
  | String _ s' => includes s' p
  end.

(** What one turn of the loop over [videosToProcess] meets:
    - [AlreadyCached]: the row exists with [transcript_cached] set;
    - [UpsertFailed]: the upsert of the video row returned an error;
    - [Processed]: [processVideoTranscript] returned [true];
    - [NotProcessed e]: it returned [false], and the row read back has
      [processing_error = e];
    - [Threw]: a request of the turn threw before a counter was changed. *)
Inductive videoOutcome :=
| AlreadyCached
| UpsertFailed
| Processed
| NotProcessed (processing_error : option string)
| Threw.

Record counters := {
  processedCount : Z;
  failedCount : Z;
  existingCount : Z;
  noTranscriptCount : Z
}.

Definition zero : counters :=
  {| processedCount := 0; failedCount := 0; existingCount := 0;
     noTranscriptCount := 0 |}.

Definition isNoTranscript (processing_error : option string) : bool :=
  match processing_error with
  | Some e => includes e "transcript" || includes e "captions"
  | None => false
  end.

(** The body of the [for] loop. *)
Definition countVideo (c : counters) (o : videoOutcome) : counters :=
  match o with
  | AlreadyCached =>
      {| processedCount := processedCount c + 1;
         failedCount := failedCount c;
         existingCount := existingCount c + 1;
         noTranscriptCount := noTranscriptCount c |}
  | UpsertFailed | Threw =>
      {| processedCount := processedCount c;
         failedCount := failedCount c + 1;
         existingCount := existingCount c;
         noTranscriptCount := noTranscriptCount c |}
  | Processed =>
      {| processedCount := processedCount c + 1;
         failedCount := failedCount c;
         existingCount := existingCount c;
         noTranscriptCount := noTranscriptCount c |}
  | NotProcessed processing_error =>
      {| processedCount := processedCount c;
         failedCount := failedCount c + 1;
         existingCount := existingCount c;
         noTranscriptCount :=
           if isNoTranscript processing_error then noTranscriptCount c + 1
           else noTranscriptCount c |}
  end.

(** The data handed to [sendChannelProcessingNotification]. *)
Record emailPayload := {
  videosProcessed : Z;
  totalVideos : Z;
  existingVideos : Z;
  noTranscriptVideos : Z;
  failedVideos : Z
}.

(** [processChannel] from the listing of the videos to the call of
    [sendCompletionEmail]: [videos] gives, for each listed video in order,
    what its turn meets. *)
Definition processChannel_payload (videos : list videoOutcome) : emailPayload :=
  let videosToProcess := List.firstn 20 videos in
  let c := List.fold_left countVideo videosToProcess zero in
  {| videosProcessed := processedCount c;
     totalVideos := Z.of_nat (List.length videosToProcess);
     existingVideos := existingCount c;
     noTranscriptVideos := noTranscriptCount c;
     failedVideos := failedCount c |}.

(** [sendCompletionEmail]: nothing is sent without an address. *)
Definition sendCompletionEmail (userEmail : option string)
    (p : emailPayload) : option emailPayload :=
  match userEmail with
  | None => None
  | Some e => if String.eqb e "" then None else Some p
  end.

(** The messages [downloadTranscript] and [processVideo] raise when a video
    has no captions. *)
Definition noCaptionsMessage : string :=
  "Unable to analyze this video. The video may not have captions enabled or may be private.".

End ChannelProcessor.

(** ** middleware/auth.js *)

Module Auth.

(** [req.user].  [premium] is [false] when the property is absent. *)
Record user := {
  id : string;
  email : option string;
  isApiKey : bool;
  premium : bool
}.

(** The parts of an Express request the middlewares read. *)
Record request := {
  headers : gmap string string;
  req_user : option user;
  remoteAddress : option string;
  ip : option string
}.

(** A header value: a number, [Infinity], a text, or a date written by
    [toISOString] (kept as its time in milliseconds). *)
Inductive headerValue :=
| HNum (n : Z)
| HInfinity
| HStr (s : string)
| HDate (ms : Z).

(** The JSON bodies the two middlewares send. *)
Inductive body :=
| ErrorBody (error : string)
| RateLimitBody (error message : string) (limit : option Z)
    (window : option string) (resetAt : option Z).

(** What a middleware did with [res] and [next]. *)
Record effect := {
  setHeaders : list (string * headerValue);
  sent : option (Z * body);
  calledNext : bool
}.

Definition justNext : effect :=
  {| setHeaders := []; sent := None; calledNext := true |}.

(** [a || b] on strings that may be absent *)
Definition orElse (a : option string) (b : string) : string :=
  match a with
  | Some s => if String.eqb s "" then b else s
  | None => b
  end.

(** [authMiddleware], with [process.env.BACKEND_API_KEY] as a parameter. *)
Definition authMiddleware (BACKEND_API_KEY : option string) (req : request)
  : request * effect :=
  let apiKey := headers req !! "x-api-key"%string in
  if bool_decide (apiKey = BACKEND_API_KEY) then
    let userId := headers req !! "x-user-id"%string in
    let userEmail := headers req !! "x-user-email"%string in
    ({| headers := headers req;
        req_user := Some {| id := orElse userId "api-client";
                            email := userEmail;
                            isApiKey := true;
                            premium := false |};
        remoteAddress := remoteAddress req;
        ip := ip req |},
     justNext)
  else
    (req, {| setHeaders := [];
             sent := Some (401, ErrorBody "Unauthorized");
             calledNext := false |}).

End Auth.

(** ** src/middleware/rateLimit.js *)

Module RateLimit.
Import Auth.

Record limits := {
  hourly : option Z;
  daily : option Z
}.

(** [RATE_LIMITS[userType]?.[action]]: the entries of the table.  The
    lookup of the code also finds the members every object inherits
    ([constructor], [toString], ...); the table stands for the lookup on
    the other names only, and what is proved of an arbitrary action below
    either does not depend on the answer or excludes those names. *)
Definition RATE_LIMITS (userType action : string) : option limits :=
  if String.eqb userType "anonymous" then
    if String.eqb action "chat" then Some {| hourly := Some 5; daily := Some 5 |}
    else if String.eqb action "video_upload" then Some {| hourly := None; daily := Some 2 |}
    else if String.eqb action "channel_process" then Some {| hourly := None; daily := Some 0 |}
    else None
  else if String.eqb userType "user" then
    if String.eqb action "chat" then Some {| hourly := Some 5; daily := Some 5 |}
    else if String.eqb action "video_upload" then Some {| hourly := None; daily := Some 10 |}
    else if String.eqb action "channel_process" then Some {| hourly := None; daily := Some 1 |}
    else None
  else if String.eqb userType "premium" then
    if String.eqb action "chat" then Some {| hourly := Some 50; daily := Some 200 |}
    else if String.eqb action "video_upload" then Some {| hourly := None; daily := Some 50 |}
    else if String.eqb action "channel_process" then Some {| hourly := None; daily := Some 10 |}
    else None
  else None.

(** A row of [rate_limits]; times are milliseconds since the epoch. *)
Record rateEvent := {
  identifier : string;
  action : string;
  created_at : Z
}.

Record cacheEntry := {
  count : Z;
  expires : Z;
  entry_resetAt : Z
}.

(** The requests sent to the store, latest first. *)
Inductive storeRequest :=
| CountSince (identifier action : string) (windowStart : Z)
| InsertEvent (e : rateEvent).

(** The limiter's [cache] (a [Map], keys in insertion order), the table,
    whether the store answers with an error, and the requests sent. *)
Record world := {
  cache : list (string * cacheEntry);
  rate_limits : list rateEvent;
  storeFails : bool;
  requests : list storeRequest
}.

(** The number in [remaining]: a number, [Infinity] or [null]. *)
Inductive remainingValue :=
| Num (n : Z)
| Infinity
| Null.

Record limitResult := {
  allowed : bool;
  remaining : remainingValue;
  limit : option Z;
  window : option string;
  resetAt : option Z
}.

Fixpoint cacheGet (c : list (string * cacheEntry)) (k : string)
  : option cacheEntry :=
  match c with
  | [] => None
  | (k', v) :: c' => if String.eqb k' k then Some v else cacheGet c' k
  end.

Fixpoint cacheSet (c : list (string * cacheEntry)) (k : string)
    (v : cacheEntry) : list (string * cacheEntry) :=
  match c with
  | [] => [(k, v)]
  | (k', v') :: c' =>
      if String.eqb k' k then (k', v) :: c' else (k', v') :: cacheSet c' k v
  end.

Definition cacheDelete (c : list (string * cacheEntry)) (k : string)
  : list (string * cacheEntry) :=
  List.filter (fun kv => negb (String.eqb (fst kv) k)) c.

Definition getCacheKey (identifier action window : string) : string :=
  (identifier ++ ":" ++ action ++ ":" ++ window)%string.

Definition hourMs : Z := 3600000.
Definition dayMs : Z := 86400000.

(** [setHours(getHours() - 1)] and [setDate(getDate() - 1)], away from a
    change of the local clock. *)
Definition windowMs (window : string) : Z :=
  if String.eqb window "hour" then hourMs else dayMs.

Definition checkWindowLimit (identifier action window : string) (limit now : Z)
    (w : world) : world * limitResult :=
  let windowStart := now - windowMs window in
  let cacheKey := getCacheKey identifier action window in
  let fromCache :=
    match cacheGet (cache w) cacheKey with
    | Some cached => if now <? expires cached then Some cached else None
    | None => None
    end in
  match fromCache with
  | Some cached =>
      let remaining := Z.max 0 (limit - count cached) in
      (w, {| allowed := 0 <? remaining;
             remaining := Num remaining;
             limit := Some limit;
             window := Some window;
             resetAt := Some (entry_resetAt cached) |})
  | None =>
      let w1 := {| cache := cache w;
                   rate_limits := rate_limits w;
                   storeFails := storeFails w;
                   requests := CountSince identifier action windowStart
                                 :: requests w |} in
      if storeFails w then
        (w1, {| allowed := true; remaining := Num limit; limit := None;
                window := None; resetAt := None |})
      else
        let usageCount :=
          Z.of_nat (List.length (List.filter
            (fun e => String.eqb (RateLimit.identifier e) identifier
                      && String.eqb (RateLimit.action e) action
                      && (windowStart <=? created_at e))
            (rate_limits w))) in
        let remaining := Z.max 0 (limit - usageCount) in
        let resetAt := windowStart + windowMs window in
        let cache1 :=
          cacheSet (cache w) cacheKey
            {| count := usageCount; expires := now + 60000;
               entry_resetAt := resetAt |} in
        let cache2 :=
          if 1000 <? Z.of_nat (List.length cache1) then List.tl cache1
          else cache1 in
        ({| cache := cache2;
            rate_limits := rate_limits w;
            storeFails := storeFails w;
            requests := requests w1 |},
         {| allowed := 0 <? remaining;
            remaining := Num remaining;
            limit := Some limit;
            window := Some window;
            resetAt := Some resetAt |})
  end.

(** [a < b] on the values of [remaining] *)
Definition remainingLt (a b : remainingValue) : bool :=
  match a, b with
  | Infinity, _ => false
  | _, Infinity => true
  | Num x, Num y => x <? y
  | Num x, Null => x <? 0
  | Null, Num y => 0 <? y
  | Null, Null => false
  end.

Definition mostRestrictiveOf (prev current : limitResult) : limitResult :=
  if negb (allowed current) then current
  else if negb (allowed prev) then prev
  else if remainingLt (remaining current) (remaining prev) then current
  else prev.

Definition checkLimit (identifier action userType : string) (now : Z)
    (w : world) : world * limitResult :=
  match RATE_LIMITS userType action with
  | None =>
      (w, {| allowed := true; remaining := Null; limit := None;
             window := None; resetAt := None |})
  | Some limits =>
      let '(w1, results1) :=
        match hourly limits with
        | Some h =>
            let '(w', r) := checkWindowLimit identifier action "hour" h now w in
            (w', [r])
        | None => (w, [])
        end in
      let '(w2, results2) :=
        match daily limits with
        | Some d =>
            let '(w', r) := checkWindowLimit identifier action "day" d now w1 in
            (w', results1 ++ [r])
        | None => (w1, results1)
        end in
      (w2, List.fold_left mostRestrictiveOf results2
             {| allowed := true; remaining := Infinity; limit := None;
                window := None; resetAt := None |})
  end.

Definition recordUsage (identifier action : string) (now : Z) (w : world)
  : world :=
  let e := {| identifier := identifier; action := action; created_at := now |} in
  {| cache := cacheDelete (cacheDelete (cache w)
                             (getCacheKey identifier action "hour"))
                          (getCacheKey identifier action "day");
     rate_limits := if storeFails w then rate_limits w else rate_limits w ++ [e];
     storeFails := storeFails w;
     requests := InsertEvent e :: requests w |}.

Definition isSpace (a : ascii) : bool :=
  let n := N_of_ascii a in
  ((9 <=? n) && (n <=? 13) || (n =? 32) || (n =? 160))%N.

Fixpoint trimLeft (s : string) : string :=
  match s with
  | String a s' => if isSpace a then trimLeft s' else s
  | EmptyString => EmptyString
  end.

Definition reverse (s : string) : string :=
  string_of_list_ascii (List.rev (list_ascii_of_string s)).

Definition trim (s : string) : string := reverse (trimLeft (reverse (trimLeft s))).

(** [s.split(',')[0]] *)
Fixpoint firstField (s : string) : string :=
  match s with
  | String a s' => if Ascii.eqb a "," then EmptyString else String a (firstField s')
  | EmptyString => EmptyString
  end.

Definition truthy (s : option string) : option string :=
  match s with
  | Some v => if String.eqb v "" then None else Some v
  | None => None
  end.

Definition getClientIp (req : request) : string :=
  let forwarded := truthy (headers req !! "x-forwarded-for"%string) in
  let real := truthy (headers req !! "x-real-ip"%string) in
  let cloudflare := truthy (headers req !! "cf-connecting-ip"%string) in
  match cloudflare, forwarded, real with
  | Some c, _, _ => c
  | None, Some f, _ => trim (firstField f)
  | None, None, Some r => r
  | None, None, None =>
      orElse (remoteAddress req) (orElse (ip req) "unknown")
  end.

(** [result.limit || 'unlimited'] *)
Definition limitHeader (l : option Z) : headerValue :=
  match l with
  | Some n => if n =? 0 then HStr "unlimited" else HNum n
  | None => HStr "unlimited"
  end.

(** [result.remaining || 'unlimited'] *)
Definition remainingHeader (r : remainingValue) : headerValue :=
  match r with
  | Num n => if n =? 0 then HStr "unlimited" else HNum n
  | Infinity => HInfinity
  | Null => HStr "unlimited"
  end.

(** The handler [rateLimitMiddleware(action)] returns, run at time [now]. *)
Definition rateLimitMiddleware (action : string) (now : Z) (req : request)
    (w : world) : world * effect :=
  if match req_user req with Some u => isApiKey u | None => false end
  then (w, justNext)
  else
    let '(identifier, userType) :=
      match req_user req with
      | Some u => (("user:" ++ Auth.id u)%string,
                   if premium u then "premium"%string else "user"%string)
      | None => (("ip:" ++ getClientIp req)%string, "anonymous"%string)
      end in
    let '(w1, result) := checkLimit identifier action userType now w in
    let hs :=
      [("X-RateLimit-Limit"%string, limitHeader (limit result));
       ("X-RateLimit-Remaining"%string, remainingHeader (remaining result))]
      ++ match resetAt result with
         | Some t => [("X-RateLimit-Reset"%string, HDate t)]
         | None => []
         end in
    if negb (allowed result) then
      (w1, {| setHeaders := hs;
              sent := Some (429,
                RateLimitBody "Rate limit exceeded"
                  ("Too many " ++ action ++ " requests. Please try again later.")
                  (limit result) (window result) (resetAt result));
              calledNext := false |})
    else
      (recordUsage identifier action now w1,
       {| setHeaders := hs; sent := None; calledNext := true |}).

End RateLimit.

(** ** src/services/lockService.js *)

Module LockService.

(** A row of [processing_locks]; [resource_id] is unique in the table. *)
Record lockRow := {
  resource_id : string;
  lock_id : string;
  expires_at : Z;
  created_at : Z
}.

(** The two maps of one [DistributedLockService] instance (one per
    process).  A timer handle is kept as the time it fires at. *)
Record instance := {
  locks : gmap string string;
  lockTimers : gmap string Z
}.

Definition empty : instance := {| locks := ∅; lockTimers := ∅ |}.

Definition showZ (n : Z) : string := NilZero.string_of_int (Z.to_int n).

Definition held (resourceId : string) (r : lockRow) : bool :=
  String.eqb (resource_id r) resourceId.

Definition isRow (resourceId lockId : string) (r : lockRow) : bool :=
  String.eqb (resource_id r) resourceId && String.eqb (lock_id r) lockId.

(** [.delete().eq('resource_id', resourceId).eq('lock_id', lockId)] *)
Definition deleteRow (resourceId lockId : string) (t : list lockRow)
  : list lockRow :=
  List.filter (fun r => negb (isRow resourceId lockId r)) t.

(** [.select('*').eq('resource_id', resourceId).single()] *)
Definition selectSingle (resourceId : string) (t : list lockRow)
  : option lockRow :=
  match List.filter (held resourceId) t with
  | [r] => Some r
  | _ => None
  end.

(** [checkAndCleanExpiredLock]: [Some true] after removing an expired
    row, [Some false] when the row is still valid, [None] for [null]. *)
Definition checkAndCleanExpiredLock (resourceId : string) (now : Z)
    (t : list lockRow) : list lockRow * option bool :=
  match selectSingle resourceId t with
  | None => (t, None)
  | Some existingLock =>
      if expires_at existingLock <? now
      then (deleteRow resourceId (lock_id existingLock) t, Some true)
      else (t, Some false)
  end.

(** [acquire(resourceId, ttlSeconds)].  Each attempt reads the clock and
    [Math.random()] once; [samples] lists those readings, and the call
    that retries after a clean-up takes the next one.  [storeFails] tells
    whether the insert comes back with an error other than the
    unique-key violation. *)
Fixpoint acquire (samples : list (Z * string)) (storeFails : bool)
    (resourceId : string) (ttlSeconds : Z)
    (inst : instance) (t : list lockRow)
  : instance * list lockRow * option string :=
  match samples with
  | [] => (inst, t, None)
  | (now, random) :: later =>
      let lockId := (resourceId ++ "-" ++ showZ now ++ "-" ++ random)%string in
      let expiresAt := now + ttlSeconds * 1000 in
      if storeFails then (inst, t, None)
      else if List.existsb (held resourceId) t then
        match checkAndCleanExpiredLock resourceId now t with
        | (t', Some true) =>
            acquire later storeFails resourceId ttlSeconds inst t'
        | (t', _) => (inst, t', None)
        end
      else
        ({| locks := <[resourceId := lockId]> (locks inst);
            lockTimers :=
              <[resourceId := now + (ttlSeconds - 10) * 1000]> (lockTimers inst) |},
         t ++ [ {| resource_id := resourceId; lock_id := lockId;
                   expires_at := expiresAt; created_at := now |} ],
         Some lockId)
  end.

(** [release(resourceId)]; [storeFails] tells whether the delete comes
    back with an error. *)
Definition release (storeFails : bool) (resourceId : string)
    (inst : instance) (t : list lockRow) : instance * list lockRow * bool :=
  match locks inst !! resourceId with
  | None => (inst, t, false)
  | Some lockId =>
      if String.eqb lockId "" then (inst, t, false)
      else if storeFails then (inst, t, false)
      else
        ({| locks := delete resourceId (locks inst);
            lockTimers := delete resourceId (lockTimers inst) |},
         deleteRow resourceId lockId t,
         true)
  end.

(** [isLocked(resourceId)] *)
Definition isLocked (resourceId : string) (now : Z) (t : list lockRow) : bool :=
  match selectSingle resourceId t with
  | Some lock => now <? expires_at lock
  | None => false
  end.

End LockService.

(** ** src/services/chatService.js ([streamChat]) *)

Module ChatService.

Record message := {
  role : string;
  content : string
}.

Section Stream.

(** The citations and [extractCitations], a function of the response
    text alone; nothing below depends on what it finds. *)
Variable citation : Type.
Variable extractCitations : string -> list citation.

(** The frames written to [res]. *)
Inductive frame :=
| ContentFrame (content : string)
| DoneFrame (citations : list citation)
| ErrorFrame (error : string).

(** What the [for await] loop meets: a chunk of the model, together
    with the value [activeStreams.get(streamId)] has when the chunk is
    looked at, or an exception of the stream.  An exception of the
    [create] call is an exception before the first chunk. *)
Inductive streamEvent :=
| Delta (active : bool) (deltaContent : option string)
| StreamError (message : string).

(** The requests of the chat history: an insert into [chat_messages], and
    the update of the row of [chat_sessions], which [saveChatMessage] is
    written to send last and never sends (see below). *)
Inductive storeRequest :=
| InsertMessage (session_id role content : string)
    (citations : option (list citation))
| UpdateSession (session_id : string).

Record outcome := {
  written : list frame;
  ended : bool;
  requests : list storeRequest
}.

(** The loop: the response so far and the frames written so far go in,
    and come out with the exception that ended the loop, if any. *)
Fixpoint consume (events : list streamEvent) (fullResponse : string)
    (frames : list frame) : string * list frame * option string :=
  match events with
  | [] => (fullResponse, frames, None)
  | StreamError m :: _ => (fullResponse, frames, Some m)
  | Delta active deltaContent :: rest =>
      if negb active then (fullResponse, frames, None)
      else
        let content := match deltaContent with Some c => c | None => "" end in
        if negb (String.eqb content "")
        then consume rest (fullResponse ++ content)
                     (frames ++ [ContentFrame content])
        else consume rest fullResponse frames
  end.

(** [saveChatMessage]: the requests it sends.  Reading
    [userMessage.content] throws inside the [try] when there is no message,
    before any request is sent.  After the two inserts the argument of
    [.update(...)] is built first: it evaluates [supabase.sql], a member the
    client made by [createClient] does not have, so a [TypeError] is thrown
    and caught by the [catch] of the function before the update is sent. *)
Definition saveChatMessage (sessionId : string) (userMessage : option message)
    (assistantResponse : string) (citations : list citation)
  : list storeRequest :=
  match userMessage with
  | None => []
  | Some m =>
      [ InsertMessage sessionId "user" (content m) None;
        InsertMessage sessionId "assistant" assistantResponse
          (match citations with [] => None | _ => Some citations end) ]
  end.

Definition lastMessage (messages : list message) : option message :=
  List.last (List.map Some messages) None.

(** [streamChat] from the creation of the stream on; [contextCitations]
    is what [getVideoContext] returned. *)
Definition streamChat (messages : list message) (sessionId : option string)
    (contextCitations : list citation) (events : list streamEvent)
  : outcome :=
  match consume events "" [] with
  | (_, frames, Some m) =>
      {| written := frames ++ [ErrorFrame m]; ended := true; requests := [] |}
  | (fullResponse, frames, None) =>
      let citations := extractCitations fullResponse in
      let saved :=
        match sessionId with
        | Some sid =>
            if String.eqb sid "" then []
            else saveChatMessage sid (lastMessage messages) fullResponse citations
        | None => []
        end in
      let allCitations := contextCitations ++ citations in
      {| written := frames ++ [DoneFrame allCitations];
         ended := true;
         requests := saved |}
  end.

End Stream.

Arguments ContentFrame {citation}.
Arguments DoneFrame {citation}.
Arguments ErrorFrame {citation}.
Arguments InsertMessage {citation}.
Arguments UpdateSession {citation}.
Arguments written {citation}.
Arguments ended {citation}.
Arguments requests {citation}.

End ChatService.

(** ** The chunker's cut policy in the words of the specification (§4.I) *)

Module ChunkerSpec.
Import JS.

(** The last character of [text] that is not white space. *)
Definition lastNonSpace (text : jsstring) : option N :=
  List.find (fun c => negb (isWhiteSpace c)) (List.rev text).

(** [natural]: the last non-space character is one of [.], [!], [?]. *)
Definition natural (text : jsstring) : bool :=
  match lastNonSpace text with
  | Some c => (c =? 46)%N || (c =? 33)%N || (c =? 63)%N
  | None => false
  end.

Definition long (buffer : jsstring) : bool := 1000 <=? JS.length buffer.
Definition too_long (buffer : jsstring) : bool := 2000 <=? JS.length buffer.

(** Cut when [(natural ∧ long) ∨ too_long ∨ last]. *)
Definition cut (text buffer : jsstring) (last : bool) : bool :=
  (natural text && long buffer) || too_long buffer || last.

End ChunkerSpec.

(** ** The outcomes a counter of [processChannel] counts *)

Module ChannelCounts.
Import ChannelProcessor.

(** How many outcomes of a list satisfy [p]. *)
Definition countIf (p : videoOutcome -> bool) (l : list videoOutcome) : Z :=
  Z.of_nat (List.length (List.filter p l)).

Definition isProcessedOutcome (o : videoOutcome) : bool :=
  match o with AlreadyCached | Processed => true | _ => false end.

Definition isExistingOutcome (o : videoOutcome) : bool :=
  match o with AlreadyCached => true | _ => false end.

Definition isFailedOutcome (o : videoOutcome) : bool :=
  match o with UpsertFailed | Threw | NotProcessed _ => true | _ => false end.

Definition isNoTranscriptOutcome (o : videoOutcome) : bool :=
  match o with NotProcessed e => isNoTranscript e | _ => false end.

End ChannelCounts.

(** ** What a run of the chat loop has sent *)

Module ChatTrace.
Import ChatService.

(** A chunk seen while the stream is still registered. *)
Definition activeDelta (e : streamEvent) : bool :=
  match e with
  | Delta true _ => true
  | _ => false
  end.

(** The non-empty contents among the chunks of [events]. *)
Definition sentContents (events : list streamEvent) : list string :=
  List.flat_map
    (fun e => match e with
              | Delta _ (Some c) => if String.eqb c "" then [] else [c]
              | _ => []
              end)
    events.

Definition joinAll (parts : list string) : string :=
  List.fold_right String.append ""%string parts.

End ChatTrace.

(** ** The words only the query side drops *)

Module QueryWords.

Definition interrogatives : list JS.jsstring :=
  List.map JS.of_string
    ["what"; "when"; "where"; "who"; "why"; "how"; "which"; "that"; "this"]%string.

End QueryWords.

(** ** Byte ranges of a list of chunks *)

Module ChunkBytes.
Import JS VideoProcessor.

(** The chunks cover the bytes from [first] to [stop] without gap or
    overlap, in order. *)
Fixpoint chained (first : Z) (cs : list chunk) (stop : Z) : Prop :=
  match cs with
  | [] => first = stop
  | c :: cs' => byte_offset c = first /\ chained (first + byte_length c) cs' stop
  end.

Definition texts (cs : list chunk) : jsstring := List.concat (List.map text cs).

Definition endsWithNewline (s : jsstring) : Prop :=
  s = [] \/ exists s', s = s' ++ [10%N].

(** What holds of the variables of [createChunks] when the lines read so far
    make up [content]. *)
Record invariant (content : jsstring) (st : state) : Prop := {
  inv_content : texts (chunks st) ++ currentChunk st = content;
  inv_offset : byteOffset st = utf8Length (texts (chunks st));
  inv_chain : chained 0 (chunks st) (byteOffset st);
  inv_lengths :
    List.Forall (fun c => byte_length c = utf8Length (text c)) (chunks st);
  inv_texts_newline : endsWithNewline (texts (chunks st));
  inv_current_newline : endsWithNewline (currentChunk st);
  inv_start : currentChunk st <> [] -> chunkStartOffset st = byteOffset st
}.

End ChunkBytes.

(** ** The score a result of the two video searches carries *)

Module SearchScore.
Import JS.

(** The semantic top-set of [hybridChunkSearch]. *)
Definition topSet (allChunks : list RagSearch.row) (topK : nat)
  : list RagSearch.row :=
  List.firstn topK (Score.sortDesc RagSearch.similarity allChunks).

(** The row is among [keywordResults]. *)
Definition matched (query : jsstring) (c : RagSearch.row) : bool :=
  (0 <? Z.of_nat (List.length (RagSearch.extractKeywords query)))
  && RagSearch.keywordMatch (RagSearch.extractKeywords query) c.

(** The three ways a result of [hybridChunkSearch] gets its score. *)
Definition hybridScored (allChunks : list RagSearch.row) (query : jsstring)
    (topK : nat) (r : RagSearch.result) : Prop :=
  let c := RagSearch.res_row r in
  List.In c allChunks
  /\ ((List.In c (topSet allChunks topK) /\ matched query c = false
       /\ RagSearch.score r = RagSearch.similarity c)
      \/ (List.In c (topSet allChunks topK) /\ matched query c = true
          /\ RagSearch.score r = (RagSearch.similarity c + (3 # 10))%Q)
      \/ (~ List.In c (topSet allChunks topK) /\ matched query c = true
          /\ RagSearch.score r = (5 # 10)%Q)).

(** The keywords found in the preview of a row. *)
Definition previewHits (keywords : list jsstring) (c : RagService.chunkRow) : Z :=
  Z.of_nat (List.length
    (List.filter
       (fun keyword => includes (toLowerCase (RagService.text_preview c)) keyword)
       keywords)).

(** How a result of [searchVideoChunks] gets its score: only rows above the
    threshold are results. *)
Definition previewScored (table : list RagService.chunkRow)
    (keywords : list jsstring) (e : RagService.enhancedChunk) : Prop :=
  List.In (RagService.chunk e) table
  /\ (7 # 10 < RagService.similarity (RagService.chunk e))%Q
  /\ RagService.score e
     = (RagService.similarity (RagService.chunk e)
        + inject_Z (previewHits keywords (RagService.chunk e)) * (1 # 10))%Q.

(** What holds of [allResults] after the semantic results were added. *)
Definition semanticMap (top : list RagSearch.row) (m : RagSearch.resultMap)
  : Prop :=
  List.NoDup (List.map fst m)
  /\ forall k v, List.In (k, v) m ->
       k = RagSearch.id (RagSearch.res_row v)
       /\ List.In (RagSearch.res_row v) top
       /\ RagSearch.score v = RagSearch.similarity (RagSearch.res_row v).

(** What holds of [allResults] once the keyword results [done] were added. *)
Definition keywordMap (allChunks top done : list RagSearch.row)
    (m : RagSearch.resultMap) : Prop :=
  List.NoDup (List.map fst m)
  /\ (forall c, List.In c top -> List.In (RagSearch.id c) (List.map fst m))
  /\ forall k v, List.In (k, v) m ->
       let c := RagSearch.res_row v in
       k = RagSearch.id c /\ List.In c allChunks
       /\ ((List.In c top /\ ~ List.In c done
            /\ RagSearch.score v = RagSearch.similarity c)
           \/ (List.In c top /\ List.In c done
               /\ RagSearch.score v = (RagSearch.similarity c + (3 # 10))%Q)
           \/ (~ List.In c top /\ List.In c done
               /\ RagSearch.score v = (5 # 10)%Q)).

End SearchScore.

(** ** Inputs of the worked examples *)

Module Examples.

(** *** Rate limiter: a signed-in caller without the API-key mark *)

Definition userRequest : Auth.request :=
  {| Auth.headers := ∅;
     Auth.req_user := Some {| Auth.id := "u1"; Auth.email := None;
                              Auth.isApiKey := false; Auth.premium := false |};
     Auth.remoteAddress := None;
     Auth.ip := None |}.

Definition emptyWorld : RateLimit.world :=
  {| RateLimit.cache := []; RateLimit.rate_limits := [];
     RateLimit.storeFails := false; RateLimit.requests := [] |}.

(** [n] chat calls of that caller, one second apart, starting at [t0];
    the effects of the calls, oldest first, and the world afterwards. *)
Fixpoint chatCalls (n : nat) (t0 : Z) (w : RateLimit.world)
  : RateLimit.world * list Auth.effect :=
  match n with
  | O => (w, [])
  | S n' =>
      let '(w1, e) := RateLimit.rateLimitMiddleware "chat" t0 userRequest w in
      let '(w2, es) := chatCalls n' (t0 + 1000) w1 in
      (w2, e :: es)
  end.

(** A request carrying the shared secret. *)
Definition keyedRequest : Auth.request :=
  {| Auth.headers := <["x-api-key"%string := "secret"%string]>
                       (<["x-user-id"%string := "u1"%string]> ∅);
     Auth.req_user := None;
     Auth.remoteAddress := Some "10.0.0.7"%string;
     Auth.ip := None |}.

(** *** Channel statistics: two new videos, two cached, one without
    captions *)

Definition fiveVideos : list ChannelProcessor.videoOutcome :=
  [ ChannelProcessor.Processed;
    ChannelProcessor.AlreadyCached;
    ChannelProcessor.NotProcessed (Some ChannelProcessor.noCaptionsMessage);
    ChannelProcessor.AlreadyCached;
    ChannelProcessor.Processed ].

(** *** Chunk store: a video processed once before *)

Definition oldRow : VideoProcessor.chunkRecord :=
  {| VideoProcessor.video_id := "5b0e8d2c-0001";
     VideoProcessor.rec_chunk_index := 0;
     VideoProcessor.rec_start_time := 0;
     VideoProcessor.rec_end_time := 30;
     VideoProcessor.storage_path := "abc123/transcript.txt";
     VideoProcessor.rec_byte_offset := 0;
     VideoProcessor.rec_byte_length := 20;
     VideoProcessor.rec_keywords := [JS.of_string "older"];
     VideoProcessor.rec_embedding := None |}.

Definition videoAbc : VideoProcessor.videoRow :=
  {| VideoProcessor.id := "5b0e8d2c-0001"; VideoProcessor.youtube_id := "abc123" |}.

Definition storeBefore : VideoProcessor.store :=
  {| VideoProcessor.videos := [videoAbc];
     VideoProcessor.transcript_chunks := [oldRow] |}.

Definition newTranscript : list VideoProcessor.segment :=
  [ {| VideoProcessor.seg_start := 0; VideoProcessor.seg_end := 4;
       VideoProcessor.seg_text := JS.of_string "Fresh words." |} ].

Definition newChunks : list VideoProcessor.embeddedChunk :=
  List.map (fun c => {| VideoProcessor.base := c; VideoProcessor.embedding := None |})
           (VideoProcessor.createChunks newTranscript).

(** *** Chat stream: the client leaves after the first delta.  The text
    holds no time stamp, so [extractCitations] finds nothing in it. *)

Definition noCitations (response : string) : list unit := [].

Definition chatMessages : list ChatService.message :=
  [ {| ChatService.role := "user"; ChatService.content := "What is shown?" |} ].

Definition droppedStream : list (ChatService.streamEvent) :=
  [ ChatService.Delta true (Some "The host "%string);
    ChatService.Delta false (Some "waves "%string);
    ChatService.Delta true (Some "twice."%string) ].

(** *** Video search: chunk A (semantic 0.80, no keyword) and chunk B
    (semantic 0.60, two query keywords among its keywords and in its
    preview) *)

Definition searchQuery : JS.jsstring := JS.of_string "sourdough bread recipe".

Definition rowA : RagSearch.row :=
  {| RagSearch.id := "A"; RagSearch.chunk_index := 0;
     RagSearch.keywords := Some [JS.of_string "weather"; JS.of_string "forecast"];
     RagSearch.similarity := 8 # 10 |}.

Definition rowB : RagSearch.row :=
  {| RagSearch.id := "B"; RagSearch.chunk_index := 1;
     RagSearch.keywords := Some [JS.of_string "sourdough"; JS.of_string "bread"];
     RagSearch.similarity := 6 # 10 |}.

Definition storedA : RagService.chunkRow :=
  {| RagService.id := "A"; RagService.video_id := "5b0e8d2c-0001";
     RagService.has_embedding := true; RagService.similarity := 8 # 10;
     RagService.text_preview := JS.of_string "[0:00] Today the weather is fine" |}.

Definition storedB : RagService.chunkRow :=
  {| RagService.id := "B"; RagService.video_id := "5b0e8d2c-0001";
     RagService.has_embedding := true; RagService.similarity := 6 # 10;
     RagService.text_preview := JS.of_string "[1:10] Sourdough bread needs time" |}.

(** A third chunk, above the threshold of the procedure, with the same two
    keywords in its preview. *)
Definition storedC : RagService.chunkRow :=
  {| RagService.id := "C"; RagService.video_id := "5b0e8d2c-0001";
     RagService.has_embedding := true; RagService.similarity := 75 # 100;
     RagService.text_preview := JS.of_string "[2:30] Bake the sourdough bread" |}.

(** The keywords [ragService.extractKeywords] finds in the query: its three
    words, once each. *)
Definition searchKeywords : list JS.jsstring :=
  [JS.of_string "sourdough"; JS.of_string "bread"; JS.of_string "recipe"].

(** The id and the score, in lowest terms, of each result. *)
Definition hybridRanking : list (string * Q) :=
  List.map (fun r => (RagSearch.id (RagSearch.res_row r), Qred (RagSearch.score r)))
           (RagSearch.hybridChunkSearch [rowA; rowB] searchQuery 5).

Definition previewRanking : list (string * Q) :=
  List.map (fun e => (RagService.id (RagService.chunk e), Qred (RagService.score e)))
           (RagService.searchVideoChunks [storedA; storedB; storedC]
              (Some "5b0e8d2c-0001"%string) searchKeywords 5).

(** *** Chunker: an answer of the transcript provider *)

Definition rawTranscript : list VideoProcessor.raw_segment :=
  [ {| VideoProcessor.raw_start := 1 # 2;
       VideoProcessor.raw_duration := 7 # 2;
       VideoProcessor.raw_text := JS.of_string " Welcome back.  " |};
    {| VideoProcessor.raw_start := 4 # 1;
       VideoProcessor.raw_duration := 5 # 2;
       VideoProcessor.raw_text := JS.of_string "Today we bake bread" |} ].

Definition firstSegment : VideoProcessor.segment :=
  {| VideoProcessor.seg_start := 0;
     VideoProcessor.seg_end := 4;
     VideoProcessor.seg_text := JS.of_string "Welcome back." |}.

(** *** Locks: one process holds a lease that has run out, a second
    process acquires the resource *)

Definition firstAcquire :=
  LockService.acquire [(1000, "0.25"%string)] false "video-X" 600
    LockService.empty [].

Definition holderA : LockService.instance := fst (fst firstAcquire).
Definition tableA : list LockService.lockRow := snd (fst firstAcquire).

Definition secondAcquire :=
  LockService.acquire [(700000, "0.5"%string); (700001, "0.75"%string)] false
    "video-X" 600 LockService.empty tableA.

Definition tableB : list LockService.lockRow := snd (fst secondAcquire).

End Examples.

(** ** How the chunks of [createChunks] cover the transcript *)

Module ChunkCover.
Import JS VideoProcessor.

(** The chunk [c] is made of the consecutive segments [g]: its text is
    their lines, it starts with the first and ends with the last of them. *)
Definition covers (g : list segment) (c : chunk) : Prop :=
  match g with
  | [] => False
  | first :: _ =>
      text c = List.concat (List.map line g)
      /\ start_time c = seg_start first
      /\ end_time c = seg_end (List.last g first)
      /\ keywords c = extractKeywords (text c)
  end.

(** The chunk [c] of the group [g] was closed in time: what it holds
    before the line of the last segment of [g] is shorter than 2000. *)
Definition closedInTime (g : list segment) (c : chunk) : Prop :=
  exists (before : list segment) (last : segment),
    g = before ++ [last]
    /\ text c = List.concat (List.map line before) ++ line last
    /\ JS.length (List.concat (List.map line before)) < 2000.

(** What holds of the variables of [createChunks] after the segments
    [done], none of which is the last one of the transcript: [groups] are
    the segments of the closed chunks, [open] those in the buffer. *)
Definition invariant (chunkSize : Z) (done : list segment) (st : state) : Prop :=
  exists (groups : list (list segment)) (open : list segment),
    done = List.concat groups ++ open
    /\ List.Forall2 covers groups (chunks st)
    /\ currentChunk st = List.concat (List.map line open)
    /\ match open with
       | [] => True
       | first :: _ => chunkStartTime st = seg_start first
       end
    /\ chunkIndex st = Z.of_nat (List.length (chunks st))
    /\ (forall k c, List.nth_error (chunks st) k = Some c ->
                    chunk_index c = Z.of_nat k)
    /\ List.Forall (fun c => Z.min chunkSize 2000 <= JS.length (text c))
                   (chunks st)
    /\ List.Forall2 closedInTime groups (chunks st)
    /\ JS.length (currentChunk st) < 2000.

End ChunkCover.

(** ** The characters a keyword is made of *)

Module KeywordShape.
Import JS.

(** A small letter, a digit or the underscore. *)
Definition isKeywordChar (c : N) : bool :=
  in_range 97 122 c || in_range 48 57 c || (c =? 95)%N.

End KeywordShape.

(** ** src/services/videoProcessor.js: fetching the transcript *)

Module Transcript.
Import JS VideoProcessor.

(** The properties of a thrown value the handlers read. *)
Record jsError := {
  message : option string;
  status : option Z;
  code : option string
}.

(** [new Error(m)] *)
Definition newError (m : string) : jsError :=
  {| message := Some m; status := None; code := None |}.

(** What one call of [YoutubeTranscriptApi.getTranscript] does: it returns
    an array (or nothing), or it throws. *)
Inductive attempt :=
| Returned (transcript : option (list raw_segment))
| Thrown (e : jsError).

(** [error.message?.includes(p)] *)
Definition messageIncludes (e : jsError) (p : string) : bool :=
  match message e with
  | Some m => ChannelProcessor.includes m p
  | None => false
  end.

(** [error.status === 429 || error.message?.includes('429')] *)
Definition isRateLimited (e : jsError) : bool :=
  match status e with
  | Some s => (s =? 429) || messageIncludes e "429"
  | None => messageIncludes e "429"
  end.

(** The outcome of [downloadWithRetry], the number of calls made and the
    pauses taken, in milliseconds. *)
Record retried := {
  outcome : attempt;
  calls : nat;
  waits : list Z
}.

(** The [for] loop of [downloadWithRetry] from index [i] on; [provider k]
    is what the call number [k] does, [left] counts the turns still to
    come ([retries - i]). *)
Fixpoint retryLoop (provider : nat -> attempt) (retries : Z) (left : nat)
    (i : nat) (delay : Z) (waited : list Z) : retried :=
  match left with
  | O => {| outcome := Returned None; calls := i; waits := waited |}
  | S left' =>
      match provider i with
      | Returned t => {| outcome := Returned t; calls := S i; waits := waited |}
      | Thrown e =>
          if isRateLimited e && (Z.of_nat i <? retries - 1)
          then retryLoop provider retries left' (S i) (delay * 2)
                         (waited ++ [delay])
          else {| outcome := Thrown e; calls := S i; waits := waited |}
      end
  end.

(** [downloadWithRetry(videoId)] with the defaults [retries = 3] and
    [delay = 5000]. *)
Definition downloadWithRetry (provider : nat -> attempt) : retried :=
  retryLoop provider 3 3 0 5000 [].

Definition emptyMessage : string :=
  "Unable to analyze this video. The video may not have captions enabled or may be private.".
Definition captionsMessage : string :=
  "This video cannot be analyzed. Only videos with captions enabled can be processed.".
Definition unavailableMessage : string :=
  "This video is unavailable. It may be private, deleted, or restricted in your region.".
Definition networkMessage : string :=
  "Network error while downloading transcript. Please check your internet connection.".
Definition throttledMessage : string :=
  "YouTube is temporarily blocking requests due to rate limiting. Please wait a few minutes and try again.".

(** The [catch] block of [downloadTranscript]: the error thrown on. *)
Definition classify (error : jsError) : jsError :=
  if messageIncludes error "Could not get transcript" then newError captionsMessage
  else if messageIncludes error "Video unavailable" then newError unavailableMessage
  else if messageIncludes error "fetch failed" || messageIncludes error "ENOTFOUND"
  then newError networkMessage
  else if messageIncludes error "Too Many Requests"
          || match status error with Some s => s =? 429 | None => false end
          || match code error with
             | Some c => String.eqb c "ERR_BAD_REQUEST"
             | None => false
             end
  then newError throttledMessage
  else error.

(** [downloadTranscript(videoId)]: the segments, or the error thrown. *)
Definition downloadTranscript (provider : nat -> attempt)
  : jsError + list segment :=
  match outcome (downloadWithRetry provider) with
  | Thrown e => inl (classify e)
  | Returned None => inl (classify (newError emptyMessage))
  | Returned (Some []) => inl (classify (newError emptyMessage))
  | Returned (Some transcript) => inr (downloadTranscript_convert transcript)
  end.

End Transcript.

(** ** src/services/videoProcessor.js: [generateEmbeddings] *)

Module Embeddings.
Import JS VideoProcessor.

(** The chunks [l], which stand at the positions [i], [i + 1], ..., each
    with the vector of its position. *)
Definition withVectors (api : nat -> option (list Q)) (i : nat)
    (l : list chunk) : list embeddedChunk :=
  List.map (fun kc => {| base := snd kc; embedding := api (fst kc) |})
           (List.combine (List.seq i (List.length l)) l).

(** The [for] loop of [generateEmbeddings] from index [i] on.  [api k] is
    the vector the provider returns for the chunk at position [k], or
    [None] when that call fails; [acc] is [chunksWithEmbeddings] and
    [pauses] counts the one-second delays.  [fuel] bounds the turns. *)
Fixpoint batchLoop (api : nat -> option (list Q)) (fuel : nat) (i : nat)
    (chunks : list chunk) (acc : list embeddedChunk) (pauses : nat)
  : list embeddedChunk * nat :=
  match fuel with
  | O => (acc, pauses)
  | S fuel' =>
      if (i <? List.length chunks)%nat then
        let batch := List.firstn 10 (List.skipn i chunks) in
        let embeddings :=
          List.map (fun kc => {| base := snd kc; embedding := api (fst kc) |})
                   (List.combine (List.seq i (List.length batch)) batch) in
        batchLoop api fuel' (i + 10) chunks (acc ++ embeddings)
                  (if (i + 10 <? List.length chunks)%nat then S pauses
                   else pauses)
      else (acc, pauses)
  end.

(** [generateEmbeddings(chunks)]; a turn is made for every tenth index
    below the length, so [length chunks] turns are enough. *)
Definition generateEmbeddings (api : nat -> option (list Q))
    (chunks : list chunk) : list embeddedChunk * nat :=
  batchLoop api (List.length chunks) 0 chunks [] 0.

End Embeddings.

(** ** Property names that are not entries of [RATE_LIMITS] *)

Module ObjectMembers.

(** The names an object literal inherits from [Object.prototype]: for
    these, [RATE_LIMITS[userType]?.[action]] is a function or an object
    and not [undefined], though the table has no such entry. *)
Definition inheritedNames : list string :=
  ["constructor"; "__defineGetter__"; "__defineSetter__"; "hasOwnProperty";
   "__lookupGetter__"; "__lookupSetter__"; "isPrototypeOf";
   "propertyIsEnumerable"; "toString"; "valueOf"; "__proto__";
   "toLocaleString"]%string.

Definition inherited (name : string) : bool :=
  List.existsb (String.eqb name) inheritedNames.

End ObjectMembers.

(** ** src/services/lockService.js: the sweep and the release of all locks *)

Module LockSweep.
Import LockService.

(** [cleanupExpiredLocks()] at time [now]:
    [.delete().lt('expires_at', now)]. *)
Definition cleanupExpiredLocks (now : Z) (t : list lockRow) : list lockRow :=
  List.filter (fun r => negb (expires_at r <? now)) t.

(** The resource of a video in [processVideo]. *)
Definition videoResource (videoId : string) : string :=
  ("video-" ++ videoId)%string.

End LockSweep.

(** ** src/services/videoProcessor.js: [storeTranscript] and [processVideo] *)

Module Pipeline.
Import JS VideoProcessor.

(** What the storage answers to [storeTranscript]: the error of the first
    upload if there is one (with its message, if it has one), and whether
    creating the bucket and the second upload fail. *)
Record storageAnswers := {
  uploadError : option (option string);
  createBucketFails : bool;
  retryFails : bool
}.

Definition transcriptPath (videoId : string) : string :=
  (videoId ++ "/transcript.txt")%string.

(** [`${m}`] for a message that may be undefined *)
Definition showMessage (m : option string) : string :=
  match m with
  | Some s => s
  | None => "undefined"%string
  end.

(** [storeTranscript(videoId, transcript)]: the blobs of the container
    afterwards, and the path returned or the message of the error thrown. *)
Definition storeTranscript (answers : storageAnswers)
    (storage : gmap string jsstring) (videoId : string)
    (transcript : list segment) : gmap string jsstring * (string + string) :=
  let content := transcriptContent transcript in
  let path := transcriptPath videoId in
  match uploadError answers with
  | None => (<[path := content]> storage, inl path)
  | Some m =>
      let failed := inr ("Failed to store transcript: " ++ showMessage m)%string in
      if match m with
         | Some s => ChannelProcessor.includes s "Bucket not found"
         | None => false
         end
      then
        if createBucketFails answers then (storage, failed)
        else if retryFails answers then (storage, failed)
        else (<[path := content]> storage, inl path)
      else (storage, failed)
  end.

(** The updates of the video's row [processVideo] sends. *)
Inductive videoUpdate :=
| MarkProcessed (youtube_id : string) (transcript_storage_path : string)
| MarkFailed (youtube_id : string) (processing_error : option string).

(** The lock table, the lock service of this process, the two tables of
    [storeChunks], the blob container and the updates sent so far. *)
Record world := {
  lockTable : list LockService.lockRow;
  lockInstance : LockService.instance;
  db : store;
  storage : gmap string jsstring;
  updates : list videoUpdate
}.

(** Everything outside the process that one run of [processVideo] meets. *)
Record environment := {
  samples : list (Z * string);
  lockStoreFails : bool;
  provider : nat -> Transcript.attempt;
  answers : storageAnswers;
  api : nat -> option (list Q);
  insertError : option string;
  releaseFails : bool
}.

(** The body of the [try]: the store and the blobs afterwards, and the path
    on success or the message of the error thrown. *)
Definition tryBody (env : environment) (videoId : string) (w : world)
  : store * gmap string jsstring * (string + option string) :=
  match Transcript.downloadTranscript (provider env) with
  | inl e => (db w, storage w, inr (Transcript.message e))
  | inr [] => (db w, storage w, inr (Some "No transcript available"%string))
  | inr transcript =>
      match storeTranscript (answers env) (storage w) videoId transcript with
      | (storage1, inr m) => (db w, storage1, inr (Some m))
      | (storage1, inl path) =>
          let chunks := createChunks transcript in
          let chunksWithEmbeddings :=
            fst (Embeddings.generateEmbeddings (api env) chunks) in
          match storeChunks (insertError env) (db w) videoId
                            chunksWithEmbeddings path with
          | (db1, Some m) => (db1, storage1, inr (Some m))
          | (db1, None) => (db1, storage1, inl path)
          end
      end
  end.

(** [processVideo(videoId)] *)
Definition processVideo (env : environment) (videoId : string) (w : world)
  : bool * world :=
  let resource := LockSweep.videoResource videoId in
  match LockService.acquire (samples env) (lockStoreFails env) resource 600
          (lockInstance w) (lockTable w) with
  | (inst1, table1, None) =>
      (false, {| lockTable := table1; lockInstance := inst1; db := db w;
                 storage := storage w; updates := updates w |})
  | (inst1, table1, Some _) =>
      let '(db1, storage1, result) := tryBody env videoId w in
      let '(inst2, table2, _) :=
        LockService.release (releaseFails env) resource inst1 table1 in
      match result with
      | inl path =>
          (true, {| lockTable := table2; lockInstance := inst2; db := db1;
                    storage := storage1;
                    updates := updates w ++ [MarkProcessed videoId path] |})
      | inr m =>
          (false, {| lockTable := table2; lockInstance := inst2; db := db1;
                     storage := storage1;
                     updates := updates w ++ [MarkFailed videoId m] |})
      end
  end.

End Pipeline.

(** ** src/services/ragService.js: [searchChannelChunks] *)

Module ChannelSearch.
Import JS RagService.

(** The [Map] [videoChunks]: the chunks of each video, the videos in the
    order in which their first chunk came. *)
Definition groups := list (string * list enhancedChunk).

(** [if (!videoChunks.has(k)) videoChunks.set(k, []);
     videoChunks.get(k).push(e)] *)
Fixpoint push (m : groups) (k : string) (e : enhancedChunk) : groups :=
  match m with
  | [] => [(k, [e])]
  | (k', l) :: m' =>
      if String.eqb k' k then (k', l ++ [e]) :: m' else (k', l) :: push m' k e
  end.

(** The [forEach] over the rows the procedure returned. *)
Definition grouped (keywords : list jsstring) (chunks : list chunkRow)
  : groups :=
  List.fold_left (fun m c => push m (video_id c) (enhance keywords c)) chunks [].

(** [Math.ceil(limit / Math.min(videoChunks.size, 3))] for a map that is
    not empty; with an empty map the loop that uses it has no turn. *)
Definition maxChunksPerVideo (limit size : nat) : nat :=
  let d := Nat.min size 3 in ((limit + d - 1) / d)%nat.

(** [searchChannelChunks] from the answer [chunks] of
    [search_channel_chunks] to the selection handed to
    [retrieveChunkTexts]. *)
Definition searchChannelChunks (chunks : list chunkRow)
    (keywords : list jsstring) (limit : nat) : list enhancedChunk :=
  let videoChunks := grouped keywords chunks in
  let maxChunks := maxChunksPerVideo limit (List.length videoChunks) in
  let finalChunks :=
    List.flat_map
      (fun kv => List.firstn maxChunks (Score.sortDesc score (snd kv)))
      videoChunks in
  List.firstn limit (Score.sortDesc score finalChunks).

(** The results that belong to the video [v]. *)
Definition ofVideo (v : string) (l : list enhancedChunk) : list enhancedChunk :=
  List.filter (fun e => String.eqb (video_id (chunk e)) v) l.

End ChannelSearch.

(** ** src/services/ragService.js: [retrieveChunkTexts] and what the
       searches return *)

Module Retrieval.
Import JS.

Section Texts.
Context {C : Type}.

(** The properties [retrieveChunkTexts] reads of a chunk. *)
Variable storage_path : C -> option string.
Variable start_time end_time : C -> Z.

(** What the download of a blob and [JSON.parse] of its text give: the
    array of segments, or [None] when the download fails, the text is not
    JSON or the value is not such an array; the chunks of that path are
    skipped then. *)
Variable download : string -> option (list VideoProcessor.segment).

(** The [Map] [chunksByPath]: paths in the order of their first chunk. *)
Definition paths := list (string * list C).

Fixpoint push (m : paths) (k : string) (c : C) : paths :=
  match m with
  | [] => [(k, [c])]
  | (k', l) :: m' =>
      if String.eqb k' k then (k', l ++ [c]) :: m' else (k', l) :: push m' k c
  end.

(** The first [forEach]: a chunk whose [storage_path] is undefined, null
    or empty is left out. *)
Definition addChunk (m : paths) (c : C) : paths :=
  match storage_path c with
  | Some p => if String.eqb p "" then m else push m p c
  | None => m
  end.

Definition chunksByPath (chunks : list C) : paths :=
  List.fold_left addChunk chunks [].

(** [parts.join(' ')] *)
Fixpoint joinSpace (parts : list jsstring) : jsstring :=
  match parts with
  | [] => []
  | [p] => p
  | p :: rest => p ++ [32%N] ++ joinSpace rest
  end.

(** [chunk.full_text] *)
Definition fullText (transcript : list VideoProcessor.segment) (c : C)
  : jsstring :=
  joinSpace
    (List.map VideoProcessor.seg_text
       (List.filter
          (fun seg => (start_time c <=? VideoProcessor.seg_start seg)
                      && (VideoProcessor.seg_end seg <=? end_time c))
          transcript)).

(** [retrieveChunkTexts(chunks)]: the chunks returned, each with its
    [full_text]. *)
Definition retrieveChunkTexts (chunks : list C) : list (C * jsstring) :=
  List.flat_map
    (fun kv => match download (fst kv) with
               | Some transcript =>
                   List.map (fun c => (c, fullText transcript c)) (snd kv)
               | None => []
               end)
    (chunksByPath chunks).

End Texts.

(** The rows the two procedures answer have the columns of their
    [RETURNS TABLE]; [storage_path] is not among them, so the property is
    undefined on every result of the two searches. *)
Definition answeredPath (c : RagService.enhancedChunk) : option string := None.

(** [searchVideoChunks(videoId, query, limit)], the value returned.
    [embedded] tells whether [getEmbedding] returned a vector and
    [answered] whether the procedure answered without an error;
    [hasPreview] tells of a row whether its [text_preview] is not null
    (reading it on a null preview throws, which happens as soon as there is
    a keyword to look for); each of these failures ends in [return []].
    [start_time] and [end_time] are the columns of that name. *)
Definition searchVideoChunks (embedded answered : bool)
    (hasPreview : RagService.chunkRow -> bool)
    (start_time end_time : RagService.enhancedChunk -> Z)
    (download : string -> option (list VideoProcessor.segment))
    (table : list RagService.chunkRow) (video : option string)
    (keywords : list jsstring) (limit : nat)
  : list (RagService.enhancedChunk * jsstring) :=
  if negb embedded then []
  else
    match video with
    | None => []
    | Some video_id =>
        if negb answered then []
        else
          let chunks :=
            RagService.search_transcript_chunks table video_id (7 # 10) limit in
          if negb (List.forallb hasPreview chunks)
             && (0 <? Z.of_nat (List.length keywords))
          then []
          else
            retrieveChunkTexts answeredPath start_time end_time download
              (RagService.searchVideoChunks table (Some video_id) keywords limit)
    end.

(** [searchChannelChunks(channelId, query, limit)], the value returned,
    with [chunks] the answer of [search_channel_chunks]. *)
Definition searchChannelChunks (embedded answered : bool)
    (hasPreview : RagService.chunkRow -> bool)
    (start_time end_time : RagService.enhancedChunk -> Z)
    (download : string -> option (list VideoProcessor.segment))
    (chunks : list RagService.chunkRow)
    (keywords : list jsstring) (limit : nat)
  : list (RagService.enhancedChunk * jsstring) :=
  if negb embedded then []
  else if negb answered then []
  else if negb (List.forallb hasPreview chunks)
          && (0 <? Z.of_nat (List.length keywords))
  then []
  else
    retrieveChunkTexts answeredPath start_time end_time download
      (ChannelSearch.searchChannelChunks chunks keywords limit).

End Retrieval.

(** ** src/utils/helpers.js *)

Module Helpers.
Import JS.

Section ChunkArray.
Context {A : Type}.

(** The [for] loop of [chunkArray] from index [i] on, for a [size] that is
    a whole number and not negative; [fuel] bounds the turns, and [None]
    says that they were not enough. *)
Fixpoint chunkLoop (fuel : nat) (array : list A) (size i : nat)
    (chunks : list (list A)) : option (list (list A)) :=
  match fuel with
  | O => None
  | S fuel' =>
      if (i <? List.length array)%nat then
        chunkLoop fuel' array size (i + size)
                  (chunks ++ [List.firstn size (List.skipn i array)])
      else Some chunks
  end.

(** [chunkArray(array, size)] *)
Definition chunkArray (fuel : nat) (array : list A) (size : nat)
  : option (list (list A)) :=
  chunkLoop fuel array size 0 [].

End ChunkArray.

(** [text.substring(0, e)]: an end below [0] counts as [0], one beyond the
    length as the length. *)
Definition substring0 (text : jsstring) (e : Z) : jsstring :=
  List.firstn (Z.to_nat e) text.

(** [truncateText(text, maxLength)] *)
Definition truncateText (text : jsstring) (maxLength : Z) : jsstring :=
  if JS.length text <=? maxLength then text
  else substring0 text (maxLength - 3) ++ of_string "...".

(** What one call of the wrapped function does. *)
Inductive attempt (R E : Type) :=
| Returned (r : R)
| Thrown (e : E).
Arguments Returned {R E}.
Arguments Thrown {R E}.

Record retried (R E : Type) := {
  outcome : option (attempt R E);
  calls : nat;
  waits : list Z
}.
Arguments outcome {R E}.
Arguments calls {R E}.
Arguments waits {R E}.

(** [error.status === 429 || error.message?.includes('rate limit')] *)
Definition retryable (e : Transcript.jsError) : bool :=
  match Transcript.status e with
  | Some s => (s =? 429) || Transcript.messageIncludes e "rate limit"
  | None => Transcript.messageIncludes e "rate limit"
  end.

Section Retry.
Context {R : Type}.

(** The [for] loop of [retryWithBackoff] from index [i] on, with [left]
    turns to come; [fn k] is what the call number [k] does.  The outcome
    [None] is [throw lastError] with nothing caught so far (it throws
    [undefined]). *)
Fixpoint retryLoop (fn : nat -> attempt R Transcript.jsError)
    (initialDelay : Z) (left i : nat) (lastError : option Transcript.jsError)
    (waited : list Z) : retried R Transcript.jsError :=
  match left with
  | O => {| outcome := option_map Thrown lastError; calls := i;
            waits := waited |}
  | S left' =>
      match fn i with
      | Returned r =>
          {| outcome := Some (Returned r); calls := S i; waits := waited |}
      | Thrown e =>
          if retryable e
          then retryLoop fn initialDelay left' (S i) (Some e)
                         (waited ++ [initialDelay * 2 ^ Z.of_nat i])
          else {| outcome := Some (Thrown e); calls := S i; waits := waited |}
      end
  end.

(** The function [retryWithBackoff(fn, maxRetries, initialDelay)] returns,
    called once. *)
Definition retryWithBackoff (fn : nat -> attempt R Transcript.jsError)
    (maxRetries : nat) (initialDelay : Z) : retried R Transcript.jsError :=
  retryLoop fn initialDelay maxRetries 0 None [].

End Retry.

(** The pauses after the calls [0], ..., [n - 1]. *)
Definition backoff (initialDelay : Z) (n : nat) : list Z :=
  List.map (fun k => initialDelay * 2 ^ Z.of_nat k) (List.seq 0 n).

End Helpers.

(** ** src/services/ragService.js: [formatContext] *)

Module Context.
Import JS.

(** [formatTime(seconds)] of the search service. *)
Definition formatTime (seconds : Z) : jsstring :=
  let hours := seconds / 3600 in
  let minutes := Z.rem seconds 3600 / 60 in
  let secs := Z.rem seconds 60 in
  if 0 <? hours
  then numberToString hours ++ [58%N] ++ padStart0 2 (numberToString minutes)
       ++ [58%N] ++ padStart0 2 (numberToString secs)
  else numberToString minutes ++ [58%N] ++ padStart0 2 (numberToString secs).

(** A search result as [formatContext] reads it. *)
Record resultChunk := {
  video_id : string;
  video_title : option string;
  start_time : Z;
  end_time : Z;
  full_text : option jsstring;
  text_preview : jsstring
}.

Record addedChunk := {
  videoId : string;
  videoTitle : option string;
  startTime : Z;
  endTime : Z;
  text : jsstring
}.

(** [chunk.full_text || chunk.text_preview] *)
Definition chunkText (c : resultChunk) : jsstring :=
  match full_text c with
  | Some (x :: t) => x :: t
  | _ => text_preview c
  end.

(** The template
    [`[${formatTime(start)} - ${formatTime(end)}] ${chunkText}\n\n`]. *)
Definition formattedChunk (c : resultChunk) : jsstring :=
  [91%N] ++ formatTime (start_time c) ++ of_string " - "
  ++ formatTime (end_time c) ++ [93%N; 32%N] ++ chunkText c ++ [10%N; 10%N].

Definition added (c : resultChunk) : addedChunk :=
  {| videoId := video_id c; videoTitle := video_title c;
     startTime := start_time c; endTime := end_time c; text := chunkText c |}.

(** The [for ... of] loop with its [break]. *)
Fixpoint fill (maxLength : Z) (chunks : list resultChunk) (context : jsstring)
    (addedChunks : list addedChunk) : jsstring * list addedChunk :=
  match chunks with
  | [] => (context, addedChunks)
  | c :: rest =>
      if JS.length context + JS.length (formattedChunk c) <=? maxLength
      then fill maxLength rest (context ++ formattedChunk c)
                (addedChunks ++ [added c])
      else (context, addedChunks)
  end.

(** What [formatContext] returns: the empty string for no chunks, an
    object otherwise. *)
Inductive formatted :=
| EmptyText
| WithChunks (context : jsstring) (chunks : list addedChunk).

Definition formatContext (chunks : list resultChunk) (maxLength : Z)
  : formatted :=
  match chunks with
  | [] => EmptyText
  | _ => let '(context, addedChunks) := fill maxLength chunks [] [] in
         WithChunks context addedChunks
  end.

End Context.

(** ** src/services/chatService.js: time stamps *)

Module ChatTime.
Import JS.

(** [formatTime(seconds)] of the chat service. *)
Definition formatTime (seconds : Z) : jsstring :=
  let hours := seconds / 3600 in
  let minutes := Z.rem seconds 3600 / 60 in
  let secs := Z.rem seconds 60 in
  if 0 <? hours
  then numberToString hours ++ [58%N] ++ padStart0 2 (numberToString minutes)
       ++ [58%N] ++ padStart0 2 (numberToString secs)
  else numberToString minutes ++ [58%N] ++ padStart0 2 (numberToString secs).

(** [timestamp.split(':')]; [cur] is the piece being read, reversed. *)
Fixpoint splitColon_go (s cur : jsstring) : list jsstring :=
  match s with
  | [] => [List.rev cur]
  | c :: rest =>
      if (c =? 58)%N then List.rev cur :: splitColon_go rest []
      else splitColon_go rest (c :: cur)
  end.

Definition splitColon (s : jsstring) : list jsstring := splitColon_go s [].

Definition digitValue (c : N) : option Z :=
  if in_range 48 57 c then Some (Z.of_N c - 48) else None.

(** The digits at the start of [s] read in base ten, after the value
    [acc]; [seen] tells whether a digit was read.  [None] is [NaN]. *)
Fixpoint readDigits (s : jsstring) (acc : Z) (seen : bool) : option Z :=
  match s with
  | c :: rest =>
      match digitValue c with
      | Some d => readDigits rest (10 * acc + d) true
      | None => if seen then Some acc else None
      end
  | [] => if seen then Some acc else None
  end.

(** [parseInt(p, 10)]: white space, a sign, digits; what follows the
    digits is ignored. *)
Definition parseInt10 (p : jsstring) : option Z :=
  match trimStart p with
  | c :: rest =>
      if (c =? 45)%N then option_map Z.opp (readDigits rest 0 false)
      else if (c =? 43)%N then readDigits rest 0 false
      else readDigits (c :: rest) 0 false
  | [] => None
  end.

(** What [parseTimestamp] returns: [null], [NaN] or a number. *)
Inductive parsed :=
| Null
| NaN
| Seconds (n : Z).

Definition parseTimestamp (timestamp : jsstring) : parsed :=
  match List.map parseInt10 (splitColon timestamp) with
  | [a; b] =>
      match a, b with
      | Some x, Some y => Seconds (x * 60 + y)
      | _, _ => NaN
      end
  | [a; b; c] =>
      match a, b, c with
      | Some x, Some y, Some z => Seconds (x * 3600 + y * 60 + z)
      | _, _, _ => NaN
      end
  | _ => Null
  end.

(** The characters of a decimal numeral. *)
Definition isDigit (c : N) : bool := in_range 48 57 c.

End ChatTime.

(** ** services/queueService.js: [enqueueChannel] *)

Module QueueService.

(** A row of [channel_queue]. *)
Record queueItem := {
  id : string;
  channel_id : string;
  requested_by : string;
  status : string;
  priority : string;
  created_at : Z
}.

(** The table [channel_queue] and the keys of the rows of [channels]. *)
Record world := {
  channel_queue : list queueItem;
  channels : list string
}.

(** [.eq('channel_id', channelId).in('status', ['pending', 'processing'])] *)
Definition isActive (channelId : string) (q : queueItem) : bool :=
  String.eqb (channel_id q) channelId
  && (String.eqb (status q) "pending" || String.eqb (status q) "processing").

(** [.single()]: the row when exactly one matches. *)
Definition single {A : Type} (l : list A) : option A :=
  match l with
  | [x] => Some x
  | _ => None
  end.

(** What [enqueueChannel] returns or throws. *)
Inductive result :=
| AlreadyQueued (existing : queueItem)
| Queued (queueItem : queueItem)
| Threw (message : option string).

(** [enqueueChannel(channelId, userId, priority)] at time [now]; [newId]
    is the key the store gives the new row, [insertError] the message of
    the error of the insert, if the store reports one. *)
Definition enqueueChannel (newId : string) (insertError : option (option string))
    (now : Z) (channelId userId priority : string) (w : world)
  : world * result :=
  match single (List.filter (isActive channelId) (channel_queue w)) with
  | Some existing => (w, AlreadyQueued existing)
  | None =>
      match single (List.filter (String.eqb channelId) (channels w)) with
      | None => (w, Threw (Some "Channel not found"%string))
      | Some _ =>
          match insertError with
          | Some message => (w, Threw message)
          | None =>
              let queueItem :=
                {| id := newId; channel_id := channelId;
                   requested_by := userId; status := "pending";
                   priority := priority; created_at := now |} in
              ({| channel_queue := channel_queue w ++ [queueItem];
                  channels := channels w |},
               Queued queueItem)
          end
      end
  end.

End QueueService.

(** ** Runs of [processVideo] used as examples *)

Module PipelineExamples.
Import Pipeline.

(** Every outside party answers: the provider returns the two segments of
    [Examples.rawTranscript], the upload and the insert succeed, every
    chunk gets a vector. *)
Definition quietRun : environment :=
  {| samples := [(1000, "0.25"%string)];
     lockStoreFails := false;
     provider := fun _ => Transcript.Returned (Some Examples.rawTranscript);
     answers := {| uploadError := None; createBucketFails := false;
                   retryFails := false |};
     api := fun _ => Some [1 # 2];
     insertError := None;
     releaseFails := false |}.

(** The provider has no captions for the video. *)
Definition noCaptionsRun : environment :=
  {| samples := [(1000, "0.25"%string)];
     lockStoreFails := false;
     provider := fun _ =>
       Transcript.Thrown (Transcript.newError "Could not get transcript for abc123");
     answers := {| uploadError := None; createBucketFails := false;
                   retryFails := false |};
     api := fun _ => Some [1 # 2];
     insertError := None;
     releaseFails := false |}.

(** The video [abc123] is listed, one chunk row of an earlier run is
    stored, nobody holds a lock. *)
Definition idle : world :=
  {| lockTable := []; lockInstance := LockService.empty;
     db := Examples.storeBefore; storage := ∅; updates := [] |}.

(** Another process holds the lock of the video [X] until 601000. *)
Definition busy : world :=
  {| lockTable := Examples.tableA; lockInstance := LockService.empty;
     db := Examples.storeBefore; storage := ∅; updates := [] |}.

End PipelineExamples.

(* ===================================================================== *)
(** * Part II: properties                                                 *)
(* ===================================================================== *)

(** ** Authentication and the rate limiter *)

Section RateLimiting.
Import Auth RateLimit.

(** [C3] A request whose [X-API-KEY] header equals the configured secret
    passes [authMiddleware] with [req.user.isApiKey = true], and
    [rateLimitMiddleware(action)] then calls [next] at once: the cache, the
    table and the list of requests sent to the store are unchanged, no
    header is set and nothing is sent, so the request is neither answered
    with 429 nor counted, for any action and any time. *)
Theorem api_key_requests_skip_rate_limit :
  forall (BACKEND_API_KEY : option string) (req : request)
         (action : string) (now : Z) (w : world),
    headers req !! "x-api-key"%string = BACKEND_API_KEY ->
    let '(req', e) := authMiddleware BACKEND_API_KEY req in
    e = justNext
    /\ (exists u, req_user req' = Some u /\ isApiKey u = true)
    /\ rateLimitMiddleware action now req' w = (w, justNext).
Proof.
  intros key req action now w Hkey.
  unfold authMiddleware.
  rewrite bool_decide_eq_true_2 by exact Hkey.
  split; [reflexivity|].
  split; [eexists; split; reflexivity|].
  reflexivity.
Qed.

Lemma api_key_requests_skip_rate_limit_witness :
  let '(req', e) := authMiddleware (Some "secret"%string) Examples.keyedRequest in
  e = justNext
  /\ (exists u, req_user req' = Some u /\ isApiKey u = true)
  /\ rateLimitMiddleware "chat" 1000 req' Examples.emptyWorld
     = (Examples.emptyWorld, justNext).
Proof.
  apply (api_key_requests_skip_rate_limit (Some "secret"%string)
           Examples.keyedRequest "chat" 1000 Examples.emptyWorld).
  vm_compute. reflexivity.
Defined.

(** [C6] Six chat calls in a row by a signed-in caller of the [user] class,
    starting from an empty table: the first five pass, the sixth is answered
    with 429 and the body [{error, message, limit, window, resetAt}], and its
    header [X-RateLimit-Remaining] is the text [unlimited], not [0]
    ([result.remaining || 'unlimited'] with [remaining = 0]). *)
Theorem sixth_chat_call_remaining_header :
  let effects := snd (Examples.chatCalls 6 1000000000 Examples.emptyWorld) in
  List.map calledNext effects = [true; true; true; true; true; false]
  /\ exists e,
       List.nth_error effects 5 = Some e
       /\ sent e = Some (429, RateLimitBody "Rate limit exceeded"
                    "Too many chat requests. Please try again later."
                    (Some 5) (Some "day"%string) (Some 1000005000))
       /\ List.In ("X-RateLimit-Remaining"%string, HStr "unlimited") (setHeaders e)
       /\ ~ List.In ("X-RateLimit-Remaining"%string, HNum 0) (setHeaders e).
Proof.
  vm_compute. split; [reflexivity|].
  eexists. split; [reflexivity|].
  split; [reflexivity|].
  split.
  - right; left; reflexivity.
  - intros [H|[H|[H|[]]]]; discriminate H.
Qed.

(** Every denial carries that header: [allowed] is [remaining > 0], so a
    result that is not allowed has [remaining = 0]. *)
Lemma checkWindowLimit_denied :
  forall identifier action window limit now w,
    let r := snd (checkWindowLimit identifier action window limit now w) in
    allowed r = false -> remaining r = Num 0.
Proof.
  intros identifier action window lim now w. unfold checkWindowLimit.
  destruct (match cacheGet (cache w) (getCacheKey identifier action window) with
            | Some cached => if now <? expires cached then Some cached else None
            | None => None end) as [cached|].
  - simpl. intros H. apply Z.ltb_ge in H. f_equal. lia.
  - destruct (storeFails w); simpl; [discriminate|].
    intros H. apply Z.ltb_ge in H. f_equal. lia.
Qed.

Lemma mostRestrictiveOf_denied :
  forall prev current : limitResult,
    (allowed prev = false -> remaining prev = Num 0) ->
    (allowed current = false -> remaining current = Num 0) ->
    allowed (mostRestrictiveOf prev current) = false ->
    remaining (mostRestrictiveOf prev current) = Num 0.
Proof.
  intros prev current Hp Hc. unfold mostRestrictiveOf.
  destruct (allowed current) eqn:Ec; simpl; [|intros _; apply Hc; reflexivity].
  destruct (allowed prev) eqn:Ep; simpl; [|intros _; apply Hp; reflexivity].
  destruct (remainingLt (remaining current) (remaining prev)); congruence.
Qed.

Lemma checkLimit_denied :
  forall identifier action userType now w,
    let r := snd (checkLimit identifier action userType now w) in
    allowed r = false -> remaining r = Num 0.
Proof.
  intros identifier action userType now w. unfold checkLimit.
  destruct (RATE_LIMITS userType action) as [[h d]|]; [|simpl; discriminate].
  cbn [hourly daily].
  destruct h as [h|].
  - pose proof (checkWindowLimit_denied identifier action "hour" h now w) as H1.
    destruct (checkWindowLimit identifier action "hour" h now w) as [w1 r1].
    destruct d as [d|].
    + pose proof (checkWindowLimit_denied identifier action "day" d now w1) as H2.
      destruct (checkWindowLimit identifier action "day" d now w1) as [w2 r2].
      simpl in *. apply mostRestrictiveOf_denied; [|exact H2].
      apply mostRestrictiveOf_denied; [discriminate|exact H1].
    + simpl in *. apply mostRestrictiveOf_denied; [discriminate|exact H1].
  - destruct d as [d|].
    + pose proof (checkWindowLimit_denied identifier action "day" d now w) as H2.
      destruct (checkWindowLimit identifier action "day" d now w) as [w2 r2].
      simpl in *. apply mostRestrictiveOf_denied; [discriminate|exact H2].
    + simpl. discriminate.
Qed.

(** Whatever the caller, the action and the table: a request that is
    answered (429) carries [X-RateLimit-Remaining: unlimited]. *)
Lemma denied_requests_carry_unlimited :
  forall (action : string) (now : Z) (req : request) (w : world),
    let e := snd (rateLimitMiddleware action now req w) in
    sent e <> None ->
    List.In ("X-RateLimit-Remaining"%string, HStr "unlimited") (setHeaders e).
Proof.
  intros action now req w. unfold rateLimitMiddleware.
  destruct (match req_user req with Some u => isApiKey u | None => false end);
    [simpl; congruence|].
  destruct (match req_user req with
            | Some u => (("user:" ++ Auth.id u)%string,
                         if premium u then "premium"%string else "user"%string)
            | None => (("ip:" ++ getClientIp req)%string, "anonymous"%string)
            end) as [identifier userType].
  pose proof (checkLimit_denied identifier action userType now w) as Hd.
  destruct (checkLimit identifier action userType now w) as [w1 result].
  simpl in Hd. destruct (allowed result) eqn:Ea; simpl; [congruence|].
  intros _. rewrite (Hd eq_refl). simpl. right. left. reflexivity.
Qed.

End RateLimiting.

(** ** Channel statistics *)

Section ChannelStatistics.
Import ChannelProcessor ChannelCounts.

Lemma countIf_cons :
  forall p o l, countIf p (o :: l) = (if p o then 1 else 0) + countIf p l.
Proof.
  intros p o l. unfold countIf. simpl. destruct (p o); simpl; lia.
Qed.

Lemma fold_countVideo :
  forall l c,
    let c' := List.fold_left countVideo l c in
    processedCount c' = processedCount c + countIf isProcessedOutcome l
    /\ failedCount c' = failedCount c + countIf isFailedOutcome l
    /\ existingCount c' = existingCount c + countIf isExistingOutcome l
    /\ noTranscriptCount c' = noTranscriptCount c + countIf isNoTranscriptOutcome l.
Proof.
  induction l as [|o l IH]; intros c; simpl.
  - unfold countIf; simpl. repeat split; lia.
  - destruct (IH (countVideo c o)) as (Hp & Hf & He & Hn).
    rewrite !countIf_cons. rewrite Hp, Hf, He, Hn.
    destruct o as [| | |e|]; simpl; try (repeat split; lia).
    destruct (isNoTranscript e); simpl; repeat split; lia.
Qed.

(** [C5, as the code has it] Each counter of the completion payload is a
    count over the (at most twenty) videos of the run: [processed] counts the
    cached and the newly processed ones, [existing] the cached ones, [failed]
    every video that was not processed, and [no_transcript] those of the
    failed ones whose [processing_error] mentions [transcript] or [captions].
    So a video without a transcript is counted under [failed] and under
    [no_transcript], [processed + failed = total], and for two new, two
    cached and one caption-less video the payload is [processed=4],
    [existing=2], [no_transcript=1], [failed=1], [total=5]. *)
Theorem channel_payload_counts :
  (forall videos : list videoOutcome,
     let run := List.firstn 20 videos in
     let p := processChannel_payload videos in
     videosProcessed p = countIf isProcessedOutcome run
     /\ existingVideos p = countIf isExistingOutcome run
     /\ failedVideos p = countIf isFailedOutcome run
     /\ noTranscriptVideos p = countIf isNoTranscriptOutcome run
     /\ noTranscriptVideos p <= failedVideos p
     /\ videosProcessed p + failedVideos p = totalVideos p)
  /\ processChannel_payload Examples.fiveVideos
     = {| videosProcessed := 4; totalVideos := 5; existingVideos := 2;
          noTranscriptVideos := 1; failedVideos := 1 |}.
Proof.
  split; [|vm_compute; reflexivity].
  intros videos run p.
  destruct (fold_countVideo run zero) as (Hp & Hf & He & Hn).
  unfold p, processChannel_payload; simpl. fold run.
  rewrite Hp, Hf, He, Hn; simpl.
  repeat split; try reflexivity.
  - clear. induction run as [|o l IH]; [unfold countIf; simpl; lia|].
    rewrite !countIf_cons.
    destruct o as [| | |e|]; simpl; try lia. destruct (isNoTranscript e); lia.
  - clear. induction run as [|o l IH]; [unfold countIf; simpl; lia|].
    rewrite !countIf_cons. simpl List.length.
    destruct o; simpl; lia.
Qed.

(** [C5, as stated] In the run of the scenario the video without captions is
    counted under [failed]: the payload is not the stated one. *)
Lemma channel_payload_failed_not_zero :
  failedVideos (processChannel_payload Examples.fiveVideos) <> 0
  /\ processChannel_payload Examples.fiveVideos
     <> {| videosProcessed := 4; totalVideos := 5; existingVideos := 2;
           noTranscriptVideos := 1; failedVideos := 0 |}.
Proof.
  vm_compute. split; intros H; discriminate H.
Qed.

End ChannelStatistics.

(** ** The chunk store *)

Section ChunkStore.
Import VideoProcessor.

Lemma filter_all_true :
  forall (A : Type) (p : A -> bool) (l : list A),
    (forall x, List.In x l -> p x = true) -> List.filter p l = l.
Proof.
  intros A p l. induction l as [|x l IH]; intros H; simpl; [reflexivity|].
  rewrite (H x (or_introl eq_refl)). f_equal. apply IH.
  intros y Hy. apply H. right. exact Hy.
Qed.

(** [C1, on the code] [storeChunks] deletes the rows whose [video_id] equals
    the provider's id it was called with, while the rows of the table carry
    the key of the [videos] row.  When the table holds no row under the
    provider's id, nothing is deleted: the new batch is appended to the rows
    of the earlier runs, and a reader of the video's chunks gets the old rows
    followed by the new ones. *)
Theorem storeChunks_keeps_earlier_rows :
  forall (db : store) (videoId : string) (chunks : list embeddedChunk)
         (transcriptPath : string) (video : videoRow),
    selectVideo db videoId = Some video ->
    (forall r, List.In r (transcript_chunks db) -> video_id r <> videoId) ->
    let fresh := List.map (toRecord video transcriptPath) chunks in
    let result := storeChunks None db videoId chunks transcriptPath in
    result = ({| videos := videos db;
                 transcript_chunks := transcript_chunks db ++ fresh |}, None)
    /\ chunksOf (fst result) video = chunksOf db video ++ fresh.
Proof.
  intros db videoId chunks path video Hsel Hkeys fresh result.
  assert (Hdel : deleteChunks db videoId = db).
  { unfold deleteChunks. destruct db as [vs cs]; simpl in *. f_equal.
    apply filter_all_true. intros r Hr.
    apply negb_true_iff. apply String.eqb_neq. apply Hkeys. exact Hr. }
  assert (Hres : result = ({| videos := videos db;
                 transcript_chunks := transcript_chunks db ++ fresh |}, None)).
  { unfold result, storeChunks. rewrite Hdel, Hsel. reflexivity. }
  split; [exact Hres|].
  rewrite Hres. unfold chunksOf; simpl.
  rewrite List.filter_app. f_equal.
  apply filter_all_true. intros r Hr.
  apply List.in_map_iff in Hr. destruct Hr as (c & <- & _).
  simpl. apply String.eqb_refl.
Qed.

Lemma storeChunks_keeps_earlier_rows_witness :
  let fresh := List.map (toRecord Examples.videoAbc "abc123/transcript.txt")
                        Examples.newChunks in
  let result := storeChunks None Examples.storeBefore "abc123"
                  Examples.newChunks "abc123/transcript.txt" in
  result = ({| videos := videos Examples.storeBefore;
               transcript_chunks :=
                 transcript_chunks Examples.storeBefore ++ fresh |}, None)
  /\ chunksOf (fst result) Examples.videoAbc
     = chunksOf Examples.storeBefore Examples.videoAbc ++ fresh.
Proof.
  apply (storeChunks_keeps_earlier_rows Examples.storeBefore "abc123"
           Examples.newChunks "abc123/transcript.txt" Examples.videoAbc).
  - reflexivity.
  - intros r [<-|[]]. vm_compute. discriminate.
Defined.

End ChunkStore.

(** ** The chat stream *)

Section ChatStream.
Import ChatService ChatTrace.

Lemma string_app_assoc :
  forall a b c : string, ((a ++ b) ++ c = a ++ (b ++ c))%string.
Proof.
  induction a as [|x a IH]; intros b c; [reflexivity|].
  change (String x ((a ++ b) ++ c) = String x (a ++ (b ++ c)))%string.
  f_equal. apply IH.
Qed.

Lemma string_app_empty : forall a : string, (a ++ "" = a)%string.
Proof.
  induction a as [|x a IH]; [reflexivity|].
  change (String x (a ++ "") = String x a)%string. f_equal. exact IH.
Qed.

Variable citation : Type.
Variable extractCitations : string -> list citation.

Lemma consume_active :
  forall (before tail : list streamEvent) (full : string)
         (frames : list (frame citation)),
    List.forallb activeDelta before = true ->
    consume citation (before ++ tail) full frames
    = consume citation tail (full ++ joinAll (sentContents before))
        (frames ++ List.map ContentFrame (sentContents before)).
Proof.
  induction before as [|e before IH]; intros tail full frames Hact; simpl.
  - rewrite string_app_empty, List.app_nil_r. reflexivity.
  - simpl in Hact. apply andb_true_iff in Hact. destruct Hact as [He Hact].
    destruct e as [active c|m]; [|discriminate He].
    destruct active; [|discriminate He]. simpl.
    destruct c as [c|]; simpl.
    + destruct (String.eqb c "") eqn:Hc; simpl.
      * apply IH. exact Hact.
      * rewrite IH by exact Hact.
        rewrite string_app_assoc, <- List.app_assoc. reflexivity.
    + apply IH. exact Hact.
Qed.

(** [C2, as the code has it] When the flag is found cleared at some chunk,
    after chunks that were all seen with the flag set, the loop stops there:
    the later chunks are not read, so no content frame follows, and the call
    goes on exactly as if the model had finished at that point.  It writes
    the [done] frame and, when there is a session id and a last message, it
    stores the user message and the assistant message holding the partial
    response.  These two inserts are all it sends: the row of the session
    is not updated. *)
Theorem streamChat_after_disconnect :
  forall (messages : list message) (sessionId : option string)
         (contextCitations : list citation)
         (before : list streamEvent) (c : option string)
         (rest : list streamEvent),
    List.forallb activeDelta before = true ->
    let partial := joinAll (sentContents before) in
    let o := streamChat citation extractCitations messages sessionId
               contextCitations (before ++ Delta false c :: rest) in
    o = streamChat citation extractCitations messages sessionId
          contextCitations before
    /\ written o = List.map ContentFrame (sentContents before)
                   ++ [DoneFrame (contextCitations ++ extractCitations partial)]
    /\ (forall sid m,
          sessionId = Some sid -> sid <> ""%string ->
          lastMessage messages = Some m ->
          requests o =
            [ InsertMessage sid "user" (content m) None;
              InsertMessage sid "assistant" partial
                (match extractCitations partial with
                 | [] => None
                 | _ => Some (extractCitations partial)
                 end) ]).
Proof.
  intros messages sessionId ctx before c rest Hact partial o.
  assert (Hcut : consume citation (before ++ Delta false c :: rest) "" []
                 = (partial, List.map ContentFrame (sentContents before), None)).
  { rewrite consume_active by exact Hact. reflexivity. }
  assert (Hend : consume citation before "" []
                 = (partial, List.map ContentFrame (sentContents before), None)).
  { rewrite <- (List.app_nil_r before) at 1.
    rewrite consume_active by exact Hact. reflexivity. }
  unfold o, streamChat. rewrite Hcut, Hend.
  split; [reflexivity|]. split; [reflexivity|].
  intros sid m -> Hsid Hlast. simpl.
  apply String.eqb_neq in Hsid. rewrite Hsid, Hlast. reflexivity.
Qed.

End ChatStream.

Lemma streamChat_after_disconnect_witness :
  let o := ChatService.streamChat unit Examples.noCitations Examples.chatMessages
             (Some "s1"%string) []
             ([ChatService.Delta true (Some "The host "%string)]
              ++ ChatService.Delta false (Some "waves "%string)
                 :: [ChatService.Delta true (Some "twice."%string)]) in
  ChatService.written o
  = [ChatService.ContentFrame "The host "; ChatService.DoneFrame []].
Proof.
  pose proof (streamChat_after_disconnect unit Examples.noCitations
                Examples.chatMessages (Some "s1"%string) []
                [ChatService.Delta true (Some "The host "%string)]
                (Some "waves "%string)
                [ChatService.Delta true (Some "twice."%string)] eq_refl) as H.
  destruct H as (_ & Hw & _). exact Hw.
Defined.

(** [C2, as stated] The client leaves after the first delta; the turn is
    stored all the same: the user message and the assistant message are
    inserted. *)
Lemma streamChat_disconnect_still_persists :
  ChatService.requests
    (ChatService.streamChat unit Examples.noCitations Examples.chatMessages
       (Some "s1"%string) [] Examples.droppedStream)
  = [ ChatService.InsertMessage "s1" "user" "What is shown?" None;
      ChatService.InsertMessage "s1" "assistant" "The host " None ]
  /\ ChatService.requests
       (ChatService.streamChat unit Examples.noCitations Examples.chatMessages
          (Some "s1"%string) [] Examples.droppedStream) <> [].
Proof.
  vm_compute. split; [reflexivity|]. intros H; discriminate H.
Qed.

(** ** Keyword extraction on the two sides *)

Section Keywords.
Import JS.

Lemma setHas_In :
  forall (set : list jsstring) (w : jsstring),
    setHas set w = true <-> List.In w set.
Proof.
  intros set w. unfold setHas. rewrite List.existsb_exists. split.
  - intros (x & Hx & Heq). unfold jsstring_eqb in Heq.
    apply bool_decide_eq_true_1 in Heq. subst x. exact Hx.
  - intros Hin. exists w. split; [exact Hin|].
    unfold jsstring_eqb. apply bool_decide_eq_true_2. reflexivity.
Qed.

Lemma setHas_app :
  forall (a b : list jsstring) (w : jsstring),
    setHas (a ++ b) w = setHas a w || setHas b w.
Proof.
  intros a b w. unfold setHas. apply List.existsb_app.
Qed.

Lemma In_uniqueFrom :
  forall (ws seen : list jsstring) (w : jsstring),
    List.In w (uniqueFrom seen ws) <-> List.In w ws /\ ~ List.In w seen.
Proof.
  induction ws as [|a ws IH]; intros seen w; simpl.
  - tauto.
  - destruct (setHas seen a) eqn:Hseen.
    + apply setHas_In in Hseen. rewrite IH. split.
      * intros [Hin Hnot]. split; [right; exact Hin|exact Hnot].
      * intros [[->|Hin] Hnot]; [contradiction|]. split; assumption.
    + assert (Hnot_a : ~ List.In a seen).
      { intros Hin. apply setHas_In in Hin. congruence. }
      simpl. rewrite IH. simpl. split.
      * intros [->|[Hin Hnot]]; [split; [left; reflexivity|exact Hnot_a]|].
        split; [right; exact Hin|]. intros Hs. apply Hnot. right. exact Hs.
      * intros [[->|Hin] Hnot]; [left; reflexivity|].
        destruct (decide (a = w)) as [->|Hne]; [left; reflexivity|].
        right. split; [exact Hin|]. intros [Heq|Hs]; [contradiction|].
        apply Hnot. exact Hs.
Qed.

Lemma In_unique :
  forall (ws : list jsstring) (w : jsstring),
    List.In w (unique ws) <-> List.In w ws.
Proof.
  intros ws w. unfold unique. rewrite In_uniqueFrom. simpl. tauto.
Qed.

Lemma firstn_In :
  forall (A : Type) (n : nat) (l : list A) (x : A),
    List.In x (List.firstn n l) -> List.In x l.
Proof.
  intros A n l x H. rewrite <- (List.firstn_skipn n l).
  apply List.in_or_app. left. exact H.
Qed.

(** [C7, as the code has it] The two extractors tokenise alike and share the
    twenty-one common stop words; the query side also drops nine
    interrogatives, keeps words of three characters, and is not cut to ten
    words.  So a keyword of a chunk is a keyword of the same text on the query
    side unless it is one of the nine words, and a query keyword longer than
    three characters is a keyword on the chunk side when the chunk side
    found fewer than ten. *)
Theorem keyword_extractors_related :
  RagSearch.stopWords = VideoProcessor.stopWords ++ QueryWords.interrogatives
  /\ (forall (text w : jsstring),
        List.In w (VideoProcessor.extractKeywords text) ->
        ~ List.In w QueryWords.interrogatives ->
        List.In w (RagSearch.extractKeywords text))
  /\ (forall (text w : jsstring),
        List.In w (RagSearch.extractKeywords text) ->
        3 < JS.length w ->
        (List.length (VideoProcessor.extractKeywords text) < 10)%nat ->
        List.In w (VideoProcessor.extractKeywords text)).
Proof.
  assert (Hstop : RagSearch.stopWords
                  = VideoProcessor.stopWords ++ QueryWords.interrogatives)
    by reflexivity.
  split; [exact Hstop|]. split.
  - intros text w Hin Hnot.
    unfold VideoProcessor.extractKeywords in Hin. apply firstn_In in Hin.
    apply (proj1 (In_unique _ _)) in Hin. apply List.filter_In in Hin.
    destruct Hin as [Htok Hp]. apply andb_true_iff in Hp.
    destruct Hp as [Hlen Hstopw].
    unfold RagSearch.extractKeywords. apply In_unique. apply List.filter_In.
    split; [exact Htok|]. apply andb_true_iff. split.
    + apply Z.ltb_lt in Hlen. apply Z.ltb_lt. lia.
    + rewrite Hstop, setHas_app. apply negb_true_iff in Hstopw.
      rewrite Hstopw.
      destruct (setHas QueryWords.interrogatives w) eqn:Hq; [|reflexivity].
      apply setHas_In in Hq. contradiction.
  - intros text w Hin Hlen Hshort.
    unfold RagSearch.extractKeywords in Hin.
    apply (proj1 (In_unique _ _)) in Hin. apply List.filter_In in Hin.
    destruct Hin as [Htok Hp]. apply andb_true_iff in Hp.
    destruct Hp as [_ Hstopw].
    unfold VideoProcessor.extractKeywords in *.
    set (ws := unique _) in *.
    assert (Hall : List.firstn 10 ws = ws).
    { apply List.firstn_all2. rewrite List.length_firstn in Hshort. lia. }
    rewrite Hall. unfold ws. apply In_unique. apply List.filter_In.
    split; [exact Htok|]. apply andb_true_iff. split.
    + apply Z.ltb_lt. exact Hlen.
    + rewrite Hstop, setHas_app in Hstopw. apply negb_true_iff in Hstopw.
      apply orb_false_iff in Hstopw. destruct Hstopw as [H1 _].
      rewrite H1. reflexivity.
Qed.

Lemma keyword_extractors_related_witness :
  List.In (of_string "hello")
          (RagSearch.extractKeywords (of_string "Hello, what cat?")).
Proof.
  destruct keyword_extractors_related as (_ & Hcq & _).
  apply (Hcq (of_string "Hello, what cat?") (of_string "hello")).
  - vm_compute. left. reflexivity.
  - vm_compute. intros H. repeat (destruct H as [H|H]; [discriminate H|]). exact H.
Defined.

(** [C7, as stated] On the text [what cat] the chunk side keeps [what] and
    drops [cat]; the query side does the opposite. *)
Lemma keyword_extractors_differ :
  VideoProcessor.extractKeywords (of_string "what cat") = [of_string "what"]
  /\ RagSearch.extractKeywords (of_string "what cat") = [of_string "cat"]
  /\ VideoProcessor.extractKeywords (of_string "what cat")
     <> RagSearch.extractKeywords (of_string "what cat").
Proof.
  vm_compute. repeat split. intros H; discriminate H.
Qed.

End Keywords.

(** ** The lock service *)

Section Locks.
Import LockService.

Lemma NoDup_map_filter :
  forall (A B : Type) (f : A -> B) (p : A -> bool) (l : list A),
    List.NoDup (List.map f l) -> List.NoDup (List.map f (List.filter p l)).
Proof.
  intros A B f p l. induction l as [|x l IH]; simpl; intros H; [exact H|].
  inversion H as [|y ys Hnot Hrest]; subst.
  destruct (p x); simpl; [|apply IH; exact Hrest].
  constructor; [|apply IH; exact Hrest].
  intros Hin. apply Hnot. apply List.in_map_iff in Hin.
  destruct Hin as (z & Hz & Hin). apply List.filter_In in Hin.
  apply List.in_map_iff. exists z. tauto.
Qed.

Lemma held_false_all :
  forall (r : string) (t : list lockRow),
    List.existsb (held r) t = false ->
    forall x, List.In x t -> resource_id x <> r.
Proof.
  intros r t H x Hx Heq.
  assert (List.existsb (held r) t = true); [|congruence].
  apply List.existsb_exists. exists x. split; [exact Hx|].
  unfold held. apply String.eqb_eq. exact Heq.
Qed.

Lemma filter_none :
  forall (A : Type) (p : A -> bool) (l : list A),
    (forall x, List.In x l -> p x = false) -> List.filter p l = [].
Proof.
  intros A p l. induction l as [|x l IH]; intros H; simpl; [reflexivity|].
  rewrite (H x (or_introl eq_refl)). apply IH.
  intros y Hy. apply H. right. exact Hy.
Qed.

Lemma selectSingle_last :
  forall (r : string) (pre : list lockRow) (row : lockRow),
    (forall x, List.In x pre -> resource_id x <> r) ->
    resource_id row = r ->
    selectSingle r (pre ++ [row]) = Some row.
Proof.
  intros r pre row Hpre Hrow. unfold selectSingle.
  rewrite List.filter_app, filter_none.
  - simpl. unfold held. rewrite Hrow, String.eqb_refl. reflexivity.
  - intros x Hx. unfold held. apply String.eqb_neq. apply Hpre. exact Hx.
Qed.

(** A successful [acquire] leaves the new lease's row last in the table,
    after rows of other resources only. *)
Lemma acquire_some :
  forall (samples : list (Z * string)) (storeFails : bool) (r : string)
         (ttl : Z) (inst inst' : instance) (t t' : list lockRow) (B : string),
    acquire samples storeFails r ttl inst t = (inst', t', Some B) ->
    exists (pre : list lockRow) (row : lockRow),
      t' = pre ++ [row]
      /\ resource_id row = r /\ lock_id row = B
      /\ (forall x, List.In x pre -> List.In x t /\ resource_id x <> r)
      /\ locks inst' !! r = Some B.
Proof.
  induction samples as [|[now random] later IH];
    intros storeFails r ttl inst inst' t t' B Hacq; simpl in Hacq.
  - discriminate Hacq.
  - destruct storeFails; [discriminate Hacq|].
    destruct (List.existsb (held r) t) eqn:Hheld.
    + unfold checkAndCleanExpiredLock in Hacq.
      destruct (selectSingle r t) as [existing|]; [|discriminate Hacq].
      destruct (expires_at existing <? now); [|discriminate Hacq].
      apply IH in Hacq. destruct Hacq as (pre & row & -> & Hr & Hb & Hpre & Hl).
      exists pre, row. repeat split; try assumption.
      * apply Hpre in H. destruct H as [H _].
        unfold deleteRow in H. apply List.filter_In in H. tauto.
      * apply Hpre in H. tauto.
    + injection Hacq as <- <- <-.
      eexists t, _. split; [reflexivity|]. simpl.
      repeat split; try assumption.
      * apply (held_false_all r t Hheld x H).
      * apply lookup_insert_eq.
Qed.

Lemma existsb_held_absent :
  forall (r : string) (t : list lockRow),
    (forall x, List.In x t -> resource_id x <> r) ->
    List.existsb (held r) t = false.
Proof.
  intros r t H. destruct (List.existsb (held r) t) eqn:E; [|reflexivity].
  apply List.existsb_exists in E. destruct E as (x & Hx & Hh).
  unfold held in Hh. apply String.eqb_eq in Hh. exfalso. apply (H x Hx Hh).
Qed.

Lemma lockId_not_empty :
  forall (r rest : string), String.eqb (r ++ "-" ++ rest)%string "" = false.
Proof.
  intros r rest. destruct r; reflexivity.
Qed.

Lemma acquire_free :
  forall (now : Z) (random : string) (later : list (Z * string)) (r : string)
         (ttl : Z) (inst : instance) (t : list lockRow),
    (forall x, List.In x t -> resource_id x <> r) ->
    let lease := (r ++ "-" ++ showZ now ++ "-" ++ random)%string in
    acquire ((now, random) :: later) false r ttl inst t
    = ({| locks := <[r := lease]> (locks inst);
          lockTimers := <[r := now + (ttl - 10) * 1000]> (lockTimers inst) |},
       t ++ [ {| resource_id := r; lock_id := lease;
                 expires_at := now + ttl * 1000; created_at := now |} ],
       Some lease).
Proof.
  intros now random later r ttl inst t Hfree. simpl.
  rewrite (existsb_held_absent r t Hfree). reflexivity.
Qed.

Lemma release_own_row :
  forall (r lease : string) (expires created : Z) (timer : Z)
         (inst : instance) (t : list lockRow),
    (forall x, List.In x t -> resource_id x <> r) ->
    String.eqb lease "" = false ->
    release false r
      {| locks := <[r := lease]> (locks inst);
         lockTimers := <[r := timer]> (lockTimers inst) |}
      (t ++ [ {| resource_id := r; lock_id := lease;
                 expires_at := expires; created_at := created |} ])
    = ({| locks := delete r (<[r := lease]> (locks inst));
          lockTimers := delete r (<[r := timer]> (lockTimers inst)) |},
       t, true).
Proof.
  intros r lease expires created timer inst t Hfree Hlease.
  unfold release. cbn [locks lockTimers]. rewrite lookup_insert_eq, Hlease.
  f_equal. f_equal.
  unfold deleteRow. rewrite List.filter_app. simpl.
  unfold isRow at 2. cbn [resource_id lock_id]. rewrite !String.eqb_refl. simpl.
  rewrite List.app_nil_r. apply filter_all_true.
  intros x Hx. apply negb_true_iff. unfold isRow. apply andb_false_iff. left.
  apply String.eqb_neq. apply Hfree. exact Hx.
Qed.

(** What [release] cannot do: it removes from the table at most the row of
    [r] whose [lock_id] is the lease the map of the releasing instance
    holds for [r], and adds nothing; so a lease [B] that another instance
    acquired survives the release, and [isLocked(r)] answers [true] until
    [B] expires. *)
Lemma release_deletes_held_lease :
  forall (storeFails : bool) (r : string) (inst : instance) (t : list lockRow),
    let '(_, t', _) := release storeFails r inst t in
    (forall row, List.In row t -> ~ List.In row t' ->
       resource_id row = r /\ locks inst !! r = Some (lock_id row))
    /\ (forall row, List.In row t' -> List.In row t)
    /\ (forall (samples : list (Z * string)) (ttl : Z)
              (other other' : instance) (t0 : list lockRow) (B : string),
          acquire samples false r ttl other t0 = (other', t, Some B) ->
          locks inst !! r <> Some B ->
          exists row,
            List.In row t' /\ resource_id row = r /\ lock_id row = B
            /\ forall now, isLocked r now t' = (now <? expires_at row)).
Proof.
  intros storeFails r inst t.
  assert (Hsame :
    (forall row, List.In row t -> ~ List.In row t ->
       resource_id row = r /\ locks inst !! r = Some (lock_id row))
    /\ (forall row, List.In row t -> List.In row t)
    /\ (forall (samples : list (Z * string)) (ttl : Z)
              (other other' : instance) (t0 : list lockRow) (B : string),
          acquire samples false r ttl other t0 = (other', t, Some B) ->
          locks inst !! r <> Some B ->
          exists row,
            List.In row t /\ resource_id row = r /\ lock_id row = B
            /\ forall now, isLocked r now t = (now <? expires_at row))).
  { split; [intros row Hin Hnot; contradiction|]. split; [tauto|].
    intros samples ttl other other' t0 B Hacq _.
    apply acquire_some in Hacq.
    destruct Hacq as (pre & row & -> & Hr & Hb & Hpre & _).
    exists row. split; [apply List.in_or_app; right; left; reflexivity|].
    split; [exact Hr|]. split; [exact Hb|].
    intros now. unfold isLocked. rewrite selectSingle_last; [reflexivity| |exact Hr].
    intros x Hx. apply Hpre in Hx. tauto. }
  unfold release. destruct (locks inst !! r) as [A|] eqn:HA; [|exact Hsame].
  destruct (String.eqb A "") eqn:Hempty; [exact Hsame|].
  destruct storeFails; [exact Hsame|]. clear Hsame.
  split; [|split].
  - intros row Hin Hnot.
    destruct (isRow r A row) eqn:Hrow.
    + unfold isRow in Hrow. apply andb_true_iff in Hrow.
      destruct Hrow as [H1 H2]. apply String.eqb_eq in H1, H2.
      split; [exact H1|]. rewrite H2. reflexivity.
    + exfalso. apply Hnot. unfold deleteRow. apply List.filter_In.
      split; [exact Hin|]. rewrite Hrow. reflexivity.
  - intros row Hin. unfold deleteRow in Hin. apply List.filter_In in Hin. tauto.
  - intros samples ttl other other' t0 B Hacq Hne.
    apply acquire_some in Hacq.
    destruct Hacq as (pre & row & -> & Hr & Hb & Hpre & _).
    assert (Hkeep : isRow r A row = false).
    { unfold isRow. apply andb_false_iff. right. apply String.eqb_neq.
      intros Heq. apply Hne. rewrite Hb in Heq. rewrite Heq. reflexivity. }
    assert (Hdel : deleteRow r A (pre ++ [row]) = deleteRow r A pre ++ [row]).
    { unfold deleteRow. rewrite List.filter_app. simpl. rewrite Hkeep. reflexivity. }
    rewrite Hdel. exists row.
    split; [apply List.in_or_app; right; left; reflexivity|].
    split; [exact Hr|]. split; [exact Hb|].
    intros now. unfold isLocked. rewrite selectSingle_last; [reflexivity| |exact Hr].
    intros x Hx. unfold deleteRow in Hx. apply List.filter_In in Hx.
    destruct Hx as [Hx _]. apply Hpre in Hx. tauto.
Qed.

(** [C10] The fencing fails inside one process.  [release(r)] takes no
    lease: it deletes the row of the lease the map holds for [r] at that
    moment, and the map of the one [lockService] of a process holds only
    the latest lease.  Take a resource without a row.  A first run acquires
    lease [A]; the timer set by that [acquire] releases it ten seconds
    before it expires; after that a second run of the same process
    acquires lease [B], and [isLocked(r)] is true until [B] expires.  When the first run ends,
    its [finally] calls [release(r)]: the call succeeds and deletes the row
    of [B], the table is as it was before the first acquire, and
    [isLocked(r)] is false although [B] has neither expired nor been
    released by the run that holds it. *)
Theorem older_release_revokes_newer_lease :
  forall (now1 now2 : Z) (random1 random2 : string) (r : string) (ttl : Z)
         (inst : instance) (t : list lockRow),
    (forall x, List.In x t -> resource_id x <> r) ->
    now1 + (ttl - 10) * 1000 <= now2 ->
    let '(inst1, t1, leaseA) := acquire [(now1, random1)] false r ttl inst t in
    let '(inst2, t2, timerRelease) := release false r inst1 t1 in
    let '(inst3, t3, leaseB) := acquire [(now2, random2)] false r ttl inst2 t2 in
    let '(inst4, t4, finallyRelease) := release false r inst3 t3 in
    leaseA = Some (r ++ "-" ++ showZ now1 ++ "-" ++ random1)%string
    /\ timerRelease = true
    /\ leaseB = Some (r ++ "-" ++ showZ now2 ++ "-" ++ random2)%string
    /\ locks inst3 !! r = leaseB
    /\ (exists row, List.In row t3 /\ resource_id row = r
                    /\ Some (lock_id row) = leaseB
                    /\ expires_at row = now2 + ttl * 1000)
    /\ (forall now, isLocked r now t3 = (now <? now2 + ttl * 1000))
    /\ finallyRelease = true
    /\ t4 = t
    /\ (forall row, List.In row t4 -> resource_id row <> r)
    /\ (forall now, isLocked r now t4 = false).
Proof.
  intros now1 now2 random1 random2 r ttl inst t Hfree _.
  rewrite (acquire_free now1 random1 [] r ttl inst t Hfree).
  cbv beta iota zeta.
  rewrite (release_own_row _ _ _ _ _ _ _ Hfree (lockId_not_empty _ _)).
  cbv beta iota zeta.
  rewrite (acquire_free now2 random2 [] r ttl _ t Hfree).
  cbv beta iota zeta.
  rewrite (release_own_row _ _ _ _ _ _ _ Hfree (lockId_not_empty _ _)).
  split; [reflexivity|]. split; [reflexivity|]. split; [reflexivity|].
  split; [apply lookup_insert_eq|].
  split.
  { eexists. split; [apply List.in_or_app; right; left; reflexivity|].
    repeat split. }
  split.
  { intros now. unfold isLocked.
    rewrite selectSingle_last; [reflexivity|exact Hfree|reflexivity]. }
  split; [reflexivity|]. split; [reflexivity|]. split; [exact Hfree|].
  intros now. unfold isLocked, selectSingle. rewrite filter_none; [reflexivity|].
  intros x Hx. unfold held. apply String.eqb_neq. apply Hfree. exact Hx.
Qed.

Lemma older_release_revokes_newer_lease_witness :
  let '(inst1, t1, leaseA) :=
    acquire [(1000, "0.25"%string)] false "video-X" 600 LockService.empty [] in
  let '(inst2, t2, _) := release false "video-X" inst1 t1 in
  let '(inst3, t3, leaseB) :=
    acquire [(595000, "0.5"%string)] false "video-X" 600 inst2 t2 in
  let '(inst4, t4, _) := release false "video-X" inst3 t3 in
  leaseA = Some "video-X-1000-0.25"%string
  /\ leaseB = Some "video-X-595000-0.5"%string
  /\ isLocked "video-X" 600000 t3 = true
  /\ isLocked "video-X" 600000 t4 = false.
Proof.
  pose proof (older_release_revokes_newer_lease 1000 595000 "0.25" "0.5"
                "video-X" 600 LockService.empty []
                (fun x H => match H with end) ltac:(lia)) as H.
  destruct (acquire [(1000, "0.25"%string)] false "video-X" 600
              LockService.empty []) as [[inst1 t1] leaseA].
  destruct (release false "video-X" inst1 t1) as [[inst2 t2] ok2].
  destruct (acquire [(595000, "0.5"%string)] false "video-X" 600 inst2 t2)
    as [[inst3 t3] leaseB].
  destruct (release false "video-X" inst3 t3) as [[inst4 t4] ok4].
  destruct H as (HA & _ & HB & _ & _ & H3 & _ & _ & _ & H4).
  split; [rewrite HA; reflexivity|]. split; [rewrite HB; reflexivity|].
  split; [rewrite H3; reflexivity|apply H4].
Defined.

End Locks.

(** ** The chunker *)

Section Chunker.
Import JS VideoProcessor ChunkBytes.

Lemma loop_app :
  forall (chunkSize n : Z) (l1 l2 : list segment) (i : Z) (st : state),
    loop chunkSize n i (l1 ++ l2) st
    = loop chunkSize n (i + Z.of_nat (List.length l1)) l2
        (loop chunkSize n i l1 st).
Proof.
  intros chunkSize n l1. induction l1 as [|seg l1 IH]; intros l2 i st.
  - simpl. rewrite Z.add_0_r. reflexivity.
  - simpl List.app. simpl loop. rewrite IH. f_equal.
    simpl List.length. lia.
Qed.

Lemma firstn_succ_nth :
  forall (A : Type) (l : list A) (i : nat) (x : A),
    List.nth_error l i = Some x ->
    List.firstn (S i) l = List.firstn i l ++ [x]
    /\ List.length (List.firstn i l) = i.
Proof.
  intros A l. induction l as [|y l IH]; intros i x H.
  - destruct i; discriminate H.
  - destruct i as [|i]; simpl in H.
    + injection H as ->. split; reflexivity.
    + destruct (IH i x H) as [H1 H2]. split.
      * change (y :: List.firstn (S i) l = y :: (List.firstn i l ++ [x])).
        f_equal. exact H1.
      * simpl. f_equal. exact H2.
Qed.

Lemma stateAt_succ :
  forall (chunkSize : Z) (transcript : list segment) (i : nat) (seg : segment),
    List.nth_error transcript i = Some seg ->
    stateAt chunkSize transcript (S i)
    = step chunkSize (Z.of_nat (List.length transcript)) (Z.of_nat i) seg
        (stateAt chunkSize transcript i).
Proof.
  intros chunkSize transcript i seg H. unfold stateAt.
  destruct (firstn_succ_nth _ transcript i seg H) as [H1 H2].
  rewrite H1, loop_app, H2. reflexivity.
Qed.

Lemma trimStart_head :
  forall s : jsstring,
    trimStart s = [] \/
    exists c rest, trimStart s = c :: rest /\ isWhiteSpace c = false.
Proof.
  induction s as [|c s IH]; simpl; [left; reflexivity|].
  destruct (isWhiteSpace c) eqn:Hc; [exact IH|].
  right. exists c, s. split; [reflexivity|exact Hc].
Qed.

(** On a trimmed text the regular expression and the specification's
    [natural] agree. *)
Lemma natural_trim :
  forall s : jsstring,
    endsWithTerminator (trim s) = ChunkerSpec.natural (trim s).
Proof.
  intros s. unfold endsWithTerminator, ChunkerSpec.natural, ChunkerSpec.lastNonSpace.
  unfold trim, trimEnd. rewrite List.rev_involutive.
  destruct (trimStart_head (List.rev (trimStart s))) as [->|(c & rest & -> & Hc)].
  - reflexivity.
  - simpl. rewrite Hc. reflexivity.
Qed.

(** [C8] For the segments [downloadTranscript] makes of any answer of the
    provider, the turn of [createChunks] for segment [i] closes the chunk
    exactly when the specification's [(natural ∧ long) ∨ too_long ∨ last]
    holds of the segment's text and of the buffer after the line was
    appended: then one chunk holding the buffer is added and the buffer is
    emptied; otherwise no chunk is added and the buffer is kept. *)
Theorem createChunks_cut_policy :
  forall (raw : list raw_segment) (i : nat) (seg : segment),
    let transcript := downloadTranscript_convert raw in
    List.nth_error transcript i = Some seg ->
    let before := stateAt 1000 transcript i in
    let after := stateAt 1000 transcript (S i) in
    let buffer := currentChunk before ++ line seg in
    let last := Nat.eqb (S i) (List.length transcript) in
    if ChunkerSpec.cut (seg_text seg) buffer last
    then exists c, chunks after = chunks before ++ [c]
                   /\ text c = buffer /\ currentChunk after = []
    else chunks after = chunks before /\ currentChunk after = buffer.
Proof.
  intros raw i seg transcript Hnth before after buffer last.
  assert (Hafter : after = step 1000 (Z.of_nat (List.length transcript))
                             (Z.of_nat i) seg before).
  { apply stateAt_succ. exact Hnth. }
  assert (Htrim : endsWithTerminator (seg_text seg)
                  = ChunkerSpec.natural (seg_text seg)).
  { unfold transcript, downloadTranscript_convert in Hnth.
    rewrite List.nth_error_map in Hnth.
    destruct (List.nth_error raw i) as [r|]; [|discriminate Hnth].
    injection Hnth as <-. simpl. apply natural_trim. }
  assert (Hlast : (Z.of_nat i =? Z.of_nat (List.length transcript) - 1) = last).
  { unfold last. destruct (Nat.eqb_spec (S i) (List.length transcript)) as [E|E].
    - apply Z.eqb_eq. lia.
    - apply Z.eqb_neq. lia. }
  rewrite Hafter. unfold step. fold buffer. rewrite Htrim, Hlast.
  unfold ChunkerSpec.cut, ChunkerSpec.long, ChunkerSpec.too_long.
  destruct (ChunkerSpec.natural (seg_text seg) && (1000 <=? JS.length buffer)
            || (2000 <=? JS.length buffer) || last).
  - simpl. eexists. split; [reflexivity|]. split; reflexivity.
  - simpl. split; reflexivity.
Qed.

Lemma createChunks_cut_policy_witness :
  let transcript := downloadTranscript_convert Examples.rawTranscript in
  List.nth_error transcript 0 = Some Examples.firstSegment
  /\ (let before := stateAt 1000 transcript 0 in
      let after := stateAt 1000 transcript 1 in
      let buffer := currentChunk before ++ line Examples.firstSegment in
      if ChunkerSpec.cut (seg_text Examples.firstSegment) buffer false
      then exists c, chunks after = chunks before ++ [c]
                     /\ text c = buffer /\ currentChunk after = []
      else chunks after = chunks before /\ currentChunk after = buffer).
Proof.
  split; [reflexivity|].
  apply (createChunks_cut_policy Examples.rawTranscript 0 Examples.firstSegment).
  reflexivity.
Defined.

(** *** Byte accounting *)

Lemma utf8Length_newline_app :
  forall (n : nat) (s b : jsstring),
    (List.length s <= n)%nat ->
    utf8Length ((s ++ [10%N]) ++ b) = utf8Length (s ++ [10%N]) + utf8Length b.
Proof.
  induction n as [|n IH]; intros s b Hlen.
  - destruct s; [reflexivity|simpl in Hlen; lia].
  - destruct s as [|c r]; [reflexivity|].
    simpl in Hlen.
    assert (Hr : utf8Length ((r ++ [10%N]) ++ b)
                 = utf8Length (r ++ [10%N]) + utf8Length b)
      by (apply IH; lia).
    simpl List.app. cbn [utf8Length].
    destruct (c <? 128)%N; [simpl List.app in Hr; lia|].
    destruct (c <? 2048)%N; [simpl List.app in Hr; lia|].
    destruct (isHighSurrogate c); [|simpl List.app in Hr; lia].
    destruct r as [|d r'].
    + simpl. lia.
    + assert (Hr' : utf8Length ((r' ++ [10%N]) ++ b)
                    = utf8Length (r' ++ [10%N]) + utf8Length b)
        by (apply IH; simpl in Hlen; lia).
      simpl List.app in *. cbv beta iota. destruct (isLowSurrogate d); lia.
Qed.

(** The byte length adds up across a line end: a surrogate pair never
    straddles it. *)
Lemma utf8Length_app :
  forall a b : jsstring,
    endsWithNewline a -> utf8Length (a ++ b) = utf8Length a + utf8Length b.
Proof.
  intros a b [->|(s & ->)]; [reflexivity|].
  apply (utf8Length_newline_app (List.length s)). lia.
Qed.

Lemma line_newline :
  forall (cur : jsstring) (seg : segment),
    endsWithNewline (cur ++ line seg).
Proof.
  intros cur seg. right.
  exists (cur ++ [91%N] ++ formatTimestamp (seg_start seg) ++ [93%N; 32%N]
              ++ seg_text seg).
  unfold line. rewrite <- !List.app_assoc. reflexivity.
Qed.

Lemma texts_snoc :
  forall (cs : list chunk) (c : chunk), texts (cs ++ [c]) = texts cs ++ text c.
Proof.
  intros cs c. unfold texts.
  rewrite List.map_app, List.concat_app. simpl. rewrite List.app_nil_r.
  reflexivity.
Qed.

Lemma chained_snoc :
  forall (cs : list chunk) (first stop : Z) (c : chunk),
    chained first cs stop -> byte_offset c = stop ->
    chained first (cs ++ [c]) (stop + byte_length c).
Proof.
  induction cs as [|d cs IH]; intros first stop c Hch Hc; simpl in *.
  - subst first. split; [exact Hc|reflexivity].
  - destruct Hch as [Hd Hch]. split; [exact Hd|]. apply IH; assumption.
Qed.

Lemma chained_next :
  forall (cs : list chunk) (first stop : Z) (k : nat) (c d : chunk),
    chained first cs stop ->
    List.nth_error cs k = Some c -> List.nth_error cs (S k) = Some d ->
    byte_offset d = byte_offset c + byte_length c.
Proof.
  induction cs as [|x cs IH]; intros first stop k c d Hch Hc Hd.
  - destruct k; discriminate Hc.
  - destruct Hch as [Hx Hch]. destruct k as [|k]; simpl in Hc, Hd.
    + injection Hc as ->. destruct cs as [|y cs]; [discriminate Hd|].
      simpl in Hd. injection Hd as ->. destruct Hch as [Hy _]. lia.
    + apply (IH _ _ k c d Hch Hc Hd).
Qed.

Lemma chained_last :
  forall (pre : list chunk) (first stop : Z) (c : chunk),
    chained first (pre ++ [c]) stop -> byte_offset c + byte_length c = stop.
Proof.
  induction pre as [|x pre IH]; intros first stop c Hch; simpl in Hch.
  - destruct Hch as [Hc Hstop]. lia.
  - destruct Hch as [_ Hch]. apply (IH _ _ _ Hch).
Qed.

Lemma step_invariant :
  forall (chunkSize n i : Z) (seg : segment) (content : jsstring) (st : state),
    invariant content st ->
    invariant (content ++ line seg) (step chunkSize n i seg st).
Proof.
  intros chunkSize n i seg content st [Hc Ho Hch Hl Htn Hcn Hs].
  assert (Hstart : (if JS.length (currentChunk st) =? 0 then byteOffset st
                    else chunkStartOffset st) = byteOffset st).
  { destruct (currentChunk st) as [|x cur] eqn:E; [reflexivity|].
    change (chunkStartOffset st = byteOffset st). apply Hs. discriminate. }
  pose proof (line_newline (currentChunk st) seg) as Hnl.
  unfold step.
  destruct (endsWithTerminator (seg_text seg)
            && (chunkSize <=? JS.length (currentChunk st ++ line seg))
            || (2000 <=? JS.length (currentChunk st ++ line seg))
            || (i =? n - 1)).
  - constructor;
      cbn [chunks byteOffset currentChunk chunkStartOffset].
    + rewrite texts_snoc. cbn [text]. rewrite List.app_nil_r, <- Hc.
      rewrite List.app_assoc. reflexivity.
    + rewrite texts_snoc. cbn [text].
      rewrite (utf8Length_app (texts (chunks st))) by exact Htn.
      rewrite Ho. reflexivity.
    + apply chained_snoc; [exact Hch|]. cbn [byte_offset]. exact Hstart.
    + apply List.Forall_app. split; [exact Hl|].
      constructor; [reflexivity|constructor].
    + rewrite texts_snoc. cbn [text].
      destruct Hnl as [Hnil|(s' & Hs')].
      * destruct (currentChunk st); discriminate Hnil.
      * right. exists (texts (chunks st) ++ s').
        rewrite Hs', List.app_assoc. reflexivity.
    + left. reflexivity.
    + intros H. contradiction.
  - constructor;
      cbn [chunks byteOffset currentChunk chunkStartOffset].
    + rewrite <- Hc, List.app_assoc. reflexivity.
    + exact Ho.
    + exact Hch.
    + exact Hl.
    + exact Htn.
    + exact Hnl.
    + intros _. exact Hstart.
Qed.

Lemma loop_invariant :
  forall (chunkSize n : Z) (segs : list segment) (i : Z) (content : jsstring)
         (st : state),
    invariant content st ->
    invariant (content ++ List.concat (List.map line segs))
              (loop chunkSize n i segs st).
Proof.
  intros chunkSize n segs.
  induction segs as [|seg segs IH]; intros i content st Hinv.
  - simpl. rewrite List.app_nil_r. exact Hinv.
  - change (invariant (content ++ (line seg ++ List.concat (List.map line segs)))
                      (loop chunkSize n (i + 1) segs (step chunkSize n i seg st))).
    rewrite List.app_assoc. apply IH. apply step_invariant. exact Hinv.
Qed.

(** The turn for the last segment always closes the chunk. *)
Lemma loop_ends_empty :
  forall (chunkSize n : Z) (segs : list segment) (i : Z) (st : state),
    segs <> [] -> i + Z.of_nat (List.length segs) = n ->
    currentChunk (loop chunkSize n i segs st) = [].
Proof.
  intros chunkSize n segs.
  induction segs as [|seg segs IH]; intros i st Hne Hlen; [contradiction|].
  destruct segs as [|seg' segs].
  - simpl in *. unfold step.
    replace (i =? n - 1) with true by (symmetry; apply Z.eqb_eq; lia).
    rewrite !orb_true_r. reflexivity.
  - change (currentChunk (loop chunkSize n (i + 1) (seg' :: segs)
                            (step chunkSize n i seg st)) = []).
    apply IH; [discriminate|]. simpl List.length in *. lia.
Qed.

Lemma transcriptContent_concat :
  forall transcript : list segment,
    transcriptContent transcript = List.concat (List.map line transcript).
Proof.
  intros transcript. unfold transcriptContent.
  assert (H : forall l acc,
             List.fold_left (fun content seg => content ++ line seg) l acc
             = acc ++ List.concat (List.map line l)).
  { induction l as [|seg l IH]; intros acc.
    - simpl. rewrite List.app_nil_r. reflexivity.
    - change (List.fold_left (fun content seg => content ++ line seg) l
                (acc ++ line seg)
              = acc ++ (line seg ++ List.concat (List.map line l))).
      rewrite IH, List.app_assoc. reflexivity. }
  apply (H transcript []).
Qed.

Lemma init_invariant : invariant [] init.
Proof.
  constructor; simpl;
    first [ reflexivity | left; reflexivity | constructor
          | intros H; contradiction ].
Qed.

(** [C9] For every transcript the chunks of [createChunks] and the text
    [storeTranscript] uploads agree byte for byte: the chunk texts joined in
    order are the uploaded text, every [byte_length] is the UTF-8 length of
    the chunk's text, the first chunk starts at byte [0], each next chunk
    starts where the one before it ends, and the last chunk ends at the UTF-8
    length of the uploaded text. *)
Theorem chunk_bytes_match_blob :
  forall transcript : list segment,
    let cs := createChunks transcript in
    let blob := transcriptContent transcript in
    texts cs = blob
    /\ List.Forall (fun c => byte_length c = utf8Length (text c)) cs
    /\ (forall c rest, cs = c :: rest -> byte_offset c = 0)
    /\ (forall k c d,
          List.nth_error cs k = Some c -> List.nth_error cs (S k) = Some d ->
          byte_offset d = byte_offset c + byte_length c)
    /\ (forall pre c, cs = pre ++ [c] ->
          byte_offset c + byte_length c = utf8Length blob)
    /\ (cs = [] -> utf8Length blob = 0).
Proof.
  intros transcript cs blob.
  set (n := Z.of_nat (List.length transcript)).
  set (final := loop 1000 n 0 transcript init).
  assert (Hcs : cs = chunks final) by reflexivity.
  pose proof (loop_invariant 1000 n transcript 0 [] init init_invariant) as Hinv.
  fold final in Hinv. simpl List.app in Hinv.
  rewrite <- transcriptContent_concat in Hinv. fold blob in Hinv.
  destruct Hinv as [Hc Ho Hch Hl _ _ _].
  assert (Hcur : currentChunk final = []).
  { destruct transcript as [|seg segs] eqn:E; [reflexivity|].
    apply loop_ends_empty; [discriminate|]. unfold n. lia. }
  rewrite Hcur, List.app_nil_r in Hc. rewrite <- Hcs in *.
  rewrite Hc in Ho. rewrite Ho in Hch.
  split; [exact Hc|]. split; [exact Hl|]. split; [|split; [|split]].
  - intros c rest E. rewrite E in Hch. destruct Hch as [H0 _]. exact H0.
  - intros k c d Hk Hd. apply (chained_next cs 0 (utf8Length blob) k c d Hch Hk Hd).
  - intros pre c E. rewrite E in Hch. apply (chained_last pre 0 _ c Hch).
  - intros E. rewrite E in Hch. simpl in Hch. lia.
Qed.

Lemma chunk_bytes_match_blob_witness :
  exists c,
    createChunks Examples.newTranscript = [c]
    /\ byte_offset c + byte_length c
       = utf8Length (transcriptContent Examples.newTranscript).
Proof.
  eexists. split; [vm_compute; reflexivity|].
  destruct (chunk_bytes_match_blob Examples.newTranscript)
    as (_ & _ & _ & _ & H & _).
  apply (H []). vm_compute. reflexivity.
Defined.

End Chunker.

(** ** Video search *)

Section VideoSearch.
Import RagSearch SearchScore.

Lemma In_insertDesc :
  forall (A : Type) (key : A -> Q) (a x : A) (l : list A),
    List.In x (Score.insertDesc key a l) <-> x = a \/ List.In x l.
Proof.
  intros A key a x l. induction l as [|y l IH]; simpl.
  - intuition congruence.
  - destruct (Score.ltb (key a) (key y)); simpl; rewrite ?IH; intuition congruence.
Qed.

Lemma In_sortDesc :
  forall (A : Type) (key : A -> Q) (x : A) (l : list A),
    List.In x (Score.sortDesc key l) <-> List.In x l.
Proof.
  intros A key x l. induction l as [|y l IH]; simpl; [tauto|].
  rewrite In_insertDesc, IH. intuition congruence.
Qed.

Lemma mapHas_In :
  forall (m : resultMap) (k : string),
    mapHas m k = true <-> List.In k (List.map fst m).
Proof.
  intros m k. unfold mapHas. rewrite List.existsb_exists, List.in_map_iff.
  split; intros (e & H1 & H2).
  - exists e. split; [apply String.eqb_eq; exact H2|exact H1].
  - exists e. split; [exact H2|apply String.eqb_eq; exact H1].
Qed.

Lemma mapSet_keys :
  forall (m : resultMap) (k : string) (v : result),
    List.map fst (mapSet m k v)
    = if mapHas m k then List.map fst m else List.map fst m ++ [k].
Proof.
  induction m as [|[k' v'] m IH]; intros k v; simpl; [reflexivity|].
  destruct (String.eqb k' k) eqn:E; simpl; [reflexivity|].
  rewrite IH. destruct (mapHas m k); reflexivity.
Qed.

Lemma mapSet_In :
  forall (m : resultMap) (k : string) (v : result) (e : string * result),
    List.In e (mapSet m k v) -> e = (k, v) \/ List.In e m.
Proof.
  induction m as [|[k' v'] m IH]; intros k v e H; simpl in H.
  - destruct H as [<-|[]]. left. reflexivity.
  - destruct (String.eqb k' k) eqn:E; simpl in H.
    + apply String.eqb_eq in E. subst k'.
      destruct H as [<-|H]; [left; reflexivity|right; right; exact H].
    + destruct H as [<-|H]; [right; left; reflexivity|].
      apply IH in H. destruct H as [H|H]; [left; exact H|right; right; exact H].
Qed.

Lemma mapBoost_keys :
  forall (m : resultMap) (k : string),
    List.map fst (mapBoost m k) = List.map fst m.
Proof.
  induction m as [|[k' v'] m IH]; intros k; simpl; [reflexivity|].
  destruct (String.eqb k' k); simpl; [reflexivity|]. rewrite IH. reflexivity.
Qed.

Lemma mapBoost_In :
  forall (m : resultMap) (k k0 : string) (v0 : result),
    List.NoDup (List.map fst m) ->
    List.In (k0, v0) (mapBoost m k) ->
    (k0 <> k /\ List.In (k0, v0) m)
    \/ (k0 = k /\ exists v, List.In (k, v) m
                          /\ v0 = {| res_row := res_row v;
                                     score := (score v + (3 # 10))%Q |}).
Proof.
  induction m as [|[k' v'] m IH]; intros k k0 v0 Hnd H; simpl in H; [contradiction|].
  simpl in Hnd. inversion Hnd as [|x xs Hnot Hrest]; subst.
  destruct (String.eqb k' k) eqn:E; simpl in H.
  - apply String.eqb_eq in E. subst k'. destruct H as [H|H].
    + injection H as <- <-. right. split; [reflexivity|].
      exists v'. split; [left; reflexivity|reflexivity].
    + left. split; [|right; exact H].
      intros ->. apply Hnot. apply List.in_map_iff. exists (k, v0). tauto.
  - apply String.eqb_neq in E. destruct H as [H|H].
    + injection H as <- <-. left. split; [exact E|left; reflexivity].
    + destruct (IH k k0 v0 Hrest H) as [[H1 H2]|[H1 (v & H2 & H3)]].
      * left. split; [exact H1|right; exact H2].
      * right. split; [exact H1|]. exists v. split; [right; exact H2|exact H3].
Qed.

Lemma id_injective :
  forall (l : list row) (a b : row),
    List.NoDup (List.map id l) -> List.In a l -> List.In b l ->
    id a = id b -> a = b.
Proof.
  induction l as [|x l IH]; intros a b Hnd Ha Hb Hid; [contradiction|].
  simpl in Hnd. inversion Hnd as [|y ys Hnot Hrest]; subst.
  destruct Ha as [<-|Ha], Hb as [<-|Hb].
  - reflexivity.
  - exfalso. apply Hnot. rewrite Hid. apply List.in_map. exact Hb.
  - exfalso. apply Hnot. rewrite <- Hid. apply List.in_map. exact Ha.
  - apply IH; assumption.
Qed.

Lemma addSemantic_map :
  forall (top : list row) (m : resultMap) (c : row),
    List.In c top -> semanticMap top m ->
    semanticMap top (addSemantic m c)
    /\ List.In (id c) (List.map fst (addSemantic m c))
    /\ (forall k, List.In k (List.map fst m) ->
                  List.In k (List.map fst (addSemantic m c))).
Proof.
  intros top m c Hc [Hnd Hent]. unfold addSemantic.
  assert (Hkeys := mapSet_keys m (id c) {| res_row := c; score := similarity c |}).
  destruct (mapHas m (id c)) eqn:Hhas.
  - split; [split|split].
    + rewrite Hkeys. exact Hnd.
    + intros k v Hin. apply mapSet_In in Hin. destruct Hin as [Hin|Hin].
      * injection Hin as -> ->. simpl. tauto.
      * apply Hent. exact Hin.
    + rewrite Hkeys. apply mapHas_In. exact Hhas.
    + intros k Hk. rewrite Hkeys. exact Hk.
  - split; [split|split].
    + rewrite Hkeys. apply List.NoDup_app; [exact Hnd|repeat constructor; tauto|].
      intros k Hk [<-|[]]. apply mapHas_In in Hk. congruence.
    + intros k v Hin. apply mapSet_In in Hin. destruct Hin as [Hin|Hin].
      * injection Hin as -> ->. simpl. tauto.
      * apply Hent. exact Hin.
    + rewrite Hkeys. apply List.in_or_app. right. left. reflexivity.
    + intros k Hk. rewrite Hkeys. apply List.in_or_app. left. exact Hk.
Qed.

Lemma fold_addSemantic :
  forall (top l : list row) (m : resultMap),
    (forall c, List.In c l -> List.In c top) -> semanticMap top m ->
    let m' := List.fold_left addSemantic l m in
    semanticMap top m'
    /\ (forall c, List.In c l -> List.In (id c) (List.map fst m'))
    /\ (forall k, List.In k (List.map fst m) -> List.In k (List.map fst m')).
Proof.
  intros top l. induction l as [|c l IH]; intros m Hl Hm; simpl.
  - split; [exact Hm|]. split; [intros c []|tauto].
  - destruct (addSemantic_map top m c (Hl c (or_introl eq_refl)) Hm)
      as (Hm1 & Hc1 & Hk1).
    destruct (IH (addSemantic m c) (fun x Hx => Hl x (or_intror Hx)) Hm1)
      as (Hm2 & Hc2 & Hk2).
    split; [exact Hm2|]. split.
    + intros x [<-|Hx]; [apply Hk2; exact Hc1|apply Hc2; exact Hx].
    + intros k Hk. apply Hk2, Hk1, Hk.
Qed.

(** An entry whose row is not the row being added keeps its case. *)
Lemma keywordMap_case_other :
  forall (top done : list row) (c c' : row) (v : result),
    c' <> c ->
    ((List.In c' top /\ ~ List.In c' done /\ score v = similarity c')
     \/ (List.In c' top /\ List.In c' done
         /\ score v = (similarity c' + (3 # 10))%Q)
     \/ (~ List.In c' top /\ List.In c' done /\ score v = (5 # 10)%Q)) ->
    ((List.In c' top /\ ~ List.In c' (done ++ [c]) /\ score v = similarity c')
     \/ (List.In c' top /\ List.In c' (done ++ [c])
         /\ score v = (similarity c' + (3 # 10))%Q)
     \/ (~ List.In c' top /\ List.In c' (done ++ [c]) /\ score v = (5 # 10)%Q)).
Proof.
  intros top done c c' v Hne [(H1 & H2 & H3)|[(H1 & H2 & H3)|(H1 & H2 & H3)]].
  - left. split; [exact H1|]. split; [|exact H3].
    intros Hd. apply List.in_app_or in Hd.
    destruct Hd as [Hd|[Hd|[]]]; [apply H2; exact Hd|apply Hne; symmetry; exact Hd].
  - right. left. split; [exact H1|]. split; [|exact H3].
    apply List.in_or_app. left. exact H2.
  - right. right. split; [exact H1|]. split; [|exact H3].
    apply List.in_or_app. left. exact H2.
Qed.

Lemma addKeyword_map :
  forall (allChunks top done : list row) (m : resultMap) (c : row),
    List.NoDup (List.map id allChunks) ->
    List.In c allChunks -> ~ List.In c done ->
    keywordMap allChunks top done m ->
    keywordMap allChunks top (done ++ [c]) (addKeyword m c).
Proof.
  intros allChunks top done m c Hnd Hc Hnew (Hk & Hcov & Hent).
  unfold addKeyword. destruct (mapHas m (id c)) eqn:Hhas.
  - split; [rewrite mapBoost_keys; exact Hk|].
    split; [intros x Hx; rewrite mapBoost_keys; apply Hcov; exact Hx|].
    intros k v Hin. apply mapBoost_In in Hin; [|exact Hk].
    destruct Hin as [[Hne Hin]|[-> (v1 & Hin & ->)]].
    + destruct (Hent k v Hin) as (Hid & Hall & Hcase). cbv zeta.
      split; [exact Hid|]. split; [exact Hall|].
      apply keywordMap_case_other; [|exact Hcase].
      intros E. apply Hne. rewrite Hid, E. reflexivity.
    + destruct (Hent (id c) v1 Hin) as (Hid & Hall & Hcase). cbv zeta.
      cbn [res_row score].
      assert (E : res_row v1 = c).
      { apply (id_injective allChunks); [exact Hnd|exact Hall|exact Hc|].
        symmetry. exact Hid. }
      rewrite E in *. split; [reflexivity|]. split; [exact Hc|].
      destruct Hcase as [(H1 & H2 & H3)|[(H1 & H2 & H3)|(H1 & H2 & H3)]];
        [|contradiction|contradiction].
      right. left. split; [exact H1|].
      split; [apply List.in_or_app; right; left; reflexivity|].
      rewrite H3. reflexivity.
  - assert (Hkeys := mapSet_keys m (id c) {| res_row := c; score := (5 # 10)%Q |}).
    rewrite Hhas in Hkeys.
    assert (Hnotkey : ~ List.In (id c) (List.map fst m)).
    { intros H. apply mapHas_In in H. congruence. }
    split; [|split].
    + rewrite Hkeys. apply List.NoDup_app; [exact Hk|repeat constructor; tauto|].
      intros k Hin [<-|[]]. contradiction.
    + intros x Hx. rewrite Hkeys. apply List.in_or_app. left. apply Hcov. exact Hx.
    + intros k v Hin. apply mapSet_In in Hin. destruct Hin as [Hin|Hin].
      * injection Hin as -> ->. cbv zeta. cbn [res_row score].
        split; [reflexivity|]. split; [exact Hc|]. right. right.
        split; [intros Ht; apply Hnotkey; apply Hcov; exact Ht|].
        split; [apply List.in_or_app; right; left; reflexivity|reflexivity].
      * destruct (Hent k v Hin) as (Hid & Hall & Hcase). cbv zeta.
        split; [exact Hid|]. split; [exact Hall|].
        apply keywordMap_case_other; [|exact Hcase].
        intros E. apply Hnotkey. apply List.in_map_iff. exists (k, v).
        split; [simpl; rewrite Hid, E; reflexivity|exact Hin].
Qed.

Lemma fold_addKeyword :
  forall (allChunks top : list row),
    List.NoDup (List.map id allChunks) ->
    forall (pending done : list row) (m : resultMap),
      List.NoDup (done ++ pending) ->
      (forall c, List.In c pending -> List.In c allChunks) ->
      keywordMap allChunks top done m ->
      keywordMap allChunks top (done ++ pending)
                 (List.fold_left addKeyword pending m).
Proof.
  intros allChunks top Hnd pending.
  induction pending as [|c pending IH]; intros done m Hnp Hall Hm; simpl.
  - rewrite List.app_nil_r. exact Hm.
  - replace (done ++ c :: pending) with ((done ++ [c]) ++ pending)
      by (rewrite <- List.app_assoc; reflexivity).
    apply IH.
    + rewrite <- List.app_assoc. exact Hnp.
    + intros x Hx. apply Hall. right. exact Hx.
    + apply addKeyword_map; [exact Hnd|apply Hall; left; reflexivity| |exact Hm].
      apply List.NoDup_remove_2 in Hnp. intros Hd. apply Hnp.
      apply List.in_or_app. left. exact Hd.
Qed.

(** The scores of [hybridChunkSearch], for rows with distinct ids. *)
Lemma hybridChunkSearch_scored :
  forall (allChunks : list row) (query : JS.jsstring) (topK : nat),
    List.NoDup (List.map id allChunks) ->
    List.Forall (hybridScored allChunks query topK)
                (hybridChunkSearch allChunks query topK).
Proof.
  intros allChunks query topK Hnd. unfold hybridChunkSearch.
  fold (topSet allChunks topK).
  set (top := topSet allChunks topK).
  set (qk := extractKeywords query).
  set (kw := if 0 <? Z.of_nat (List.length qk)
             then List.filter (keywordMatch qk) allChunks else []).
  assert (Htop : forall x, List.In x top -> List.In x allChunks).
  { intros x Hx. unfold top, topSet in Hx. apply firstn_In in Hx.
    apply In_sortDesc in Hx. exact Hx. }
  assert (Hkw : forall x, List.In x kw -> List.In x allChunks /\ matched query x = true).
  { intros x Hx. unfold kw in Hx. unfold matched. fold qk.
    destruct (0 <? Z.of_nat (List.length qk)); [|contradiction].
    apply List.filter_In in Hx. destruct Hx as [H1 H2]. rewrite H2. tauto. }
  assert (Hnkw : forall x, List.In x allChunks -> ~ List.In x kw ->
                           matched query x = false).
  { intros x Hx Hn. unfold matched. fold qk. unfold kw in Hn.
    destruct (0 <? Z.of_nat (List.length qk)); [|reflexivity].
    destruct (keywordMatch qk x) eqn:E; [|reflexivity].
    exfalso. apply Hn. apply List.filter_In. tauto. }
  assert (Hkwnd : List.NoDup kw).
  { unfold kw. destruct (0 <? Z.of_nat (List.length qk)); [|constructor].
    apply List.NoDup_filter. apply (List.NoDup_map_inv id). exact Hnd. }
  destruct (fold_addSemantic top top [] (fun c H => H)) as (Hs & Hcov & _).
  { split; [constructor|]. intros k v []. }
  set (m0 := List.fold_left addSemantic top []) in *.
  assert (Hm0 : keywordMap allChunks top [] m0).
  { destruct Hs as [Hk Hent]. split; [exact Hk|]. split; [exact Hcov|].
    intros k v Hin. destruct (Hent k v Hin) as (H1 & H2 & H3). cbv zeta.
    split; [exact H1|]. split; [apply Htop; exact H2|].
    left. split; [exact H2|]. split; [intros []|exact H3]. }
  pose proof (fold_addKeyword allChunks top Hnd kw [] m0 Hkwnd
                (fun c H => proj1 (Hkw c H)) Hm0) as Hm1.
  simpl List.app in Hm1.
  set (m1 := List.fold_left addKeyword kw m0) in *.
  destruct Hm1 as (_ & _ & Hent).
  apply List.Forall_forall. intros r Hr.
  apply firstn_In in Hr. apply In_sortDesc in Hr.
  apply List.in_map_iff in Hr. destruct Hr as ([k v] & <- & Hin).
  destruct (Hent k v Hin) as (_ & Hall & Hcase). simpl snd.
  unfold hybridScored. cbv zeta. fold top. split; [exact Hall|].
  destruct Hcase as [(H1 & H2 & H3)|[(H1 & H2 & H3)|(H1 & H2 & H3)]].
  - left. split; [exact H1|]. split; [apply Hnkw; assumption|exact H3].
  - right. left. split; [exact H1|]. split; [apply Hkw; exact H2|exact H3].
  - right. right. split; [exact H1|]. split; [apply Hkw; exact H2|exact H3].
Qed.

Lemma searchVideoChunks_scored :
  forall (table : list RagService.chunkRow) (video : option string)
         (keywords : list JS.jsstring) (limit : nat),
    List.Forall (previewScored table keywords)
                (RagService.searchVideoChunks table video keywords limit).
Proof.
  intros table video keywords limit. apply List.Forall_forall. intros e He.
  unfold RagService.searchVideoChunks in He.
  destruct video as [v|]; [|contradiction].
  apply In_sortDesc in He. apply List.in_map_iff in He.
  destruct He as (c & <- & Hc).
  unfold RagService.search_transcript_chunks in Hc.
  apply firstn_In in Hc. apply In_sortDesc in Hc. apply List.filter_In in Hc.
  destruct Hc as [Hin Hp]. apply andb_true_iff in Hp. destruct Hp as [_ Hlt].
  split; [exact Hin|]. split; [|reflexivity].
  unfold Score.ltb in Hlt. apply negb_true_iff in Hlt. simpl.
  destruct (Qlt_le_dec (7 # 10) (RagService.similarity c)) as [H|H]; [exact H|].
  apply Qle_bool_iff in H. congruence.
Qed.

(** [C4, as the code has it] The two video searches score differently and
    neither adds both boosts.  In [hybridChunkSearch] (rows with distinct
    ids) a result scores its cosine similarity when it is in the semantic
    top-set and no keyword matches, the similarity plus 0.3 when it is in the
    top-set and a keyword matches, and 0.5 when only a keyword matches; the
    preview plays no part.  In [searchVideoChunks] only rows whose similarity
    is above 0.7 are results, and a result scores its similarity plus 0.1
    for each query keyword found in its preview; there is no 0.3 and no 0.5.
    For chunk A (0.80, no keyword) and chunk B (0.60, two keywords),
    [hybridChunkSearch] gives B 0.90 and ranks it above A with 0.80. *)
Theorem video_search_scores :
  (forall (allChunks : list row) (query : JS.jsstring) (topK : nat),
     List.NoDup (List.map id allChunks) ->
     List.Forall (hybridScored allChunks query topK)
                 (hybridChunkSearch allChunks query topK))
  /\ (forall (table : list RagService.chunkRow) (video : option string)
            (keywords : list JS.jsstring) (limit : nat),
        List.Forall (previewScored table keywords)
                    (RagService.searchVideoChunks table video keywords limit))
  /\ Examples.hybridRanking = [("B"%string, 9 # 10); ("A"%string, 4 # 5)]%Q.
Proof.
  split; [exact hybridChunkSearch_scored|].
  split; [exact searchVideoChunks_scored|].
  vm_compute. reflexivity.
Qed.

Lemma video_search_scores_witness :
  List.Forall (hybridScored [Examples.rowA; Examples.rowB] Examples.searchQuery 5)
    (hybridChunkSearch [Examples.rowA; Examples.rowB] Examples.searchQuery 5).
Proof.
  destruct video_search_scores as (H & _ & _).
  apply (H [Examples.rowA; Examples.rowB] Examples.searchQuery 5%nat).
  simpl. constructor.
  - intros [H1|[]]. discriminate H1.
  - constructor; [intros []|constructor].
Defined.

(** [C4, as stated] Chunk B (semantic 0.60, keyword match, two keywords in
    its preview) scores 0.90 in [hybridChunkSearch], not 1.10, and is no
    result of [searchVideoChunks] at all, being below the threshold; there
    chunk C (semantic 0.75, the same two keywords in its preview) scores
    0.95, without the 0.3. *)
Lemma video_search_not_both_boosts :
  Examples.hybridRanking = [("B"%string, 9 # 10); ("A"%string, 4 # 5)]%Q
  /\ Examples.previewRanking = [("C"%string, 19 # 20); ("A"%string, 4 # 5)]%Q
  /\ ~ List.In ("B"%string, (11 # 10)%Q) Examples.hybridRanking
  /\ ~ List.In ("B"%string, (11 # 10)%Q) Examples.previewRanking.
Proof.
  vm_compute. repeat split.
  - intros [H|[H|[]]]; discriminate H.
  - intros [H|[H|[]]]; discriminate H.
Qed.

End VideoSearch.

(* ===================================================================== *)
(** * Part III: further properties of the code                            *)
(* ===================================================================== *)

(** ** The chunker: coverage, indices and lengths *)

Section ChunkerCoverage.
Import JS VideoProcessor ChunkCover.

Lemma line_length_pos : forall s : segment, 0 < JS.length (line s).
Proof.
  intros s. unfold line, JS.length. rewrite !List.length_app. simpl. lia.
Qed.

Lemma length_app_Z :
  forall a b : jsstring, JS.length (a ++ b) = JS.length a + JS.length b.
Proof.
  intros a b. unfold JS.length. rewrite List.length_app. lia.
Qed.

Lemma lines_empty :
  forall open : list segment,
    JS.length (List.concat (List.map line open)) = 0 -> open = [].
Proof.
  intros [|s open] H; [reflexivity|]. exfalso.
  change (JS.length (line s ++ List.concat (List.map line open)) = 0) in H.
  rewrite length_app_Z in H. pose proof (line_length_pos s).
  unfold JS.length in *. lia.
Qed.

Lemma lines_snoc :
  forall (open : list segment) (s : segment),
    List.concat (List.map line (open ++ [s]))
    = List.concat (List.map line open) ++ line s.
Proof.
  intros open s. rewrite List.map_app, List.concat_app.
  change (List.concat (List.map line [s])) with (line s ++ []).
  rewrite List.app_nil_r. reflexivity.
Qed.

Lemma concat_snoc :
  forall (A : Type) (groups : list (list A)) (g : list A),
    List.concat (groups ++ [g]) = List.concat groups ++ g.
Proof.
  intros A groups g. rewrite List.concat_app. simpl.
  rewrite List.app_nil_r. reflexivity.
Qed.

Lemma nth_error_snoc :
  forall (A : Type) (l : list A) (x y : A) (k : nat),
    List.nth_error (l ++ [x]) k = Some y ->
    List.nth_error l k = Some y \/ (k = List.length l /\ y = x).
Proof.
  intros A l x y k H.
  destruct (Nat.lt_ge_cases k (List.length l)) as [Hlt|Hge].
  - left. rewrite List.nth_error_app1 in H by exact Hlt. exact H.
  - right. rewrite List.nth_error_app2 in H by exact Hge.
    destruct (k - List.length l)%nat as [|j] eqn:E; simpl in H.
    + injection H as <-. split; [lia|reflexivity].
    + destruct j; discriminate H.
Qed.

Lemma covers_snoc :
  forall (open : list segment) (seg : segment) (c : chunk),
    text c = List.concat (List.map line (open ++ [seg])) ->
    start_time c = match open with
                   | [] => seg_start seg
                   | first :: _ => seg_start first
                   end ->
    end_time c = seg_end seg ->
    keywords c = extractKeywords (text c) ->
    covers (open ++ [seg]) c.
Proof.
  intros open seg c Ht Hs He Hk. destruct open as [|first open].
  - simpl. tauto.
  - change (covers (first :: (open ++ [seg])) c). unfold covers.
    split; [exact Ht|]. split; [exact Hs|]. split; [|exact Hk].
    change (first :: open ++ [seg]) with ((first :: open) ++ [seg]).
    rewrite List.last_last. exact He.
Qed.

Lemma cover_step :
  forall (chunkSize n i : Z) (seg : segment) (done : list segment) (st : state),
    i <> n - 1 ->
    invariant chunkSize done st ->
    invariant chunkSize (done ++ [seg]) (step chunkSize n i seg st).
Proof.
  intros chunkSize n i seg done st Hi
    (groups & open & Hdone & Hcov & Hcur & Hstart & Hidx & Hdense & Hlong
     & Hclosed & Hshort).
  assert (Hfresh : (if JS.length (currentChunk st) =? 0 then seg_start seg
                    else chunkStartTime st)
                   = match open with
                     | [] => seg_start seg
                     | first :: _ => seg_start first
                     end).
  { destruct (Z.eqb_spec (JS.length (currentChunk st)) 0) as [E|E].
    - rewrite Hcur in E. apply lines_empty in E. subst open. reflexivity.
    - destruct open as [|first open]; [|exact Hstart].
      exfalso. apply E. rewrite Hcur. reflexivity. }
  assert (Hlines : currentChunk st ++ line seg
                   = List.concat (List.map line (open ++ [seg]))).
  { rewrite lines_snoc, Hcur. reflexivity. }
  unfold step.
  replace (i =? n - 1) with false by (symmetry; apply Z.eqb_neq; exact Hi).
  rewrite orb_false_r.
  destruct (endsWithTerminator (seg_text seg)
            && (chunkSize <=? JS.length (currentChunk st ++ line seg))
            || (2000 <=? JS.length (currentChunk st ++ line seg))) eqn:Hcut.
  - exists (groups ++ [open ++ [seg]]), [].
    cbn [chunks byteOffset chunkIndex currentChunk chunkStartTime].
    split; [rewrite concat_snoc, List.app_nil_r, Hdone, List.app_assoc;
            reflexivity|].
    split.
    { apply List.Forall2_app; [exact Hcov|]. constructor; [|constructor].
      apply covers_snoc; cbn [text start_time end_time keywords];
        [exact Hlines|exact Hfresh|reflexivity|reflexivity]. }
    split; [reflexivity|]. split; [exact I|].
    split; [rewrite List.length_app; simpl; lia|].
    split.
    { intros k c Hk. apply nth_error_snoc in Hk.
      destruct Hk as [Hk|[-> ->]]; [apply Hdense; exact Hk|].
      cbn [chunk_index]. exact Hidx. }
    split.
    { apply List.Forall_app. split; [exact Hlong|].
      constructor; [|constructor]. cbn [text].
      apply orb_true_iff in Hcut. destruct Hcut as [Hcut|Hcut].
      - apply andb_true_iff in Hcut. destruct Hcut as [_ Hcut].
        apply Z.leb_le in Hcut. lia.
      - apply Z.leb_le in Hcut. lia. }
    split.
    { apply List.Forall2_app; [exact Hclosed|].
      constructor; [|constructor]. exists open, seg.
      cbn [text]. split; [reflexivity|].
      rewrite <- Hcur. split; [reflexivity|exact Hshort]. }
    unfold JS.length. simpl. lia.
  - exists groups, (open ++ [seg]).
    cbn [chunks byteOffset chunkIndex currentChunk chunkStartTime].
    split; [rewrite Hdone, List.app_assoc; reflexivity|].
    split; [exact Hcov|]. split; [exact Hlines|].
    split.
    { rewrite Hfresh. destruct open; reflexivity. }
    split; [exact Hidx|]. split; [exact Hdense|].
    split; [exact Hlong|]. split; [exact Hclosed|].
    apply orb_false_iff in Hcut. destruct Hcut as [_ Hcut].
    apply Z.leb_gt in Hcut. exact Hcut.
Qed.

Lemma cover_last_step :
  forall (chunkSize n : Z) (seg : segment) (done : list segment) (st : state),
    invariant chunkSize done st ->
    exists (groups : list (list segment)) (c : chunk),
      done ++ [seg] = List.concat groups
      /\ List.Forall2 covers groups (chunks (step chunkSize n (n - 1) seg st))
      /\ chunks (step chunkSize n (n - 1) seg st) = chunks st ++ [c]
      /\ List.Forall2 closedInTime groups (chunks st ++ [c])
      /\ (forall k c', List.nth_error (chunks st ++ [c]) k = Some c' ->
                       chunk_index c' = Z.of_nat k)
      /\ List.Forall (fun c' => Z.min chunkSize 2000 <= JS.length (text c'))
                     (chunks st).
Proof.
  intros chunkSize n seg done st
    (groups & open & Hdone & Hcov & Hcur & Hstart & Hidx & Hdense & Hlong
     & Hclosed & Hshort).
  assert (Hfresh : (if JS.length (currentChunk st) =? 0 then seg_start seg
                    else chunkStartTime st)
                   = match open with
                     | [] => seg_start seg
                     | first :: _ => seg_start first
                     end).
  { destruct (Z.eqb_spec (JS.length (currentChunk st)) 0) as [E|E].
    - rewrite Hcur in E. apply lines_empty in E. subst open. reflexivity.
    - destruct open as [|first open]; [|exact Hstart].
      exfalso. apply E. rewrite Hcur. reflexivity. }
  assert (Hlines : currentChunk st ++ line seg
                   = List.concat (List.map line (open ++ [seg]))).
  { rewrite lines_snoc, Hcur. reflexivity. }
  unfold step. rewrite Z.eqb_refl, !orb_true_r.
  cbn [chunks].
  eexists (groups ++ [open ++ [seg]]), _.
  split; [rewrite concat_snoc, Hdone, List.app_assoc; reflexivity|].
  split.
  { apply List.Forall2_app; [exact Hcov|]. constructor; [|constructor].
    apply covers_snoc; cbn [text start_time end_time keywords];
      [exact Hlines|exact Hfresh|reflexivity|reflexivity]. }
  split; [reflexivity|].
  split.
  { apply List.Forall2_app; [exact Hclosed|].
    constructor; [|constructor]. exists open, seg.
    cbn [text]. split; [reflexivity|].
    rewrite <- Hcur. split; [reflexivity|exact Hshort]. }
  split.
  { intros k c Hk. apply nth_error_snoc in Hk.
    destruct Hk as [Hk|[-> ->]]; [apply Hdense; exact Hk|].
    cbn [chunk_index]. exact Hidx. }
  exact Hlong.
Qed.

Lemma cover_loop :
  forall (chunkSize n : Z) (segs : list segment) (i : Z) (done : list segment)
         (st : state),
    segs <> [] -> i + Z.of_nat (List.length segs) = n ->
    invariant chunkSize done st ->
    exists (groups : list (list segment)) (before : list chunk) (c : chunk),
      done ++ segs = List.concat groups
      /\ chunks (loop chunkSize n i segs st) = before ++ [c]
      /\ List.Forall2 covers groups (before ++ [c])
      /\ (forall k c', List.nth_error (before ++ [c]) k = Some c' ->
                       chunk_index c' = Z.of_nat k)
      /\ List.Forall (fun c' => Z.min chunkSize 2000 <= JS.length (text c'))
                     before
      /\ List.Forall2 closedInTime groups (before ++ [c]).
Proof.
  intros chunkSize n segs.
  induction segs as [|seg segs IH]; intros i done st Hne Hlen Hinv;
    [contradiction|].
  destruct segs as [|seg' segs].
  - simpl in Hlen. replace i with (n - 1) by lia. simpl loop.
    destruct (cover_last_step chunkSize n seg done st Hinv)
      as (groups & c & H1 & H2 & H3 & H4 & H5 & H6).
    exists groups, (chunks st), c. rewrite H3 in H2.
    split; [exact H1|]. split; [exact H3|]. split; [exact H2|].
    split; [exact H5|]. split; [exact H6|exact H4].
  - change (loop chunkSize n i (seg :: seg' :: segs) st)
      with (loop chunkSize n (i + 1) (seg' :: segs) (step chunkSize n i seg st)).
    destruct (IH (i + 1) (done ++ [seg]) (step chunkSize n i seg st))
      as (groups & before & c & H1 & H2); [discriminate| |
        apply cover_step; [|exact Hinv] |].
    + simpl List.length in *. lia.
    + simpl List.length in Hlen. lia.
    + exists groups, before, c. rewrite <- List.app_assoc in H1.
      split; [exact H1|exact H2].
Qed.

Lemma cover_init : forall chunkSize : Z, invariant chunkSize [] init.
Proof.
  intros chunkSize. exists [], []. simpl.
  repeat split; try constructor.
  intros k c Hk. destruct k; discriminate Hk.
Qed.

Lemma Forall2_nonempty_length :
  forall (groups : list (list segment)) (cs : list chunk),
    List.Forall2 covers groups cs ->
    (List.length cs <= List.length (List.concat groups))%nat.
Proof.
  intros groups cs H. induction H as [|g c groups cs Hg _ IH]; simpl; [lia|].
  rewrite List.length_app. destruct g as [|s g]; [contradiction|]. simpl. lia.
Qed.

(** [X1] The chunks of [createChunks] cut the transcript into consecutive,
    non-empty groups of segments, in order and without gap: the text of a
    chunk is the lines of its group, its [start_time] is the start of the
    group's first segment and its [end_time] the end of its last one, its
    keywords are extracted from its text, and the chunk at position [k] has
    [chunk_index = k].  In particular there are no more chunks than
    segments. *)
Theorem createChunks_covers_transcript :
  forall transcript : list segment,
    let cs := createChunks transcript in
    (exists groups : list (list segment),
        List.concat groups = transcript /\ List.Forall2 covers groups cs)
    /\ (forall k c, List.nth_error cs k = Some c -> chunk_index c = Z.of_nat k)
    /\ (List.length cs <= List.length transcript)%nat.
Proof.
  intros transcript cs.
  assert (H : exists groups : list (list segment),
             List.concat groups = transcript
             /\ List.Forall2 covers groups cs
             /\ (forall k c, List.nth_error cs k = Some c ->
                             chunk_index c = Z.of_nat k)).
  { destruct transcript as [|seg segs].
    - exists []. split; [reflexivity|]. split; [constructor|].
      intros k c Hk. destruct k; discriminate Hk.
    - destruct (cover_loop 1000 (Z.of_nat (List.length (seg :: segs)))
                  (seg :: segs) 0 [] init)
        as (groups & before & c & H1 & H2 & H3 & H4 & _);
        [discriminate|lia|apply cover_init|].
      assert (Hcs : cs = before ++ [c]) by exact H2.
      exists groups. rewrite Hcs.
      split; [symmetry; exact H1|]. split; [exact H3|exact H4]. }
  destruct H as (groups & H1 & H2 & H3).
  split; [exists groups; split; assumption|]. split; [exact H3|].
  rewrite <- H1. apply Forall2_nonempty_length. exact H2.
Qed.

Lemma Forall2_both :
  forall (A B : Type) (P Q : A -> B -> Prop) (l : list A) (l' : list B),
    List.Forall2 P l l' -> List.Forall2 Q l l' ->
    List.Forall2 (fun a b => P a b /\ Q a b) l l'.
Proof.
  intros A B P Q l l' HP. induction HP as [|a b l l' Hab _ IH]; intros HQ.
  - constructor.
  - inversion HQ as [|a' b' m m' Hq Hrest]; subst.
    constructor; [split; assumption|apply IH; exact Hrest].
Qed.

(** [X2] Lengths of the chunks of [createChunks], in UTF-16 code units: every
    chunk but the last one is at least 1000 long, and every chunk was closed
    in time: the lines of its group before the line of the group's last
    segment, which are what the chunk holds before its last line, are
    together shorter than 2000.  A transcript that is not empty gives at
    least one chunk. *)
Theorem createChunks_lengths :
  forall transcript : list segment,
    let cs := createChunks transcript in
    (forall k c, List.nth_error cs k = Some c -> (S k < List.length cs)%nat ->
                 1000 <= JS.length (text c))
    /\ (exists groups : list (list segment),
          List.concat groups = transcript
          /\ List.Forall2 (fun g c => covers g c /\ closedInTime g c) groups cs)
    /\ (cs = [] <-> transcript = []).
Proof.
  intros transcript cs.
  destruct transcript as [|seg segs].
  - split; [intros k c Hk; destruct k; discriminate Hk|].
    split; [exists []; split; [reflexivity|constructor]|]. split; reflexivity.
  - destruct (cover_loop 1000 (Z.of_nat (List.length (seg :: segs)))
                (seg :: segs) 0 [] init)
      as (groups & before & c & H1 & H2 & H3 & _ & H5 & H6);
      [discriminate|lia|apply cover_init|].
    assert (Hcs : cs = before ++ [c]) by exact H2.
    rewrite Hcs. split; [|split].
    + intros k c' Hk Hlt. rewrite List.length_app in Hlt. simpl in Hlt.
      rewrite List.nth_error_app1 in Hk by lia.
      apply List.nth_error_In in Hk.
      rewrite List.Forall_forall in H5. apply H5 in Hk. lia.
    + exists groups. split; [symmetry; exact H1|].
      apply Forall2_both; assumption.
    + split; intros H; [destruct before; discriminate H|discriminate H].
Qed.

Lemma createChunks_texts :
  forall transcript : list segment,
    List.Forall (fun c => text c <> []) (createChunks transcript).
Proof.
  intros [|seg segs]; [constructor|].
  destruct (cover_loop 1000 (Z.of_nat (List.length (seg :: segs)))
              (seg :: segs) 0 [] init)
    as (groups & before & c & _ & H2 & H3 & _);
    [discriminate|lia|apply cover_init|].
  unfold createChunks, createChunksWith. rewrite H2.
  clear H2. induction H3 as [|g c' gs cs' Hg _ IH]; constructor; [|exact IH].
  destruct g as [|first g]; [contradiction|].
  destruct Hg as (Ht & _). rewrite Ht. intros Hnil.
  change (line first ++ List.concat (List.map line g) = []) in Hnil.
  apply List.app_eq_nil in Hnil. destruct Hnil as [Hline _].
  pose proof (line_length_pos first) as Hl. rewrite Hline in Hl.
  unfold JS.length in Hl. simpl in Hl. lia.
Qed.

End ChunkerCoverage.

(** ** Keywords *)

Section KeywordShapes.
Import JS KeywordShape.

Lemma lowerUnit_not_capital :
  forall c c' : N, List.In c' (lowerUnit c) -> in_range 65 90 c' = false.
Proof.
  intros c c' H. unfold lowerUnit in H.
  destruct (in_range 65 90 c) eqn:E1.
  - destruct H as [<-|[]]. unfold in_range in *.
    apply andb_true_iff in E1. destruct E1 as [H1 H2].
    apply N.leb_le in H1, H2. apply andb_false_iff. right.
    apply N.leb_gt. lia.
  - destruct (c =? 8490)%N; [destruct H as [<-|[]]; reflexivity|].
    destruct (c =? 304)%N;
      [destruct H as [<-|[<-|[]]]; reflexivity|].
    destruct H as [<-|[]]. exact E1.
Qed.

Lemma replaceNonWord_chars :
  forall (s : jsstring) (c : N),
    List.In c (replaceNonWord s) ->
    isWhiteSpace c = true
    \/ (isWordChar c = true /\ List.In c s).
Proof.
  intros s c H. unfold replaceNonWord in H. apply List.in_map_iff in H.
  destruct H as (x & Hx & Hin).
  destruct (isWordChar x) eqn:Ew; simpl in Hx.
  - subst c. right. split; assumption.
  - destruct (isWhiteSpace x) eqn:Es; subst c; left; [exact Es|reflexivity].
Qed.

Lemma split_go_pieces :
  forall (s cur : jsstring) (inSep : bool) (w : jsstring) (c : N),
    List.In w (split_go s cur inSep) -> List.In c w ->
    isWhiteSpace c = false /\ (List.In c s \/ List.In c cur) \/ List.In c cur.
Proof.
  induction s as [|x s IH]; intros cur inSep w c Hw Hc; simpl in Hw.
  - destruct Hw as [<-|[]]. right. apply List.in_rev. exact Hc.
  - destruct (isWhiteSpace x) eqn:Ex.
    + destruct inSep.
      * destruct (IH [] true w c Hw Hc) as [[H1 [H2|[]]]|[]].
        left. split; [exact H1|left; right; exact H2].
      * destruct Hw as [<-|Hw]; [right; apply List.in_rev; exact Hc|].
        destruct (IH [] true w c Hw Hc) as [[H1 [H2|[]]]|[]].
        left. split; [exact H1|left; right; exact H2].
    + destruct (IH (x :: cur) false w c Hw Hc) as [[H1 [H2|H2]]|H2].
      * left. split; [exact H1|left; right; exact H2].
      * destruct H2 as [<-|H2]; [left; split; [exact Ex|left; left; reflexivity]|].
        right. exact H2.
      * destruct H2 as [<-|H2]; [left; split; [exact Ex|left; left; reflexivity]|].
        right. exact H2.
Qed.

Lemma token_chars :
  forall (text w : jsstring),
    List.In w (splitWhitespace (replaceNonWord (toLowerCase text))) ->
    List.Forall (fun c => isKeywordChar c = true) w.
Proof.
  intros text w Hw. apply List.Forall_forall. intros c Hc.
  unfold splitWhitespace in Hw.
  destruct (split_go_pieces _ [] false w c Hw Hc) as [[Hns [Hin|[]]]|[]].
  apply replaceNonWord_chars in Hin.
  destruct Hin as [Hs|[Hword Hin]]; [congruence|].
  unfold toLowerCase in Hin. apply List.in_flat_map in Hin.
  destruct Hin as (x & _ & Hx). apply lowerUnit_not_capital in Hx.
  unfold isWordChar in Hword. unfold isKeywordChar.
  rewrite Hx in Hword. exact Hword.
Qed.

Lemma NoDup_uniqueFrom :
  forall (ws seen : list jsstring), List.NoDup (uniqueFrom seen ws).
Proof.
  induction ws as [|w ws IH]; intros seen; simpl; [constructor|].
  destruct (setHas seen w); [apply IH|].
  constructor; [|apply IH].
  intros Hin. apply In_uniqueFrom in Hin. destruct Hin as [_ Hnot].
  apply Hnot. left. reflexivity.
Qed.

Lemma NoDup_firstn :
  forall (A : Type) (n : nat) (l : list A),
    List.NoDup l -> List.NoDup (List.firstn n l).
Proof.
  intros A n l H. rewrite <- (List.firstn_skipn n l) in H.
  apply List.NoDup_app_remove_r in H. exact H.
Qed.

(** [X3] What the two keyword extractors return.  On the chunk side: at most
    ten keywords, no keyword twice, each longer than three characters, none
    of the chunk-side stop words, and made of small letters, digits and
    underscores only.  On the query side: no keyword twice, each longer than
    two characters, none of the query-side stop words, made of the same
    characters. *)
Theorem extractKeywords_shape :
  forall text : jsstring,
    ((List.length (VideoProcessor.extractKeywords text) <= 10)%nat
     /\ List.NoDup (VideoProcessor.extractKeywords text)
     /\ List.Forall
          (fun w => 3 < JS.length w
                    /\ ~ List.In w VideoProcessor.stopWords
                    /\ List.Forall (fun c => isKeywordChar c = true) w)
          (VideoProcessor.extractKeywords text))
    /\ (List.NoDup (RagSearch.extractKeywords text)
        /\ List.Forall
             (fun w => 2 < JS.length w
                       /\ ~ List.In w RagSearch.stopWords
                       /\ List.Forall (fun c => isKeywordChar c = true) w)
             (RagSearch.extractKeywords text)).
Proof.
  intros text. split.
  - unfold VideoProcessor.extractKeywords.
    split; [apply List.firstn_le_length|].
    split; [apply NoDup_firstn, NoDup_uniqueFrom|].
    apply List.Forall_forall. intros w Hw.
    apply firstn_In in Hw. apply (proj1 (In_unique _ _)) in Hw.
    apply List.filter_In in Hw. destruct Hw as [Htok Hp].
    apply andb_true_iff in Hp. destruct Hp as [Hlen Hstop].
    split; [apply Z.ltb_lt; exact Hlen|]. split; [|apply (token_chars text); exact Htok].
    intros Hin. apply setHas_In in Hin. rewrite Hin in Hstop. discriminate Hstop.
  - unfold RagSearch.extractKeywords.
    split; [apply NoDup_uniqueFrom|].
    apply List.Forall_forall. intros w Hw.
    apply (proj1 (In_unique _ _)) in Hw.
    apply List.filter_In in Hw. destruct Hw as [Htok Hp].
    apply andb_true_iff in Hp. destruct Hp as [Hlen Hstop].
    split; [apply Z.ltb_lt; exact Hlen|]. split; [|apply (token_chars text); exact Htok].
    intros Hin. apply setHas_In in Hin. rewrite Hin in Hstop. discriminate Hstop.
Qed.

End KeywordShapes.

(** ** Fetching the transcript *)

Section TranscriptFetch.
Import Transcript.

(** [X4] [downloadWithRetry] makes between one and three calls and returns
    or throws what its last call did.  It goes on to a next call only after
    a call that was rate limited, pausing 5000 ms after the first call and
    10000 ms after the second; any other error, and the error of the third
    call, is thrown at once. *)
Theorem downloadWithRetry_calls :
  forall provider : nat -> attempt,
    let r := downloadWithRetry provider in
    (1 <= calls r <= 3)%nat
    /\ outcome r = provider (calls r - 1)%nat
    /\ waits r = List.firstn (calls r - 1) [5000; 10000]
    /\ (forall k, (k < calls r - 1)%nat ->
          exists e, provider k = Thrown e /\ isRateLimited e = true)
    /\ ((calls r < 3)%nat ->
          forall e, provider (calls r - 1)%nat = Thrown e ->
                    isRateLimited e = false).
Proof.
  intros provider r. unfold r, downloadWithRetry. simpl.
  destruct (provider 0%nat) as [t0|e0] eqn:E0; simpl.
  - rewrite E0. repeat split; try lia. intros _ e H. discriminate H.
  - destruct (isRateLimited e0) eqn:R0; simpl.
    + destruct (provider 1%nat) as [t1|e1] eqn:E1; simpl.
      * rewrite E1. repeat split; try lia.
        -- intros k Hk. assert (k = 0%nat) by lia. subst k.
           exists e0. rewrite E0. split; [reflexivity|exact R0].
        -- intros _ e H. discriminate H.
      * destruct (isRateLimited e1) eqn:R1; simpl.
        -- destruct (provider 2%nat) as [t2|e2] eqn:E2; simpl.
           ++ rewrite E2. repeat split; try lia.
              intros k Hk. destruct k as [|[|k]]; [| |lia].
              ** exists e0. rewrite E0. split; [reflexivity|exact R0].
              ** exists e1. rewrite E1. split; [reflexivity|exact R1].
           ++ rewrite andb_false_r. simpl. rewrite E2. repeat split; try lia.
              intros k Hk. destruct k as [|[|k]]; [| |lia].
              ** exists e0. rewrite E0. split; [reflexivity|exact R0].
              ** exists e1. rewrite E1. split; [reflexivity|exact R1].
        -- rewrite E1. repeat split; try lia.
           ++ intros k Hk. assert (k = 0%nat) by lia. subst k.
              exists e0. rewrite E0. split; [reflexivity|exact R0].
           ++ intros _ e H. injection H as <-. exact R1.
    + rewrite E0. repeat split; try lia. intros _ e H. injection H as <-. exact R0.
Qed.

Lemma downloadWithRetry_calls_witness :
  calls (downloadWithRetry
           (fun k => if (k <? 2)%nat
                     then Thrown {| message := Some "Request failed with status code 429"%string;
                                    status := Some 429; code := None |}
                     else Returned (Some Examples.rawTranscript))) = 3%nat
  /\ waits (downloadWithRetry
           (fun k => if (k <? 2)%nat
                     then Thrown {| message := Some "Request failed with status code 429"%string;
                                    status := Some 429; code := None |}
                     else Returned (Some Examples.rawTranscript))) = [5000; 10000].
Proof.
  pose proof (downloadWithRetry_calls
    (fun k => if (k <? 2)%nat
              then Thrown {| message := Some "Request failed with status code 429"%string;
                             status := Some 429; code := None |}
              else Returned (Some Examples.rawTranscript))) as H.
  destruct H as (_ & _ & Hw & _).
  split; [vm_compute; reflexivity|]. rewrite Hw. vm_compute. reflexivity.
Defined.

End TranscriptFetch.

(** ** Embedding the chunks *)

Section EmbeddingBatches.
Import VideoProcessor Embeddings.

Lemma withVectors_split :
  forall (api : nat -> option (list Q)) (k : nat) (l : list chunk) (i : nat),
    withVectors api i l
    = withVectors api i (List.firstn k l)
      ++ withVectors api (i + k) (List.skipn k l).
Proof.
  intros api k. induction k as [|k IH]; intros l i.
  - simpl. rewrite Nat.add_0_r. reflexivity.
  - destruct l as [|x l]; [reflexivity|].
    unfold withVectors in *. simpl. f_equal.
    rewrite (IH l (S i)). replace (S i + k)%nat with (i + S k)%nat by lia.
    reflexivity.
Qed.

Lemma batchLoop_vectors :
  forall (api : nat -> option (list Q)) (chunks : list chunk) (fuel i : nat)
         (acc : list embeddedChunk) (pauses : nat),
    (List.length chunks <= i + 10 * fuel)%nat ->
    fst (batchLoop api fuel i chunks acc pauses)
    = acc ++ withVectors api i (List.skipn i chunks).
Proof.
  intros api chunks fuel.
  induction fuel as [|fuel IH]; intros i acc pauses Hfuel.
  - simpl. rewrite List.skipn_all2 by lia. rewrite List.app_nil_r. reflexivity.
  - simpl. destruct (Nat.ltb_spec i (List.length chunks)) as [Hlt|Hge].
    + rewrite IH by lia. rewrite <- List.app_assoc. f_equal.
      rewrite (withVectors_split api 10 (List.skipn i chunks) i).
      rewrite List.skipn_skipn. replace (10 + i)%nat with (i + 10)%nat by lia.
      reflexivity.
    + simpl. rewrite List.skipn_all2 by lia. rewrite List.app_nil_r.
      reflexivity.
Qed.

Lemma batchLoop_pauses :
  forall (api : nat -> option (list Q)) (chunks : list chunk) (fuel i : nat)
         (acc : list embeddedChunk) (pauses : nat),
    (List.length chunks <= i + 10 * fuel)%nat ->
    snd (batchLoop api fuel i chunks acc pauses)
    = (pauses + (List.length chunks - i - 1) / 10)%nat.
Proof.
  intros api chunks fuel.
  induction fuel as [|fuel IH]; intros i acc pauses Hfuel.
  - simpl. replace (List.length chunks - i - 1)%nat with 0%nat by lia.
    simpl. lia.
  - cbn [batchLoop]. destruct (Nat.ltb_spec i (List.length chunks)) as [Hlt|Hge].
    + rewrite IH by lia.
      destruct (Nat.ltb_spec (i + 10) (List.length chunks)) as [Hmore|Hlast].
      * assert (E : ((List.length chunks - i - 1) / 10
                     = S ((List.length chunks - (i + 10) - 1) / 10))%nat).
        { replace (List.length chunks - i - 1)%nat
            with ((List.length chunks - (i + 10) - 1) + 1 * 10)%nat by lia.
          rewrite Nat.div_add by lia. lia. }
        rewrite E. lia.
      * assert (E1 : ((List.length chunks - (i + 10) - 1) / 10 = 0)%nat)
          by (apply Nat.div_small; lia).
        assert (E2 : ((List.length chunks - i - 1) / 10 = 0)%nat)
          by (apply Nat.div_small; lia).
        rewrite E1, E2. lia.
    + cbn [snd]. replace (List.length chunks - i - 1)%nat with 0%nat by lia.
      simpl. lia.
Qed.

Lemma withVectors_base :
  forall (api : nat -> option (list Q)) (l : list chunk) (i : nat),
    List.map base (withVectors api i l) = l.
Proof.
  intros api l. unfold withVectors.
  induction l as [|c l IH]; intros i; [reflexivity|].
  simpl. f_equal. apply IH.
Qed.

Lemma generateEmbeddings_vectors :
  forall (api : nat -> option (list Q)) (chunks : list chunk),
    fst (generateEmbeddings api chunks) = withVectors api 0 chunks.
Proof.
  intros api chunks. unfold generateEmbeddings.
  rewrite batchLoop_vectors by lia. reflexivity.
Qed.

(** [X5] [generateEmbeddings] returns every chunk, unchanged and in order,
    each with the vector the provider gave for it or with [null] when that
    call failed; no chunk is dropped.  For [n] chunks it pauses
    [(n - 1) / 10] times (one second between two batches of ten). *)
Theorem generateEmbeddings_keeps_chunks :
  forall (api : nat -> option (list Q)) (chunks : list chunk),
    let out := fst (generateEmbeddings api chunks) in
    out = withVectors api 0 chunks
    /\ List.map base out = chunks
    /\ (forall k e, List.nth_error out k = Some e -> embedding e = api k)
    /\ snd (generateEmbeddings api chunks)
       = ((List.length chunks - 1) / 10)%nat.
Proof.
  intros api chunks out.
  assert (Hout : out = withVectors api 0 chunks).
  { unfold out, generateEmbeddings. rewrite batchLoop_vectors by lia.
    reflexivity. }
  split; [exact Hout|]. split; [|split].
  - rewrite Hout. unfold withVectors. rewrite List.map_map. simpl.
    clear. generalize 0%nat. induction chunks as [|c l IH]; intros i;
      [reflexivity|]. simpl. f_equal. apply IH.
  - rewrite Hout. unfold withVectors. clear. intros k e.
    rewrite List.nth_error_map.
    destruct (List.nth_error (List.combine (List.seq 0 (List.length chunks)) chunks) k)
      as [[j c]|] eqn:E; [|discriminate].
    simpl. intros H. injection H as <-. simpl.
    assert (Hj : List.nth_error (List.seq 0 (List.length chunks)) k = Some j).
    { revert E. generalize (List.seq 0 (List.length chunks)). intros s.
      revert k chunks. induction s as [|x s IH]; intros k l E.
      - destruct k; discriminate E.
      - destruct l as [|y l]; [destruct k; discriminate E|].
        destruct k as [|k]; simpl in *.
        + injection E as -> _. reflexivity.
        + apply (IH k l E). }
    assert (Hk : (k < List.length (List.seq 0 (List.length chunks)))%nat).
    { apply List.nth_error_Some. rewrite Hj. discriminate. }
    rewrite List.length_seq in Hk.
    rewrite List.nth_error_nth' with (d := 0%nat) in Hj
      by (rewrite List.length_seq; exact Hk).
    rewrite List.seq_nth in Hj by exact Hk. injection Hj as <-. reflexivity.
  - unfold generateEmbeddings. rewrite batchLoop_pauses by lia.
    rewrite Nat.sub_0_r. reflexivity.
Qed.

End EmbeddingBatches.

(** ** The lock service: acquiring, releasing, sweeping *)

Section LockProtocol.
Import LockService LockSweep.

Lemma filter_held_unique :
  forall (t : list lockRow) (row : lockRow),
    List.NoDup (List.map resource_id t) -> List.In row t ->
    List.filter (held (resource_id row)) t = [row].
Proof.
  induction t as [|x t IH]; intros row Hnd Hin; [contradiction|].
  simpl in Hnd. inversion Hnd as [|y ys Hnot Hrest]; subst.
  simpl. destruct Hin as [->|Hin].
  - unfold held at 1. rewrite String.eqb_refl. f_equal.
    apply filter_none. intros z Hz. unfold held. apply String.eqb_neq.
    intros E. apply Hnot. rewrite <- E. apply List.in_map. exact Hz.
  - assert (Hx : held (resource_id row) x = false).
    { unfold held. apply String.eqb_neq. intros E. apply Hnot. rewrite E.
      apply List.in_map. exact Hin. }
    rewrite Hx. apply IH; assumption.
Qed.

Lemma selectSingle_unique :
  forall (t : list lockRow) (row : lockRow),
    List.NoDup (List.map resource_id t) -> List.In row t ->
    selectSingle (resource_id row) t = Some row.
Proof.
  intros t row Hnd Hin. unfold selectSingle.
  rewrite filter_held_unique by assumption. reflexivity.
Qed.

Lemma selectSingle_absent :
  forall (r : string) (t : list lockRow),
    (forall x, List.In x t -> resource_id x <> r) -> selectSingle r t = None.
Proof.
  intros r t H. unfold selectSingle. rewrite filter_none; [reflexivity|].
  intros x Hx. unfold held. apply String.eqb_neq. apply H. exact Hx.
Qed.

Lemma acquire_live_row :
  forall (samples : list (Z * string)) (storeFails : bool) (ttl : Z)
         (inst : instance) (t : list lockRow) (row : lockRow),
    List.NoDup (List.map resource_id t) -> List.In row t ->
    (forall now random, List.In (now, random) samples -> now <= expires_at row) ->
    acquire samples storeFails (resource_id row) ttl inst t = (inst, t, None).
Proof.
  intros samples storeFails ttl inst t row Hnd Hin Hlive.
  destruct samples as [|[now random] later]; [reflexivity|].
  simpl. destruct storeFails; [reflexivity|].
  assert (Hheld : List.existsb (held (resource_id row)) t = true).
  { apply List.existsb_exists. exists row. split; [exact Hin|].
    unfold held. apply String.eqb_refl. }
  rewrite Hheld. unfold checkAndCleanExpiredLock.
  rewrite selectSingle_unique by assumption.
  assert (Hnow : (expires_at row <? now) = false).
  { apply Z.ltb_ge. apply (Hlive now random). left. reflexivity. }
  rewrite Hnow. reflexivity.
Qed.

(** [X6] Mutual exclusion: while the table holds a row for the resource
    that has not run out at the time of the attempt, [acquire] returns
    [null] and changes neither the table nor the maps of the instance;
    the row and its holder are left alone. *)
Theorem acquire_blocked_by_live_lock :
  forall (samples : list (Z * string)) (storeFails : bool) (ttl : Z)
         (inst : instance) (t : list lockRow) (row : lockRow),
    List.NoDup (List.map resource_id t) -> List.In row t ->
    (forall now random, List.In (now, random) samples -> now <= expires_at row) ->
    acquire samples storeFails (resource_id row) ttl inst t = (inst, t, None).
Proof.
  exact acquire_live_row.
Qed.

Lemma acquire_blocked_by_live_lock_witness :
  LockService.acquire [(2000, "0.5"%string)] false "video-X" 600
    LockService.empty Examples.tableA
  = (LockService.empty, Examples.tableA, None).
Proof.
  apply (acquire_blocked_by_live_lock [(2000, "0.5"%string)] false 600
           LockService.empty Examples.tableA
           {| resource_id := "video-X"; lock_id := "video-X-1000-0.25";
              expires_at := 601000; created_at := 1000 |}).
  - vm_compute. constructor; [intros []|constructor].
  - vm_compute. left. reflexivity.
  - intros now random [H|[]]. injection H as <- _. vm_compute. discriminate.
Defined.

(** [X7] Acquire and release are inverse on a free resource: when the table
    has no row for [r], [acquire] (the store answering) returns the lease
    made of the resource, the time and the random number, [isLocked(r)] is
    then true until the lease runs out, and a [release(r)] by the same
    instance gives back the table as it was and forgets the lease. *)
Theorem acquire_then_release :
  forall (now : Z) (random : string) (later : list (Z * string)) (r : string)
         (ttl : Z) (inst : instance) (t : list lockRow),
    (forall x, List.In x t -> resource_id x <> r) ->
    let '(inst1, t1, lease) :=
      acquire ((now, random) :: later) false r ttl inst t in
    lease = Some (r ++ "-" ++ showZ now ++ "-" ++ random)%string
    /\ locks inst1 !! r = lease
    /\ (forall now', isLocked r now' t = false)
    /\ (forall now', isLocked r now' t1 = (now' <? now + ttl * 1000))
    /\ let '(inst2, t2, ok) := release false r inst1 t1 in
       ok = true /\ t2 = t /\ locks inst2 !! r = None.
Proof.
  intros now random later r ttl inst t Hfree. simpl.
  rewrite (existsb_held_absent r t Hfree).
  split; [reflexivity|]. split; [apply lookup_insert_eq|].
  split; [intros now'; unfold isLocked; rewrite selectSingle_absent by exact Hfree;
          reflexivity|].
  split.
  { intros now'. unfold isLocked.
    rewrite selectSingle_last; [reflexivity|exact Hfree|reflexivity]. }
  unfold release. cbn [locks lockTimers]. rewrite lookup_insert_eq.
  rewrite lockId_not_empty.
  split; [reflexivity|]. split; [|apply lookup_delete_eq].
  unfold deleteRow. rewrite List.filter_app. simpl.
  unfold isRow at 2. cbn [resource_id lock_id]. rewrite !String.eqb_refl. simpl.
  rewrite List.app_nil_r. apply filter_all_true.
  intros x Hx. apply negb_true_iff. unfold isRow. apply andb_false_iff. left.
  apply String.eqb_neq. apply Hfree. exact Hx.
Qed.

Lemma acquire_then_release_witness :
  snd (fst (release false "video-X" Examples.holderA Examples.tableA)) = [].
Proof.
  pose proof (acquire_then_release 1000 "0.25" [] "video-X" 600
                LockService.empty [] (fun x H => match H with end)) as H.
  change (acquire [(1000, "0.25"%string)] false "video-X" 600 LockService.empty [])
    with Examples.firstAcquire in H.
  destruct Examples.firstAcquire as [[inst1 t1] lease] eqn:E.
  destruct H as (_ & _ & _ & _ & H).
  assert (E1 : Examples.holderA = inst1)
    by (unfold Examples.holderA; rewrite E; reflexivity).
  assert (E2 : Examples.tableA = t1)
    by (unfold Examples.tableA; rewrite E; reflexivity).
  rewrite E1, E2.
  destruct (release false "video-X" inst1 t1) as [[inst2 t2] ok].
  destruct H as (_ & H & _). exact H.
Defined.

Lemma acquire_keeps_unique :
  forall (samples : list (Z * string)) (storeFails : bool) (r : string)
         (ttl : Z) (inst : instance) (t : list lockRow),
    List.NoDup (List.map resource_id t) ->
    List.NoDup (List.map resource_id
                  (snd (fst (acquire samples storeFails r ttl inst t)))).
Proof.
  induction samples as [|[now random] later IH];
    intros storeFails r ttl inst t Hnd; simpl; [exact Hnd|].
  destruct storeFails; [exact Hnd|].
  destruct (List.existsb (held r) t) eqn:Hheld.
  - unfold checkAndCleanExpiredLock.
    destruct (selectSingle r t) as [existing|]; [|exact Hnd].
    destruct (expires_at existing <? now); [|exact Hnd].
    apply IH. unfold deleteRow. apply NoDup_map_filter. exact Hnd.
  - simpl. rewrite List.map_app. simpl.
    apply List.NoDup_app; [exact Hnd|repeat constructor; tauto|].
    intros k Hk [<-|[]]. apply List.in_map_iff in Hk.
    destruct Hk as (x & Hx & Hin).
    apply (held_false_all _ t Hheld x Hin Hx).
Qed.

(** [X8] A lease that has run out is taken over, and the table never holds
    two rows for one resource.  Every [acquire] keeps the resources of the
    table distinct; and when the only row of [r] ran out before the first
    attempt, [acquire] removes it and, on its second attempt, stores and
    returns a new lease made with the second time and random number. *)
Theorem acquire_takes_over_expired :
  (forall (samples : list (Z * string)) (storeFails : bool) (r : string)
          (ttl : Z) (inst : instance) (t : list lockRow),
      List.NoDup (List.map resource_id t) ->
      List.NoDup (List.map resource_id
                    (snd (fst (acquire samples storeFails r ttl inst t)))))
  /\ (forall (now1 now2 : Z) (random1 random2 : string)
             (later : list (Z * string)) (ttl : Z) (inst : instance)
             (t : list lockRow) (row : lockRow),
        List.NoDup (List.map resource_id t) -> List.In row t ->
        expires_at row < now1 ->
        let r := resource_id row in
        let lease := (r ++ "-" ++ showZ now2 ++ "-" ++ random2)%string in
        acquire ((now1, random1) :: (now2, random2) :: later) false r ttl inst t
        = ({| locks := <[r := lease]> (locks inst);
              lockTimers := <[r := now2 + (ttl - 10) * 1000]> (lockTimers inst) |},
           List.filter (fun x => negb (String.eqb (resource_id x) r)) t
           ++ [ {| resource_id := r; lock_id := lease;
                   expires_at := now2 + ttl * 1000; created_at := now2 |} ],
           Some lease)).
Proof.
  split; [exact acquire_keeps_unique|].
  intros now1 now2 random1 random2 later ttl inst t row Hnd Hin Hexp.
  cbv zeta. set (r := resource_id row).
  assert (Hheld : List.existsb (held r) t = true).
  { apply List.existsb_exists. exists row. split; [exact Hin|].
    unfold held. apply String.eqb_refl. }
  assert (Hdel : deleteRow r (lock_id row) t
                 = List.filter (fun x => negb (String.eqb (resource_id x) r)) t).
  { unfold deleteRow. apply List.filter_ext_in. intros x Hx. f_equal.
    unfold isRow. destruct (String.eqb_spec (resource_id x) r) as [E|E];
      [|reflexivity].
    simpl. apply String.eqb_eq.
    assert (x = row); [|subst; reflexivity].
    pose proof (filter_held_unique t row Hnd Hin) as Hu.
    assert (Hxin : List.In x (List.filter (held (resource_id row)) t)).
    { apply List.filter_In. split; [exact Hx|]. unfold held.
      apply String.eqb_eq. exact E. }
    rewrite Hu in Hxin. destruct Hxin as [<-|[]]. reflexivity. }
  cbn [acquire]. rewrite Hheld. unfold checkAndCleanExpiredLock.
  replace (selectSingle r t) with (Some row)
    by (symmetry; apply selectSingle_unique; assumption).
  replace (expires_at row <? now1) with true
    by (symmetry; apply Z.ltb_lt; exact Hexp).
  rewrite Hdel.
  assert (Hfree : List.existsb (held r)
            (List.filter (fun x => negb (String.eqb (resource_id x) r)) t) = false).
  { apply existsb_held_absent. intros x Hx. apply List.filter_In in Hx.
    destruct Hx as [_ Hx]. apply negb_true_iff in Hx.
    apply String.eqb_neq. exact Hx. }
  rewrite Hfree. reflexivity.
Qed.

Lemma acquire_takes_over_expired_witness :
  Examples.tableB
  = [ {| resource_id := "video-X"; lock_id := "video-X-700001-0.75";
         expires_at := 1300001; created_at := 700001 |} ].
Proof.
  destruct acquire_takes_over_expired as [_ H].
  pose proof (H 700000 700001 "0.5"%string "0.75"%string [] 600
                LockService.empty Examples.tableA
                {| resource_id := "video-X"; lock_id := "video-X-1000-0.25";
                   expires_at := 601000; created_at := 1000 |}) as H1.
  unfold Examples.tableB, Examples.secondAcquire.
  cbv zeta in H1. cbn [resource_id] in H1. rewrite H1.
  - vm_compute. reflexivity.
  - vm_compute. constructor; [intros []|constructor].
  - vm_compute. left. reflexivity.
  - vm_compute. reflexivity.
Defined.

Lemma filter_held_cases :
  forall (r : string) (t : list lockRow),
    List.NoDup (List.map resource_id t) ->
    List.filter (held r) t = []
    \/ exists row, List.In row t /\ resource_id row = r
                   /\ List.filter (held r) t = [row].
Proof.
  intros r t Hnd.
  destruct (List.filter (held r) t) as [|row rest] eqn:E; [left; reflexivity|].
  right. assert (Hin : List.In row (List.filter (held r) t))
    by (rewrite E; left; reflexivity).
  apply List.filter_In in Hin. destruct Hin as [Hin Hh].
  unfold held in Hh. apply String.eqb_eq in Hh.
  exists row. split; [exact Hin|]. split; [exact Hh|].
  rewrite <- E, <- Hh. apply filter_held_unique; assumption.
Qed.

Lemma filter_swap :
  forall (A : Type) (p q : A -> bool) (l : list A),
    List.filter p (List.filter q l) = List.filter q (List.filter p l).
Proof.
  intros A p q l. induction l as [|x l IH]; simpl; [reflexivity|].
  destruct (p x) eqn:Ep, (q x) eqn:Eq; simpl; rewrite ?Ep, ?Eq, IH; reflexivity.
Qed.

(** [X9] The sweep is invisible to [isLocked]: with one row per resource,
    [cleanupExpiredLocks] at time [now] keeps every row that has not run
    out, removes the others, and [isLocked(r)] answers the same before and
    after it, at [now] and at any later time. *)
Theorem cleanupExpiredLocks_keeps_live :
  forall (now : Z) (t : list lockRow),
    List.NoDup (List.map resource_id t) ->
    (forall row, List.In row (cleanupExpiredLocks now t)
                 <-> List.In row t /\ now <= expires_at row)
    /\ List.NoDup (List.map resource_id (cleanupExpiredLocks now t))
    /\ (forall r now', now <= now' ->
          isLocked r now' (cleanupExpiredLocks now t) = isLocked r now' t).
Proof.
  intros now t Hnd. split; [|split].
  - intros row. unfold cleanupExpiredLocks. rewrite List.filter_In.
    rewrite negb_true_iff, Z.ltb_ge. reflexivity.
  - apply NoDup_map_filter. exact Hnd.
  - intros r now' Hlater. unfold isLocked, selectSingle, cleanupExpiredLocks.
    rewrite filter_swap.
    destruct (filter_held_cases r t Hnd) as [E|(row & _ & _ & E)]; rewrite E;
      [reflexivity|].
    simpl. destruct (Z.ltb_spec (expires_at row) now) as [Hexp|Hlive]; simpl.
    + symmetry. apply Z.ltb_ge. lia.
    + reflexivity.
Qed.

Lemma cleanupExpiredLocks_keeps_live_witness :
  isLocked "video-X" 800000 (cleanupExpiredLocks 700000 Examples.tableA)
  = isLocked "video-X" 800000 Examples.tableA.
Proof.
  destruct (cleanupExpiredLocks_keeps_live 700000 Examples.tableA) as (_ & _ & H).
  - vm_compute. constructor; [intros []|constructor].
  - apply H. lia.
Defined.

End LockProtocol.

(* ------------------------------------------------------------------ *)
(** ** [processVideo]: the lock, the steps and the update of the row *)

Section PipelineRuns.
Import JS VideoProcessor LockService LockSweep Pipeline.

Lemma world_eta :
  forall w : world,
    {| lockTable := lockTable w; lockInstance := lockInstance w; db := db w;
       storage := storage w; updates := updates w |} = w.
Proof.
  intros [t i d s u]. reflexivity.
Qed.

(** [X10] A video another run is working on is skipped: when the lock
    table holds a row for [video-<id>] that has not run out, [processVideo]
    returns [false] and leaves everything as it was: no transcript is
    fetched or stored, no chunk row is deleted or inserted, the row of the
    video is not updated and the other run's lock is untouched. *)
Theorem processVideo_skips_locked_video :
  forall (env : environment) (videoId : string) (w : world) (row : lockRow),
    List.NoDup (List.map resource_id (lockTable w)) ->
    List.In row (lockTable w) ->
    resource_id row = videoResource videoId ->
    (forall now random, List.In (now, random) (samples env) ->
                        now <= expires_at row) ->
    processVideo env videoId w = (false, w).
Proof.
  intros env videoId w row Hnd Hin Hres Hlive.
  unfold processVideo. rewrite <- Hres.
  rewrite (acquire_live_row _ _ _ _ _ row Hnd Hin Hlive).
  rewrite world_eta. reflexivity.
Qed.

Lemma processVideo_skips_locked_video_witness :
  processVideo PipelineExamples.quietRun "X" PipelineExamples.busy
  = (false, PipelineExamples.busy).
Proof.
  apply (processVideo_skips_locked_video PipelineExamples.quietRun "X"
           PipelineExamples.busy
           {| resource_id := "video-X"; lock_id := "video-X-1000-0.25";
              expires_at := 601000; created_at := 1000 |}).
  - vm_compute. constructor; [intros []|constructor].
  - vm_compute. left. reflexivity.
  - reflexivity.
  - intros now random [H|[]]. injection H as <- _. vm_compute. discriminate.
Defined.

(** [X11] The lock is given back whatever happens in between: when the
    resource is free, the lock store answers and the release succeeds,
    [processVideo] leaves the lock table as it found it and the instance
    without a lease or a timer for the video, and it sends exactly one
    update of the video's row: the one marking it processed when it returns
    [true], the one recording the error when it returns [false]. *)
Theorem processVideo_releases_lock :
  forall (env : environment) (videoId : string) (w : world)
         (now : Z) (random : string) (later : list (Z * string)),
    samples env = (now, random) :: later ->
    lockStoreFails env = false -> releaseFails env = false ->
    (forall x, List.In x (lockTable w) ->
               resource_id x <> videoResource videoId) ->
    let '(ok, w') := processVideo env videoId w in
    lockTable w' = lockTable w
    /\ locks (lockInstance w') !! videoResource videoId = None
    /\ lockTimers (lockInstance w') !! videoResource videoId = None
    /\ exists u, updates w' = updates w ++ [u]
                 /\ if ok then exists path, u = MarkProcessed videoId path
                    else exists m, u = MarkFailed videoId m.
Proof.
  intros env videoId w now random later Hs Hl Hr Hfree.
  unfold processVideo. rewrite Hs, Hl, Hr.
  rewrite (acquire_free now random later _ 600 _ _ Hfree).
  cbv zeta.
  destruct (tryBody env videoId w) as [[db1 storage1] result].
  rewrite (release_own_row _ _ _ _ _ _ _ Hfree (lockId_not_empty _ _)).
  destruct result as [path|m]; cbn [lockTable lockInstance updates locks lockTimers];
    (split; [reflexivity|]); (split; [apply lookup_delete_eq|]);
    (split; [apply lookup_delete_eq|]); eexists; (split; [reflexivity|]);
    eexists; reflexivity.
Qed.

Lemma processVideo_releases_lock_witness :
  lockTable (snd (processVideo PipelineExamples.quietRun "abc123"
                    PipelineExamples.idle)) = [].
Proof.
  pose proof (processVideo_releases_lock PipelineExamples.quietRun "abc123"
                PipelineExamples.idle 1000 "0.25"%string []
                eq_refl eq_refl eq_refl (fun x H => match H with end)) as H.
  destruct (processVideo PipelineExamples.quietRun "abc123" PipelineExamples.idle)
    as [ok w'].
  destruct H as [H _]. exact H.
Defined.

Lemma downloadTranscript_segments :
  forall (provider : nat -> Transcript.attempt) (transcript : list segment),
    Transcript.downloadTranscript provider = inr transcript ->
    exists raw,
      Transcript.outcome (Transcript.downloadWithRetry provider)
      = Transcript.Returned (Some raw)
      /\ raw <> [] /\ transcript = downloadTranscript_convert raw.
Proof.
  intros provider transcript H. unfold Transcript.downloadTranscript in H.
  destruct (Transcript.outcome (Transcript.downloadWithRetry provider))
    as [[[|r raw]|]|e]; try discriminate H.
  injection H as <-. exists (r :: raw).
  split; [reflexivity|]. split; [discriminate|reflexivity].
Qed.

(** [X12] What a successful run has done.  When [processVideo] returns
    [true], the provider returned a transcript with at least one segment;
    the blob [<id>/transcript.txt] now holds the lines of its segments; the
    video is listed once, the chunk rows stored under the provider's id are
    gone and one row per chunk of [createChunks] was appended, in order,
    under the key of the video's row, with the path of the blob and the
    vector of its position; and the row of the video was marked processed
    with that path. *)
Theorem processVideo_success :
  forall (env : environment) (videoId : string) (w w' : world),
    processVideo env videoId w = (true, w') ->
    exists (raw : list raw_segment) (video : videoRow),
      Transcript.outcome (Transcript.downloadWithRetry (provider env))
      = Transcript.Returned (Some raw)
      /\ raw <> []
      /\ selectVideo (db w) videoId = Some video
      /\ insertError env = None
      /\ let transcript := downloadTranscript_convert raw in
         let path := transcriptPath videoId in
         storage w' = <[path := transcriptContent transcript]> (storage w)
         /\ videos (db w') = videos (db w)
         /\ transcript_chunks (db w')
            = List.filter (fun r => negb (String.eqb (video_id r) videoId))
                          (transcript_chunks (db w))
              ++ List.map (toRecord video path)
                   (Embeddings.withVectors (api env) 0 (createChunks transcript))
         /\ updates w' = updates w ++ [MarkProcessed videoId path].
Proof.
  intros env videoId w w' H. unfold processVideo in H.
  destruct (acquire (samples env) (lockStoreFails env) (videoResource videoId)
              600 (lockInstance w) (lockTable w)) as [[inst1 table1] [lease|]];
    [|discriminate H].
  unfold tryBody in H.
  destruct (Transcript.downloadTranscript (provider env)) as [e|transcript] eqn:Ed.
  { destruct (release (releaseFails env) (videoResource videoId) inst1 table1)
      as [[inst2 table2] ok]. discriminate H. }
  destruct (downloadTranscript_segments _ _ Ed) as (raw & Hraw & Hne & ->).
  destruct (downloadTranscript_convert raw) as [|seg segs] eqn:Ec.
  { destruct (release (releaseFails env) (videoResource videoId) inst1 table1)
      as [[inst2 table2] ok]. discriminate H. }
  rewrite <- Ec in *. clear Ec seg segs.
  set (transcript := downloadTranscript_convert raw) in *.
  assert (Hstore :
    forall s r, storeTranscript (answers env) (storage w) videoId transcript
                = (s, inl r) ->
                r = transcriptPath videoId
                /\ s = <[transcriptPath videoId := transcriptContent transcript]>
                         (storage w)).
  { intros s r. unfold storeTranscript.
    destruct (uploadError (answers env)) as [m|].
    - destruct (match m with
                | Some s0 => ChannelProcessor.includes s0 "Bucket not found"
                | None => false
                end); [|intros E; discriminate E].
      destruct (createBucketFails (answers env)); [intros E; discriminate E|].
      destruct (retryFails (answers env)); [intros E; discriminate E|].
      intros E. injection E as <- <-. split; reflexivity.
    - intros E. injection E as <- <-. split; reflexivity. }
  destruct (storeTranscript (answers env) (storage w) videoId transcript)
    as [storage1 [path|m]] eqn:Es.
  2:{ destruct (release (releaseFails env) (videoResource videoId) inst1 table1)
        as [[inst2 table2] ok]. discriminate H. }
  destruct (Hstore _ _ eq_refl) as [-> ->].
  unfold storeChunks in H.
  assert (Hsel : selectVideo (deleteChunks (db w) videoId) videoId
                 = selectVideo (db w) videoId) by reflexivity.
  rewrite Hsel in H.
  destruct (selectVideo (db w) videoId) as [video|].
  2:{ destruct (release (releaseFails env) (videoResource videoId) inst1 table1)
        as [[inst2 table2] ok]. discriminate H. }
  destruct (insertError env) as [m|].
  { destruct (release (releaseFails env) (videoResource videoId) inst1 table1)
      as [[inst2 table2] ok]. discriminate H. }
  destruct (release (releaseFails env) (videoResource videoId) inst1 table1)
    as [[inst2 table2] ok].
  injection H as <-. exists raw, video.
  split; [exact Hraw|]. split; [exact Hne|]. split; [reflexivity|].
  split; [reflexivity|]. cbv zeta. cbn [storage db updates videos transcript_chunks].
  split; [reflexivity|]. split; [reflexivity|]. split; [|reflexivity].
  f_equal. f_equal.
  pose proof (generateEmbeddings_vectors (api env) (createChunks transcript)) as Hv.
  exact Hv.
Qed.

Lemma processVideo_success_witness :
  updates (snd (processVideo PipelineExamples.quietRun "abc123"
                  PipelineExamples.idle))
  = [MarkProcessed "abc123" "abc123/transcript.txt"].
Proof.
  assert (H : processVideo PipelineExamples.quietRun "abc123" PipelineExamples.idle
              = (true, snd (processVideo PipelineExamples.quietRun "abc123"
                              PipelineExamples.idle)))
    by (vm_compute; reflexivity).
  destruct (processVideo_success _ _ _ _ H)
    as (raw & video & _ & _ & _ & _ & _ & _ & _ & Hu).
  exact Hu.
Defined.

(** [X13] A run that returns [false] has stored no chunk: the [videos]
    table is as before, the chunk table is as before or has lost the rows
    stored under the provider's id, and no row was added; the row of the
    video is never marked processed (no update was sent, or the one that
    records the error).  The transcript blob may have been written all the
    same. *)
Theorem processVideo_failure_adds_no_rows :
  forall (env : environment) (videoId : string) (w w' : world),
    processVideo env videoId w = (false, w') ->
    videos (db w') = videos (db w)
    /\ (transcript_chunks (db w') = transcript_chunks (db w)
        \/ transcript_chunks (db w')
           = List.filter (fun r => negb (String.eqb (video_id r) videoId))
                         (transcript_chunks (db w)))
    /\ (updates w' = updates w
        \/ exists m, updates w' = updates w ++ [MarkFailed videoId m])
    /\ (storage w' = storage w
        \/ exists transcript,
             Transcript.downloadTranscript (provider env) = inr transcript
             /\ storage w'
                = <[transcriptPath videoId := transcriptContent transcript]>
                    (storage w)).
Proof.
  intros env videoId w w' H. unfold processVideo in H.
  destruct (acquire (samples env) (lockStoreFails env) (videoResource videoId)
              600 (lockInstance w) (lockTable w)) as [[inst1 table1] [lease|]].
  2:{ injection H as <-. cbn [db storage updates].
      repeat split; left; reflexivity. }
  assert (Hbody :
    let '(db1, storage1, result) := tryBody env videoId w in
    match result with
    | inl _ => True
    | inr _ =>
        videos db1 = videos (db w)
        /\ (transcript_chunks db1 = transcript_chunks (db w)
            \/ transcript_chunks db1
               = List.filter (fun r => negb (String.eqb (video_id r) videoId))
                             (transcript_chunks (db w)))
        /\ (storage1 = storage w
            \/ exists transcript,
                 Transcript.downloadTranscript (provider env) = inr transcript
                 /\ storage1
                    = <[transcriptPath videoId := transcriptContent transcript]>
                        (storage w))
    end).
  { unfold tryBody.
    destruct (Transcript.downloadTranscript (provider env)) as [e|transcript]
      eqn:Ed; [repeat split; left; reflexivity|].
    destruct transcript as [|seg segs]; [repeat split; left; reflexivity|].
    unfold storeTranscript.
    set (transcript := seg :: segs) in *.
    assert (Hchunks :
      forall (P : gmap string jsstring -> Prop)
             (storage1 : gmap string jsstring) (chunks : list embeddedChunk)
             (path : string),
        P storage1 ->
        match
          (let (db1, o) := storeChunks (insertError env) (db w) videoId chunks path in
           match o with
           | Some m => (db1, storage1, inr (Some m))
           | None => (db1, storage1, inl path)
           end) : store * gmap string jsstring * (string + option string)
        with
        | (db1, storage2, inl _) => True
        | (db1, storage2, inr _) =>
            videos db1 = videos (db w)
            /\ (transcript_chunks db1 = transcript_chunks (db w)
                \/ transcript_chunks db1
                   = List.filter (fun r => negb (String.eqb (video_id r) videoId))
                                 (transcript_chunks (db w)))
            /\ P storage2
        end).
    { intros P storage1 chunks path Hs. unfold storeChunks.
      destruct (selectVideo (deleteChunks (db w) videoId) videoId) as [video|].
      - destruct (insertError env) as [m|]; [|exact I].
        split; [reflexivity|]. split; [right; reflexivity|exact Hs].
      - split; [reflexivity|]. split; [right; reflexivity|exact Hs]. }
    destruct (uploadError (answers env)) as [m|].
    - destruct (match m with
                | Some s0 => ChannelProcessor.includes s0 "Bucket not found"
                | None => false
                end); [|repeat split; left; reflexivity].
      destruct (createBucketFails (answers env));
        [repeat split; left; reflexivity|].
      destruct (retryFails (answers env));
        [repeat split; left; reflexivity|].
      apply (Hchunks (fun s => s = storage w \/ _)). right.
      exists transcript. split; reflexivity.
    - apply (Hchunks (fun s => s = storage w \/ _)). right.
      exists transcript. split; reflexivity. }
  destruct (tryBody env videoId w) as [[db1 storage1] result].
  destruct (release (releaseFails env) (videoResource videoId) inst1 table1)
    as [[inst2 table2] ok].
  destruct result as [path|m]; [discriminate H|].
  injection H as <-. cbn [db storage updates].
  destruct Hbody as (Hv & Hc & Hs).
  split; [exact Hv|]. split; [exact Hc|]. split; [|exact Hs].
  right. exists m. reflexivity.
Qed.

Lemma processVideo_failure_adds_no_rows_witness :
  VideoProcessor.videos
    (db (snd (processVideo PipelineExamples.noCaptionsRun "abc123"
                PipelineExamples.idle)))
  = [Examples.videoAbc].
Proof.
  assert (H : processVideo PipelineExamples.noCaptionsRun "abc123"
                PipelineExamples.idle
              = (false, snd (processVideo PipelineExamples.noCaptionsRun "abc123"
                               PipelineExamples.idle)))
    by (vm_compute; reflexivity).
  destruct (processVideo_failure_adds_no_rows _ _ _ _ H) as (Hv & _).
  exact Hv.
Defined.

(** [X14] How a failed download is reported and counted.  An empty or
    missing answer of the provider, and an error saying "Could not get
    transcript", are raised with a message that the channel run counts
    under [no_transcript]; so is a network error, whose message speaks of
    the transcript.  An unavailable video and a throttled request are not;
    any other error is passed on as it is.  [downloadTranscript] never
    returns an empty list: it returns one segment for each one received. *)
Theorem downloadTranscript_outcomes :
  forall provider : nat -> Transcript.attempt,
    match Transcript.outcome (Transcript.downloadWithRetry provider) with
    | Transcript.Returned None | Transcript.Returned (Some []) =>
        Transcript.downloadTranscript provider
        = inl (Transcript.newError Transcript.emptyMessage)
        /\ ChannelProcessor.isNoTranscript (Some Transcript.emptyMessage) = true
    | Transcript.Returned (Some raw) =>
        Transcript.downloadTranscript provider
        = inr (List.map convertSegment raw)
        /\ List.map convertSegment raw <> []
    | Transcript.Thrown err =>
        exists e,
          Transcript.downloadTranscript provider = inl e
          /\ if Transcript.messageIncludes err "Could not get transcript"
             then e = Transcript.newError Transcript.captionsMessage
                  /\ ChannelProcessor.isNoTranscript (Transcript.message e) = true
             else if Transcript.messageIncludes err "Video unavailable"
             then e = Transcript.newError Transcript.unavailableMessage
                  /\ ChannelProcessor.isNoTranscript (Transcript.message e) = false
             else if Transcript.messageIncludes err "fetch failed"
                     || Transcript.messageIncludes err "ENOTFOUND"
             then e = Transcript.newError Transcript.networkMessage
                  /\ ChannelProcessor.isNoTranscript (Transcript.message e) = true
             else if Transcript.messageIncludes err "Too Many Requests"
                     || match Transcript.status err with
                        | Some s => s =? 429
                        | None => false
                        end
                     || match Transcript.code err with
                        | Some c => String.eqb c "ERR_BAD_REQUEST"
                        | None => false
                        end
             then e = Transcript.newError Transcript.throttledMessage
                  /\ ChannelProcessor.isNoTranscript (Transcript.message e) = false
             else e = err
    end.
Proof.
  intros provider. unfold Transcript.downloadTranscript.
  destruct (Transcript.outcome (Transcript.downloadWithRetry provider))
    as [[[|r raw]|]|err].
  - split; vm_compute; reflexivity.
  - split; [reflexivity|discriminate].
  - split; vm_compute; reflexivity.
  - eexists. split; [reflexivity|]. unfold Transcript.classify.
    destruct (Transcript.messageIncludes err "Could not get transcript");
      [split; [reflexivity|vm_compute; reflexivity]|].
    destruct (Transcript.messageIncludes err "Video unavailable");
      [split; [reflexivity|vm_compute; reflexivity]|].
    destruct (Transcript.messageIncludes err "fetch failed"
              || Transcript.messageIncludes err "ENOTFOUND");
      [split; [reflexivity|vm_compute; reflexivity]|].
    destruct (Transcript.messageIncludes err "Too Many Requests"
              || match Transcript.status err with
                 | Some s => s =? 429
                 | None => false
                 end
              || match Transcript.code err with
                 | Some c => String.eqb c "ERR_BAD_REQUEST"
                 | None => false
                 end);
      [split; [reflexivity|vm_compute; reflexivity]|reflexivity].
Qed.

(** [X15] A download that fails ends the run before anything is stored:
    with the lock free, [processVideo] returns [false], leaves the two
    tables, the blobs and the lock table as they were, and records the
    message of the error [downloadTranscript] raised in the row of the
    video. *)
Theorem processVideo_reports_download_error :
  forall (env : environment) (videoId : string) (w : world)
         (now : Z) (random : string) (later : list (Z * string))
         (e : Transcript.jsError),
    samples env = (now, random) :: later ->
    lockStoreFails env = false -> releaseFails env = false ->
    (forall x, List.In x (lockTable w) ->
               resource_id x <> videoResource videoId) ->
    Transcript.downloadTranscript (provider env) = inl e ->
    exists inst,
      processVideo env videoId w
      = (false,
         {| lockTable := lockTable w; lockInstance := inst; db := db w;
            storage := storage w;
            updates := updates w ++ [MarkFailed videoId (Transcript.message e)] |})
      /\ locks inst !! videoResource videoId = None.
Proof.
  intros env videoId w now random later e Hs Hl Hr Hfree Hd.
  unfold processVideo. rewrite Hs, Hl, Hr.
  rewrite (acquire_free now random later _ 600 _ _ Hfree).
  cbv zeta. unfold tryBody. rewrite Hd.
  rewrite (release_own_row _ _ _ _ _ _ _ Hfree (lockId_not_empty _ _)).
  eexists. split; [reflexivity|]. apply lookup_delete_eq.
Qed.

Lemma processVideo_reports_download_error_witness :
  exists inst,
    processVideo PipelineExamples.noCaptionsRun "abc123" PipelineExamples.idle
    = (false,
       {| lockTable := []; lockInstance := inst; db := Examples.storeBefore;
          storage := ∅;
          updates := [MarkFailed "abc123" (Some Transcript.captionsMessage)] |})
    /\ locks inst !! "video-abc123" = None.
Proof.
  apply (processVideo_reports_download_error PipelineExamples.noCaptionsRun
           "abc123" PipelineExamples.idle 1000 "0.25"%string []
           (Transcript.newError Transcript.captionsMessage)).
  - reflexivity.
  - reflexivity.
  - reflexivity.
  - intros x [].
  - vm_compute. reflexivity.
Defined.

Lemma utf8Length_nonneg :
  forall (n : nat) (s : jsstring), (List.length s <= n)%nat -> 0 <= utf8Length s.
Proof.
  induction n as [|n IH]; intros s Hn.
  - destruct s; [simpl; lia|simpl in Hn; lia].
  - destruct s as [|c rest]; [simpl; lia|]. simpl in Hn.
    assert (Hrest : 0 <= utf8Length rest) by (apply IH; lia).
    cbn [utf8Length].
    destruct (c <? 128)%N; [lia|]. destruct (c <? 2048)%N; [lia|].
    destruct (isHighSurrogate c); [|lia].
    destruct rest as [|d rest']; [lia|].
    destruct (isLowSurrogate d); [|lia].
    assert (0 <= utf8Length rest') by (apply IH; simpl in Hn; lia). lia.
Qed.

Lemma utf8Length_pos :
  forall s : jsstring, s <> [] -> 0 < utf8Length s.
Proof.
  intros [|c rest] Hs; [contradiction|].
  pose proof (utf8Length_nonneg (List.length rest) rest (Nat.le_refl _)) as Hrest.
  cbn [utf8Length].
  destruct (c <? 128)%N; [lia|]. destruct (c <? 2048)%N; [lia|].
  destruct (isHighSurrogate c); [|lia].
  destruct rest as [|d rest']; [lia|].
  destruct (isLowSurrogate d); [|lia].
  pose proof (utf8Length_nonneg (List.length rest') rest' (Nat.le_refl _)). lia.
Qed.

Lemma createChunks_bytes :
  forall transcript : list segment,
    ChunkBytes.chained 0 (createChunks transcript)
                       (utf8Length (transcriptContent transcript))
    /\ List.Forall (fun c => byte_length c = utf8Length (text c))
                   (createChunks transcript).
Proof.
  intros transcript.
  set (n := Z.of_nat (List.length transcript)).
  set (final := loop 1000 n 0 transcript init).
  assert (Hcs : createChunks transcript = chunks final) by reflexivity.
  pose proof (loop_invariant 1000 n transcript 0 [] init init_invariant) as Hinv.
  fold final in Hinv. simpl List.app in Hinv.
  rewrite <- transcriptContent_concat in Hinv.
  destruct Hinv as [Hc Ho Hch Hl _ _ _].
  assert (Hcur : currentChunk final = []).
  { destruct transcript as [|seg segs] eqn:E; [reflexivity|].
    apply loop_ends_empty; [discriminate|]. unfold n. lia. }
  rewrite Hcur, List.app_nil_r in Hc. rewrite Hcs.
  rewrite Hc in Ho. rewrite Ho in Hch. split; assumption.
Qed.

Lemma stored_row_nth :
  forall (video : videoRow) (path : string) (api : nat -> option (list Q))
         (cs : list chunk) (k : nat) (r : chunkRecord),
    List.nth_error
      (List.map (toRecord video path) (Embeddings.withVectors api 0 cs)) k
    = Some r ->
    exists e, r = toRecord video path e
              /\ List.nth_error cs k = Some (base e).
Proof.
  intros video path api cs k r H. rewrite List.nth_error_map in H.
  destruct (List.nth_error (Embeddings.withVectors api 0 cs) k) as [e|] eqn:E;
    [|discriminate H].
  injection H as <-. exists e. split; [reflexivity|].
  rewrite <- (withVectors_base api cs 0) at 1.
  rewrite List.nth_error_map, E. reflexivity.
Qed.

(** [X16] The rows [storeChunks] writes for the chunks of [createChunks]
    carry the byte ranges of the uploaded text: the fallback
    [byte_length || text.length] is never taken, since no chunk is empty;
    every row has the byte offset of its chunk and the UTF-8 length of its
    text, which is positive; the first row starts at byte [0], each next
    row starts where the one before it ends, and the last row ends at the
    UTF-8 length of the blob. *)
Theorem stored_rows_carry_byte_ranges :
  forall (transcript : list segment) (video : videoRow) (path : string)
         (api : nat -> option (list Q)),
    let cs := createChunks transcript in
    let rows := List.map (toRecord video path)
                         (Embeddings.withVectors api 0 cs) in
    List.map rec_byte_offset rows = List.map byte_offset cs
    /\ List.map rec_byte_length rows
       = List.map (fun c => utf8Length (text c)) cs
    /\ List.Forall (fun r => 0 < rec_byte_length r) rows
    /\ (forall r rest, rows = r :: rest -> rec_byte_offset r = 0)
    /\ (forall k r r',
          List.nth_error rows k = Some r -> List.nth_error rows (S k) = Some r' ->
          rec_byte_offset r' = rec_byte_offset r + rec_byte_length r)
    /\ (forall pre r, rows = pre ++ [r] ->
          rec_byte_offset r + rec_byte_length r
          = utf8Length (transcriptContent transcript)).
Proof.
  intros transcript video path api cs rows.
  destruct (createChunks_bytes transcript) as [Hch Hlen]. fold cs in Hch, Hlen.
  pose proof (createChunks_texts transcript) as Hclosed. fold cs in Hclosed.
  assert (Hpos : forall c, List.In c cs ->
                           byte_length c = utf8Length (text c)
                           /\ 0 < byte_length c).
  { intros c Hc. rewrite List.Forall_forall in Hlen, Hclosed.
    pose proof (Hlen c Hc) as E. split; [exact E|]. rewrite E.
    apply utf8Length_pos. apply (Hclosed c Hc). }
  assert (Hrow : forall e, List.In (base e) cs ->
            rec_byte_offset (toRecord video path e) = byte_offset (base e)
            /\ rec_byte_length (toRecord video path e) = byte_length (base e)).
  { intros e He. split; [reflexivity|]. cbn [toRecord rec_byte_length].
    destruct (Hpos _ He) as [_ Hp].
    destruct (Z.eqb_spec (byte_length (base e)) 0) as [E|E]; [lia|reflexivity]. }
  assert (Hnth : forall k r, List.nth_error rows k = Some r ->
            exists c, List.nth_error cs k = Some c
                      /\ rec_byte_offset r = byte_offset c
                      /\ rec_byte_length r = byte_length c).
  { intros k r Hk. destruct (stored_row_nth _ _ _ _ _ _ Hk) as (e & -> & Hc).
    exists (base e). split; [exact Hc|]. apply Hrow.
    apply (List.nth_error_In _ _ Hc). }
  assert (Hlenrows : List.length rows = List.length cs).
  { unfold rows. rewrite List.length_map.
    rewrite <- (withVectors_base api cs 0) at 2. rewrite List.length_map.
    reflexivity. }
  assert (Hmaps : forall (f : chunkRecord -> Z) (g : chunk -> Z),
            (forall k r c, List.nth_error rows k = Some r ->
                           List.nth_error cs k = Some c -> f r = g c) ->
            List.map f rows = List.map g cs).
  { intros f g Hfg. apply List.nth_error_ext. intros k.
    rewrite !List.nth_error_map.
    destruct (List.nth_error rows k) as [r|] eqn:Er.
    - destruct (Hnth k r Er) as (c & Hc & _). rewrite Hc. simpl. f_equal.
      apply (Hfg k r c Er Hc).
    - apply List.nth_error_None in Er. rewrite Hlenrows in Er.
      apply List.nth_error_None in Er. rewrite Er. reflexivity. }
  split; [|split; [|split; [|split; [|split]]]].
  - apply Hmaps. intros k r c Hr Hc. destruct (Hnth k r Hr) as (c' & Hc' & E & _).
    rewrite Hc in Hc'. injection Hc' as <-. exact E.
  - apply Hmaps. intros k r c Hr Hc. destruct (Hnth k r Hr) as (c' & Hc' & _ & E).
    rewrite Hc in Hc'. injection Hc' as <-. rewrite E.
    apply (proj1 (Hpos c (List.nth_error_In _ _ Hc))).
  - apply List.Forall_forall. intros r Hr.
    apply List.In_nth_error in Hr. destruct Hr as [k Hk].
    destruct (Hnth k r Hk) as (c & Hc & _ & E). rewrite E.
    apply (proj2 (Hpos c (List.nth_error_In _ _ Hc))).
  - intros r rest E.
    destruct (Hnth 0%nat r) as (c & Hc & Eo & _); [rewrite E; reflexivity|].
    rewrite Eo. destruct cs as [|c0 cs']; [discriminate Hc|].
    simpl in Hc. injection Hc as ->. destruct Hch as [H0 _]. exact H0.
  - intros k r r' Hr Hr'.
    destruct (Hnth k r Hr) as (c & Hc & Eo & El).
    destruct (Hnth (S k) r' Hr') as (c' & Hc' & Eo' & _).
    rewrite Eo, El, Eo'. apply (chained_next cs 0 _ k c c' Hch Hc Hc').
  - intros pre r E.
    assert (Hk : List.nth_error rows (List.length pre) = Some r).
    { rewrite E. rewrite List.nth_error_app2 by lia.
      rewrite Nat.sub_diag. reflexivity. }
    destruct (Hnth _ r Hk) as (c & Hc & Eo & El). rewrite Eo, El.
    assert (Hsplit : cs = List.firstn (List.length pre) cs ++ [c]).
    { assert (Hl : List.length cs = S (List.length pre)).
      { rewrite <- Hlenrows, E, List.length_app. simpl. lia. }
      rewrite <- (List.firstn_skipn (List.length pre) cs) at 1. f_equal.
      destruct (List.skipn (List.length pre) cs) as [|x rest] eqn:Es.
      - apply (f_equal (@List.length _)) in Es. rewrite List.length_skipn in Es.
        simpl in Es. lia.
      - assert (Hx : List.nth_error cs (List.length pre) = Some x).
        { rewrite <- (List.firstn_skipn (List.length pre) cs).
          rewrite List.nth_error_app2; rewrite List.length_firstn; [|lia].
          replace (List.length pre - Nat.min (List.length pre) (List.length cs))%nat
            with 0%nat by lia.
          rewrite Es. reflexivity. }
        rewrite Hc in Hx. injection Hx as <-.
        apply (f_equal (@List.length _)) in Es. rewrite List.length_skipn in Es.
        simpl in Es. destruct rest; [reflexivity|simpl in Es; lia]. }
    rewrite Hsplit in Hch. apply (chained_last _ 0 _ c Hch).
Qed.

End PipelineRuns.

(* ------------------------------------------------------------------ *)
(** ** The rate limiter beyond the configured limits *)

Section RateLimiterEdges.
Import Auth RateLimit.

Lemma RATE_LIMITS_unlisted :
  forall userType action : string,
    action <> "chat"%string -> action <> "video_upload"%string ->
    action <> "channel_process"%string ->
    RATE_LIMITS userType action = None.
Proof.
  intros userType action H1 H2 H3. unfold RATE_LIMITS.
  apply String.eqb_neq in H1, H2, H3. rewrite H1, H2, H3.
  destruct (String.eqb userType "anonymous"); [reflexivity|].
  destruct (String.eqb userType "user"); [reflexivity|].
  destruct (String.eqb userType "premium"); reflexivity.
Qed.

(** [X17] An action for which the lookup in [RATE_LIMITS] finds nothing
    (the video routes pass [video_process]) is never limited.  These are
    the actions other than the three entries and other than the names every
    object inherits ([constructor], [toString], ...), for which the lookup
    finds a member that is not a limit.  For every caller without the
    API-key mark the handler then calls [next], sends nothing, sets both
    headers to [unlimited] and no reset header, asks the store for no
    count, and still records the call. *)
Theorem unlisted_action_never_limited :
  forall (action : string) (now : Z) (req : request) (w : world),
    action <> "chat"%string -> action <> "video_upload"%string ->
    action <> "channel_process"%string ->
    ObjectMembers.inherited action = false ->
    match req_user req with Some u => isApiKey u = false | None => True end ->
    exists identifier,
      rateLimitMiddleware action now req w
      = (recordUsage identifier action now w,
         {| setHeaders := [("X-RateLimit-Limit"%string, HStr "unlimited");
                           ("X-RateLimit-Remaining"%string, HStr "unlimited")];
            sent := None; calledNext := true |})
      /\ identifier
         = match req_user req with
           | Some u => ("user:" ++ Auth.id u)%string
           | None => ("ip:" ++ getClientIp req)%string
           end.
Proof.
  intros action now req w H1 H2 H3 _ Hkey. unfold rateLimitMiddleware.
  destruct (req_user req) as [u|].
  - rewrite Hkey. unfold checkLimit.
    rewrite (RATE_LIMITS_unlisted _ _ H1 H2 H3).
    eexists. split; reflexivity.
  - unfold checkLimit. rewrite (RATE_LIMITS_unlisted _ _ H1 H2 H3).
    eexists. split; reflexivity.
Qed.

Lemma unlisted_action_never_limited_witness :
  exists identifier,
    rateLimitMiddleware "video_process" 1000 Examples.userRequest
      Examples.emptyWorld
    = (recordUsage identifier "video_process" 1000 Examples.emptyWorld,
       {| setHeaders := [("X-RateLimit-Limit"%string, HStr "unlimited");
                         ("X-RateLimit-Remaining"%string, HStr "unlimited")];
          sent := None; calledNext := true |})
    /\ identifier = "user:u1"%string.
Proof.
  apply (unlisted_action_never_limited "video_process" 1000
           Examples.userRequest Examples.emptyWorld).
  - discriminate.
  - discriminate.
  - discriminate.
  - reflexivity.
  - reflexivity.
Defined.

Lemma cacheGet_nil : forall k : string, cacheGet [] k = None.
Proof. reflexivity. Qed.

Lemma checkWindowLimit_store_down :
  forall (identifier action window : string) (lim now : Z) (w : world),
    storeFails w = true -> cache w = [] ->
    let '(w', r) := checkWindowLimit identifier action window lim now w in
    allowed r = true /\ resetAt r = None
    /\ storeFails w' = true /\ cache w' = []
    /\ rate_limits w' = rate_limits w.
Proof.
  intros identifier action window lim now w Hf Hc.
  unfold checkWindowLimit. rewrite Hc, Hf. simpl.
  repeat split; assumption.
Qed.

Lemma fold_mostRestrictive_allowed :
  forall (results : list limitResult) (init : limitResult),
    allowed init = true ->
    List.Forall (fun r => allowed r = true) results ->
    allowed (List.fold_left mostRestrictiveOf results init) = true.
Proof.
  induction results as [|r results IH]; intros init Hi Hr; [exact Hi|].
  inversion Hr as [|x l Hx Hl]; subst. simpl. apply IH; [|exact Hl].
  unfold mostRestrictiveOf. rewrite Hx, Hi. simpl.
  destruct (remainingLt (remaining r) (remaining init)); assumption.
Qed.

(** [X18] The limiter fails open: while the store answers its requests
    with an error and the cache is empty, every call is let through,
    whatever the action, the caller and the number of earlier calls, even
    where the configured limit is [0]; nothing is sent, and the table of
    recorded calls stays as it is. *)
Theorem store_failure_fails_open :
  forall (action : string) (now : Z) (req : request) (w : world),
    storeFails w = true -> cache w = [] ->
    let '(w', e) := rateLimitMiddleware action now req w in
    calledNext e = true /\ sent e = None
    /\ rate_limits w' = rate_limits w /\ cache w' = [].
Proof.
  intros action now req w Hf Hc. unfold rateLimitMiddleware.
  destruct (match req_user req with
            | Some u => isApiKey u
            | None => false
            end); [repeat split; try reflexivity; exact Hc|].
  destruct (match req_user req with
            | Some u => (("user:" ++ Auth.id u)%string,
                         if premium u then "premium"%string else "user"%string)
            | None => (("ip:" ++ getClientIp req)%string, "anonymous"%string)
            end) as [identifier userType].
  assert (H : let '(w1, result) := checkLimit identifier action userType now w in
              allowed result = true /\ storeFails w1 = true /\ cache w1 = []
              /\ rate_limits w1 = rate_limits w).
  { unfold checkLimit.
    destruct (RATE_LIMITS userType action) as [[h d]|];
      [|repeat split; assumption].
    cbn [hourly daily].
    destruct h as [h|].
    - pose proof (checkWindowLimit_store_down identifier action "hour" h now w Hf Hc)
        as H1.
      destruct (checkWindowLimit identifier action "hour" h now w) as [w1 r1].
      destruct H1 as (Ha1 & _ & Hf1 & Hc1 & Hr1).
      destruct d as [d|].
      + pose proof (checkWindowLimit_store_down identifier action "day" d now w1
                      Hf1 Hc1) as H2.
        destruct (checkWindowLimit identifier action "day" d now w1) as [w2 r2].
        destruct H2 as (Ha2 & _ & Hf2 & Hc2 & Hr2).
        split; [|repeat split; congruence].
        apply fold_mostRestrictive_allowed; [reflexivity|].
        repeat constructor; assumption.
      + split; [|repeat split; congruence].
        apply fold_mostRestrictive_allowed; [reflexivity|].
        repeat constructor; assumption.
    - destruct d as [d|].
      + pose proof (checkWindowLimit_store_down identifier action "day" d now w
                      Hf Hc) as H2.
        destruct (checkWindowLimit identifier action "day" d now w) as [w2 r2].
        destruct H2 as (Ha2 & _ & Hf2 & Hc2 & Hr2).
        split; [|repeat split; congruence].
        apply fold_mostRestrictive_allowed; [reflexivity|].
        repeat constructor; assumption.
      + repeat split; assumption. }
  destruct (checkLimit identifier action userType now w) as [w1 result].
  destruct H as (Ha & Hf1 & Hc1 & Hr1). rewrite Ha. simpl.
  unfold recordUsage. cbn [rate_limits cache]. rewrite Hf1, Hc1.
  repeat split; assumption.
Qed.

Lemma store_failure_fails_open_witness :
  calledNext
    (snd (rateLimitMiddleware "channel_process" 1000
            {| headers := ∅; req_user := None; remoteAddress := None;
               ip := None |}
            {| cache := []; rate_limits := []; storeFails := true;
               requests := [] |}))
  = true.
Proof.
  pose proof (store_failure_fails_open "channel_process" 1000
                {| headers := ∅; req_user := None; remoteAddress := None;
                   ip := None |}
                {| cache := []; rate_limits := []; storeFails := true;
                   requests := [] |} eq_refl eq_refl) as H.
  destruct (rateLimitMiddleware "channel_process" 1000 _ _) as [w' e].
  destruct H as [H _]. exact H.
Defined.

Lemma cacheGet_In :
  forall (c : list (string * cacheEntry)) (k : string) (v : cacheEntry),
    cacheGet c k = Some v -> List.In v (List.map snd c).
Proof.
  induction c as [|[k' v'] c IH]; intros k v H; [discriminate H|].
  simpl in H. destruct (String.eqb k' k).
  - injection H as ->. left. reflexivity.
  - right. apply (IH k v H).
Qed.

(** [X19] A caller who is not signed in can never start a channel run while
    the store answers: the daily limit of [channel_process] for the
    [anonymous] class is [0], so the first call already is answered with
    429 and the window [day], [next] is not called and the call is not
    recorded.  (The counts in the cache are numbers of rows, so none is
    negative.) *)
Theorem anonymous_channel_process_denied :
  forall (now : Z) (req : request) (w : world),
    req_user req = None -> storeFails w = false ->
    List.Forall (fun v => 0 <= count v) (List.map snd (cache w)) ->
    let '(w', e) := rateLimitMiddleware "channel_process" now req w in
    calledNext e = false
    /\ (exists resetAt,
          sent e = Some (429, RateLimitBody "Rate limit exceeded"
                     "Too many channel_process requests. Please try again later."
                     (Some 0) (Some "day"%string) (Some resetAt)))
    /\ rate_limits w' = rate_limits w.
Proof.
  intros now req w Hu Hf Hc. unfold rateLimitMiddleware. rewrite Hu.
  unfold checkLimit.
  change (RATE_LIMITS "anonymous" "channel_process")
    with (Some {| hourly := None; daily := Some 0 |}).
  cbn [hourly daily].
  assert (H : let '(w1, r) :=
                checkWindowLimit ("ip:" ++ getClientIp req) "channel_process"
                                 "day" 0 now w in
              allowed r = false /\ limit r = Some 0
              /\ window r = Some "day"%string
              /\ (exists t, resetAt r = Some t)
              /\ rate_limits w1 = rate_limits w).
  { unfold checkWindowLimit.
    destruct (cacheGet (cache w)
                (getCacheKey ("ip:" ++ getClientIp req) "channel_process" "day"))
      as [cached|] eqn:Eg.
    - destruct (now <? expires cached).
      + cbn [allowed limit window resetAt rate_limits].
        rewrite List.Forall_forall in Hc.
        pose proof (Hc cached (cacheGet_In _ _ _ Eg)) as Hn.
        split; [apply Z.ltb_ge; lia|]. repeat split. eexists. reflexivity.
      + rewrite Hf. cbn [allowed limit window resetAt rate_limits].
        split; [apply Z.ltb_ge; lia|]. repeat split. eexists. reflexivity.
    - rewrite Hf. cbn [allowed limit window resetAt rate_limits].
      split; [apply Z.ltb_ge; lia|]. repeat split. eexists. reflexivity. }
  destruct (checkWindowLimit ("ip:" ++ getClientIp req) "channel_process"
              "day" 0 now w) as [w1 r].
  destruct H as (Ha & Hl & Hw & [t Ht] & Hr).
  cbn [List.app List.fold_left]. unfold mostRestrictiveOf at 1. rewrite Ha.
  cbn [negb]. rewrite Ha. cbn [negb calledNext sent].
  split; [reflexivity|]. split; [|exact Hr].
  exists t. destruct r as [a rem l wd ra]. simpl in *. subst. reflexivity.
Qed.

Lemma anonymous_channel_process_denied_witness :
  calledNext
    (snd (rateLimitMiddleware "channel_process" 1000
            {| headers := ∅; req_user := None; remoteAddress := None;
               ip := None |}
            Examples.emptyWorld))
  = false.
Proof.
  pose proof (anonymous_channel_process_denied 1000
                {| headers := ∅; req_user := None; remoteAddress := None;
                   ip := None |}
                Examples.emptyWorld eq_refl eq_refl
                (List.Forall_nil _)) as H.
  destruct (rateLimitMiddleware "channel_process" 1000 _ _) as [w' e].
  destruct H as [H _]. exact H.
Defined.

Lemma cacheSet_length :
  forall (c : list (string * cacheEntry)) (k : string) (v : cacheEntry),
    (List.length (cacheSet c k v) <= S (List.length c))%nat.
Proof.
  induction c as [|[k' v'] c IH]; intros k v; simpl; [lia|].
  destruct (String.eqb k' k); simpl; [lia|]. specialize (IH k v). lia.
Qed.

Lemma cacheDelete_length :
  forall (c : list (string * cacheEntry)) (k : string),
    (List.length (cacheDelete c k) <= List.length c)%nat.
Proof.
  intros c k. unfold cacheDelete. apply List.filter_length_le.
Qed.

Lemma checkWindowLimit_cache_size :
  forall (identifier action window : string) (lim now : Z) (w : world),
    (List.length (cache w) <= 1000)%nat ->
    (List.length (cache (fst (checkWindowLimit identifier action window lim now w)))
     <= 1000)%nat.
Proof.
  intros identifier action window lim now w Hw. unfold checkWindowLimit.
  destruct (match cacheGet (cache w) (getCacheKey identifier action window) with
            | Some cached => if now <? expires cached then Some cached else None
            | None => None
            end); [exact Hw|].
  destruct (storeFails w); [exact Hw|]. cbn [fst cache].
  match goal with
  | |- context [cacheSet ?c ?k ?v] =>
      pose proof (cacheSet_length c k v) as Hs;
      set (c1 := cacheSet c k v) in *
  end.
  destruct (Z.ltb_spec 1000 (Z.of_nat (List.length c1))) as [Hbig|Hsmall].
  - destruct c1 as [|x c1']; simpl in *; lia.
  - lia.
Qed.

(** [X20] The cache of the limiter stays bounded: if it holds at most 1000
    entries before a call of the handler, it holds at most 1000 after it,
    for every action, caller and time. *)
Theorem rateLimit_cache_bounded :
  forall (action : string) (now : Z) (req : request) (w : world),
    (List.length (cache w) <= 1000)%nat ->
    (List.length (cache (fst (rateLimitMiddleware action now req w))) <= 1000)%nat.
Proof.
  intros action now req w Hw. unfold rateLimitMiddleware.
  destruct (match req_user req with
            | Some u => isApiKey u
            | None => false
            end); [exact Hw|].
  destruct (match req_user req with
            | Some u => (("user:" ++ Auth.id u)%string,
                         if premium u then "premium"%string else "user"%string)
            | None => (("ip:" ++ getClientIp req)%string, "anonymous"%string)
            end) as [identifier userType].
  assert (H : (List.length
                 (cache (fst (checkLimit identifier action userType now w)))
               <= 1000)%nat).
  { unfold checkLimit.
    destruct (RATE_LIMITS userType action) as [[h d]|]; [|exact Hw].
    cbn [hourly daily].
    destruct h as [h|].
    - pose proof (checkWindowLimit_cache_size identifier action "hour" h now w Hw)
        as H1.
      destruct (checkWindowLimit identifier action "hour" h now w) as [w1 r1].
      cbn [fst] in H1.
      destruct d as [d|]; [|exact H1].
      pose proof (checkWindowLimit_cache_size identifier action "day" d now w1 H1)
        as H2.
      destruct (checkWindowLimit identifier action "day" d now w1) as [w2 r2].
      exact H2.
    - destruct d as [d|]; [|exact Hw].
      pose proof (checkWindowLimit_cache_size identifier action "day" d now w Hw)
        as H2.
      destruct (checkWindowLimit identifier action "day" d now w) as [w2 r2].
      exact H2. }
  destruct (checkLimit identifier action userType now w) as [w1 result].
  cbn [fst] in H.
  destruct (negb (allowed result)); cbn [fst]; [exact H|].
  unfold recordUsage. cbn [cache].
  pose proof (cacheDelete_length
                (cacheDelete (cache w1) (getCacheKey identifier action "hour"))
                (getCacheKey identifier action "day")).
  pose proof (cacheDelete_length (cache w1) (getCacheKey identifier action "hour")).
  lia.
Qed.

Lemma rateLimit_cache_bounded_witness :
  (List.length
     (cache (fst (rateLimitMiddleware "chat" 1000 Examples.userRequest
                    Examples.emptyWorld))) <= 1000)%nat.
Proof.
  apply (rateLimit_cache_bounded "chat" 1000 Examples.userRequest
           Examples.emptyWorld).
  simpl. lia.
Defined.

End RateLimiterEdges.

(* ------------------------------------------------------------------ *)
(** ** The order and the size of search results *)

Section SortFacts.
Context {A : Type} (key : A -> Q).

Lemma insertDesc_perm :
  forall (x : A) (l : list A),
    Permutation (Score.insertDesc key x l) (x :: l).
Proof.
  intros x l. induction l as [|y l IH]; simpl; [apply Permutation_refl|].
  destruct (Score.ltb (key x) (key y)); [|apply Permutation_refl].
  apply (Permutation_trans (l' := y :: x :: l)).
  - apply perm_skip. exact IH.
  - apply perm_swap.
Qed.

Lemma sortDesc_perm :
  forall l : list A, Permutation (Score.sortDesc key l) l.
Proof.
  induction l as [|x l IH]; simpl; [apply perm_nil|].
  apply (Permutation_trans (insertDesc_perm x _)). apply perm_skip. exact IH.
Qed.

Lemma insertDesc_sorted :
  forall (x : A) (l : list A),
    StronglySorted (fun a b => (key b <= key a)%Q) l ->
    StronglySorted (fun a b => (key b <= key a)%Q) (Score.insertDesc key x l).
Proof.
  intros x l. induction l as [|y l IH]; intros Hs; simpl.
  - constructor; constructor.
  - apply StronglySorted_inv in Hs. destruct Hs as [Hl Hy].
    destruct (Score.ltb (key x) (key y)) eqn:E.
    + constructor; [apply IH; exact Hl|].
      apply List.Forall_forall. intros z Hz.
      apply (Permutation_in _ (insertDesc_perm x l)) in Hz.
      destruct Hz as [<-|Hz].
      * unfold Score.ltb in E. apply negb_true_iff in E.
        destruct (Qlt_le_dec (key x) (key y)) as [H|H];
          [apply Qlt_le_weak; exact H|].
        apply Qle_bool_iff in H. congruence.
      * rewrite List.Forall_forall in Hy. apply Hy. exact Hz.
    + unfold Score.ltb in E. apply negb_false_iff in E.
      apply Qle_bool_iff in E.
      constructor; [constructor; assumption|].
      constructor; [exact E|].
      apply List.Forall_forall. intros z Hz.
      rewrite List.Forall_forall in Hy.
      apply (Qle_trans _ (key y)); [apply Hy; exact Hz|exact E].
Qed.

Lemma sortDesc_sorted :
  forall l : list A,
    StronglySorted (fun a b => (key b <= key a)%Q) (Score.sortDesc key l).
Proof.
  induction l as [|x l IH]; simpl; [constructor|].
  apply insertDesc_sorted. exact IH.
Qed.

Lemma sorted_app_le :
  forall (R : A -> A -> Prop) (l1 l2 : list A),
    StronglySorted R (l1 ++ l2) ->
    forall a b, List.In a l1 -> List.In b l2 -> R a b.
Proof.
  intros R l1 l2. induction l1 as [|x l1 IH]; intros Hs a b Ha Hb;
    [contradiction|].
  simpl in Hs. apply StronglySorted_inv in Hs. destruct Hs as [Hl Hx].
  destruct Ha as [<-|Ha].
  - rewrite List.Forall_forall in Hx. apply Hx. apply List.in_or_app.
    right. exact Hb.
  - apply (IH Hl a b Ha Hb).
Qed.

Lemma sorted_firstn :
  forall (R : A -> A -> Prop) (n : nat) (l : list A),
    StronglySorted R l -> StronglySorted R (List.firstn n l).
Proof.
  intros R n. induction n as [|n IH]; intros l Hs; [constructor|].
  destruct l as [|x l]; [constructor|].
  apply StronglySorted_inv in Hs. destruct Hs as [Hl Hx]. simpl.
  constructor; [apply IH; exact Hl|].
  apply List.Forall_forall. intros z Hz. rewrite List.Forall_forall in Hx.
  apply Hx. apply (firstn_In _ n). exact Hz.
Qed.

(** The first [n] of a list sorted by decreasing key are its [n] best: an
    element left out has a key no larger than any of them, and nothing is
    left out unless [n] elements were taken. *)
Lemma top_of_sorted :
  forall (n : nat) (l : list A) (x : A),
    List.In x l ->
    List.In x (List.firstn n (Score.sortDesc key l))
    \/ (List.length (List.firstn n (Score.sortDesc key l)) = n
        /\ List.Forall (fun a => (key x <= key a)%Q)
                       (List.firstn n (Score.sortDesc key l))).
Proof.
  intros n l x Hx.
  apply (Permutation_in _ (Permutation_sym (sortDesc_perm l))) in Hx.
  pose proof (sortDesc_sorted l) as Hs.
  set (s := Score.sortDesc key l) in *.
  rewrite <- (List.firstn_skipn n s) in Hx, Hs.
  apply List.in_app_or in Hx. destruct Hx as [Hx|Hx]; [left; exact Hx|].
  right. split.
  - apply List.firstn_length_le.
    destruct (Nat.le_gt_cases n (List.length s)) as [H|H]; [exact H|].
    rewrite List.skipn_all2 in Hx by lia. contradiction.
  - apply List.Forall_forall. intros a Ha.
    apply (sorted_app_le _ _ _ Hs a x Ha Hx).
Qed.

End SortFacts.

Section SearchRanking.
Import RagSearch SearchScore.

Lemma addKeyword_keys :
  forall (m : resultMap) (c : row),
    List.In (id c) (List.map fst (addKeyword m c))
    /\ (forall k, List.In k (List.map fst m) ->
                  List.In k (List.map fst (addKeyword m c))).
Proof.
  intros m c. unfold addKeyword.
  destruct (mapHas m (id c)) eqn:Hhas.
  - rewrite mapBoost_keys. split; [apply mapHas_In; exact Hhas|tauto].
  - rewrite mapSet_keys, Hhas. split.
    + apply List.in_or_app. right. left. reflexivity.
    + intros k Hk. apply List.in_or_app. left. exact Hk.
Qed.

Lemma fold_addKeyword_keys :
  forall (l : list row) (m : resultMap),
    (forall c, List.In c l ->
               List.In (id c) (List.map fst (List.fold_left addKeyword l m)))
    /\ (forall k, List.In k (List.map fst m) ->
                  List.In k (List.map fst (List.fold_left addKeyword l m))).
Proof.
  induction l as [|c l IH]; intros m; simpl.
  - split; [intros c []|tauto].
  - destruct (addKeyword_keys m c) as [Hc Hk].
    destruct (IH (addKeyword m c)) as [IH1 IH2]. split.
    + intros x [<-|Hx]; [apply IH2; exact Hc|apply IH1; exact Hx].
    + intros k Hin. apply IH2, Hk, Hin.
Qed.

(** [X21] The results of [hybridChunkSearch] (rows with distinct ids): at
    most [topK] of them, in order of decreasing score, no row twice, each a
    row of the video.  No candidate is lost but by the cut: when fewer than
    [topK] results come back, every row of the semantic top-set and every
    row a query keyword matches is among them. *)
Theorem hybridChunkSearch_ranked :
  forall (allChunks : list row) (query : JS.jsstring) (topK : nat),
    List.NoDup (List.map id allChunks) ->
    let results := hybridChunkSearch allChunks query topK in
    (List.length results <= topK)%nat
    /\ StronglySorted (fun a b => (score b <= score a)%Q) results
    /\ List.NoDup (List.map (fun r => id (res_row r)) results)
    /\ List.Forall (fun r => List.In (res_row r) allChunks) results
    /\ ((List.length results < topK)%nat ->
        forall c, List.In c allChunks ->
                  List.In c (topSet allChunks topK) \/ matched query c = true ->
                  exists r, List.In r results /\ res_row r = c).
Proof.
  intros allChunks query topK Hnd results.
  unfold results, hybridChunkSearch.
  fold (topSet allChunks topK).
  set (top := topSet allChunks topK).
  set (qk := extractKeywords query).
  set (kw := if 0 <? Z.of_nat (List.length qk)
             then List.filter (keywordMatch qk) allChunks else []).
  assert (Htop : forall x, List.In x top -> List.In x allChunks).
  { intros x Hx. unfold top, topSet in Hx. apply firstn_In in Hx.
    apply In_sortDesc in Hx. exact Hx. }
  assert (Hkw : forall x, List.In x kw -> List.In x allChunks).
  { intros x Hx. unfold kw in Hx.
    destruct (0 <? Z.of_nat (List.length qk)); [|contradiction].
    apply List.filter_In in Hx. tauto. }
  assert (Hmatched : forall x, List.In x allChunks -> matched query x = true ->
                               List.In x kw).
  { intros x Hx Hm. unfold matched in Hm. fold qk in Hm. unfold kw.
    apply andb_true_iff in Hm. destruct Hm as [H1 H2]. rewrite H1.
    apply List.filter_In. tauto. }
  assert (Hkwnd : List.NoDup kw).
  { unfold kw. destruct (0 <? Z.of_nat (List.length qk)); [|constructor].
    apply List.NoDup_filter. apply (List.NoDup_map_inv id). exact Hnd. }
  destruct (fold_addSemantic top top [] (fun c H => H)) as (Hs & Hcov & _).
  { split; [constructor|]. intros k v []. }
  set (m0 := List.fold_left addSemantic top []) in *.
  assert (Hm0 : keywordMap allChunks top [] m0).
  { destruct Hs as [Hk Hent]. split; [exact Hk|]. split; [exact Hcov|].
    intros k v Hin. destruct (Hent k v Hin) as (H1 & H2 & H3). cbv zeta.
    split; [exact H1|]. split; [apply Htop; exact H2|].
    left. split; [exact H2|]. split; [intros []|exact H3]. }
  pose proof (fold_addKeyword allChunks top Hnd kw [] m0 Hkwnd Hkw Hm0) as Hm1.
  simpl List.app in Hm1.
  destruct (fold_addKeyword_keys kw m0) as [Hkwkeys _].
  set (m1 := List.fold_left addKeyword kw m0) in *.
  destruct Hm1 as (Hkeys & Hcov1 & Hent).
  assert (Hids : List.map (fun r => id (res_row r)) (List.map snd m1)
                 = List.map fst m1).
  { rewrite List.map_map. apply List.map_ext_in. intros [k v] Hin.
    destruct (Hent k v Hin) as (Hk & _). simpl. symmetry. exact Hk. }
  pose proof (sortDesc_perm score (List.map snd m1)) as Hperm.
  set (sorted := Score.sortDesc score (List.map snd m1)) in *.
  split; [apply List.firstn_le_length|].
  split; [apply sorted_firstn; apply sortDesc_sorted|].
  split; [|split].
  - assert (Hall : List.NoDup (List.map (fun r => id (res_row r)) sorted)).
    { apply (Permutation_NoDup
               (Permutation_sym (Permutation_map (fun r => id (res_row r)) Hperm))).
      rewrite Hids. exact Hkeys. }
    rewrite <- (List.firstn_skipn topK sorted), List.map_app in Hall.
    apply List.NoDup_app_remove_r in Hall. exact Hall.
  - apply List.Forall_forall. intros r Hr. apply firstn_In in Hr.
    apply (Permutation_in _ Hperm) in Hr. apply List.in_map_iff in Hr.
    destruct Hr as ([k v] & <- & Hin).
    destruct (Hent k v Hin) as (_ & Hall & _). exact Hall.
  - intros Hshort c Hc Hcand.
    assert (Hfull : List.firstn topK sorted = sorted).
    { apply List.firstn_all2.
      destruct (Nat.le_gt_cases (List.length sorted) topK) as [H|H]; [exact H|].
      rewrite List.length_firstn in Hshort. lia. }
    rewrite Hfull.
    assert (Hkey : List.In (id c) (List.map fst m1)).
    { destruct Hcand as [Ht|Hm]; [apply Hcov1; exact Ht|].
      apply Hkwkeys. apply Hmatched; assumption. }
    apply List.in_map_iff in Hkey. destruct Hkey as ([k v] & Hk & Hin).
    simpl in Hk. subst k.
    destruct (Hent _ v Hin) as (Hid & Hall & _).
    exists v. split.
    + apply (Permutation_in _ (Permutation_sym Hperm)).
      apply List.in_map_iff. exists (id c, v). split; [reflexivity|exact Hin].
    + apply (id_injective allChunks _ _ Hnd Hall Hc). symmetry. exact Hid.
Qed.

Lemma hybridChunkSearch_ranked_witness :
  List.map (fun r => id (res_row r))
           (hybridChunkSearch [Examples.rowA; Examples.rowB]
              Examples.searchQuery 5)
  = ["B"; "A"]%string
  /\ List.NoDup (List.map (fun r => id (res_row r))
                   (hybridChunkSearch [Examples.rowA; Examples.rowB]
                      Examples.searchQuery 5)).
Proof.
  split; [vm_compute; reflexivity|].
  destruct (hybridChunkSearch_ranked [Examples.rowA; Examples.rowB]
              Examples.searchQuery 5) as (_ & _ & H & _).
  - vm_compute. constructor; [intros [H|[]]; discriminate H|].
    constructor; [intros []|constructor].
  - exact H.
Defined.

(** The list [enhancedChunks] that [searchVideoChunks] hands to
    [retrieveChunkTexts]: at most [limit] rows, in order of decreasing
    boosted score, each a row of the video with an embedding and a
    similarity above 0.7.  The rows are chosen by similarity alone, before
    the keyword boost: a row of the video above the threshold that is not
    in the list is no more similar than any row in it. *)
Lemma searchVideoChunks_selection :
  forall (table : list RagService.chunkRow) (video : string)
         (keywords : list JS.jsstring) (limit : nat),
    let results :=
      RagService.searchVideoChunks table (Some video) keywords limit in
    (List.length results <= limit)%nat
    /\ StronglySorted
         (fun a b => (RagService.score b <= RagService.score a)%Q) results
    /\ List.Forall
         (fun e => List.In (RagService.chunk e) table
                   /\ RagService.video_id (RagService.chunk e) = video
                   /\ RagService.has_embedding (RagService.chunk e) = true
                   /\ (7 # 10 < RagService.similarity (RagService.chunk e))%Q)
         results
    /\ (forall c,
          List.In c table -> RagService.video_id c = video ->
          RagService.has_embedding c = true ->
          (7 # 10 < RagService.similarity c)%Q ->
          (exists e, List.In e results /\ RagService.chunk e = c)
          \/ (List.length results = limit
              /\ List.Forall
                   (fun e => (RagService.similarity c
                              <= RagService.similarity (RagService.chunk e))%Q)
                   results))
    /\ RagService.searchVideoChunks table None keywords limit = [].
Proof.
  intros table video keywords limit results.
  unfold results, RagService.searchVideoChunks,
    RagService.search_transcript_chunks.
  set (p := fun tc => String.eqb (RagService.video_id tc) video
                      && RagService.has_embedding tc
                      && Score.ltb (7 # 10) (RagService.similarity tc)).
  set (cands := List.filter p table).
  set (chosen := List.firstn limit (Score.sortDesc RagService.similarity cands)).
  pose proof (sortDesc_perm RagService.score
                (List.map (RagService.enhance keywords) chosen)) as Hperm.
  set (out := Score.sortDesc RagService.score
                (List.map (RagService.enhance keywords) chosen)) in *.
  assert (Hlen : List.length out = List.length chosen).
  { rewrite (Permutation_length Hperm). apply List.length_map. }
  assert (Hp : forall c, p c = true <->
                         RagService.video_id c = video
                         /\ RagService.has_embedding c = true
                         /\ (7 # 10 < RagService.similarity c)%Q).
  { intros c. unfold p. rewrite !andb_true_iff, String.eqb_eq.
    unfold Score.ltb. rewrite negb_true_iff.
    split.
    - intros [[H1 H2] H3]. split; [exact H1|]. split; [exact H2|].
      destruct (Qlt_le_dec (7 # 10) (RagService.similarity c)) as [H|H];
        [exact H|].
      apply Qle_bool_iff in H. congruence.
    - intros (H1 & H2 & H3). split; [split; assumption|].
      destruct (Qle_bool (RagService.similarity c) (7 # 10)) eqn:E;
        [|reflexivity].
      apply Qle_bool_iff in E. exfalso. apply (Qlt_not_le _ _ H3 E). }
  split; [rewrite Hlen; apply List.firstn_le_length|].
  split; [apply sortDesc_sorted|]. split; [|split; [|reflexivity]].
  - apply List.Forall_forall. intros e He.
    apply (Permutation_in _ Hperm) in He. apply List.in_map_iff in He.
    destruct He as (c & <- & Hc). unfold chosen in Hc.
    apply firstn_In in Hc. apply In_sortDesc in Hc.
    apply List.filter_In in Hc. destruct Hc as [Hin Hc].
    apply Hp in Hc. simpl. tauto.
  - intros c Hin Hv He Hs.
    assert (Hc : List.In c cands).
    { apply List.filter_In. split; [exact Hin|]. apply Hp. tauto. }
    pose proof (top_of_sorted RagService.similarity limit cands c Hc) as Htop.
    change (List.firstn limit (Score.sortDesc RagService.similarity cands))
      with chosen in Htop.
    destruct Htop as [Hchosen|[Hfull Hbest]].
    + left. exists (RagService.enhance keywords c). split; [|reflexivity].
      apply (Permutation_in _ (Permutation_sym Hperm)).
      apply List.in_map. exact Hchosen.
    + right. split; [rewrite Hlen; exact Hfull|].
      apply List.Forall_forall. intros e Hout.
      apply (Permutation_in _ Hperm) in Hout. apply List.in_map_iff in Hout.
      destruct Hout as (c' & <- & Hc'). simpl.
      rewrite List.Forall_forall in Hbest. apply Hbest. exact Hc'.
Qed.

End SearchRanking.

(* ------------------------------------------------------------------ *)
(** ** [retrieveChunkTexts]: what the searches of the RAG service return *)

Section RetrievedTexts.
Import JS Retrieval.

Lemma push_iff :
  forall (C : Type) (m : paths) (k : string) (c : C) (k0 : string) (x : C),
    (exists l0, List.In (k0, l0) (push m k c) /\ List.In x l0)
    <-> (k0 = k /\ x = c) \/ (exists l, List.In (k0, l) m /\ List.In x l).
Proof.
  intros C m k c k0 x. induction m as [|[k' l] m IH]; simpl.
  - split.
    + intros (l0 & [H|[]] & Hx). injection H as <- <-.
      destruct Hx as [<-|[]]. left. split; reflexivity.
    + intros [[-> ->]|(l & [] & _)].
      exists [c]. split; [left; reflexivity|left; reflexivity].
  - destruct (String.eqb k' k) eqn:E; simpl.
    + apply String.eqb_eq in E. subst k'. split.
      * intros (l0 & [H|H] & Hx).
        -- injection H as <- <-. apply List.in_app_or in Hx.
           destruct Hx as [Hx|[<-|[]]].
           ++ right. exists l. split; [left; reflexivity|exact Hx].
           ++ left. split; reflexivity.
        -- right. exists l0. split; [right; exact H|exact Hx].
      * intros [[-> ->]|(l1 & [H|H] & Hx)].
        -- exists (l ++ [c]). split; [left; reflexivity|].
           apply List.in_or_app. right. left. reflexivity.
        -- injection H as <- <-. exists (l ++ [c]).
           split; [left; reflexivity|].
           apply List.in_or_app. left. exact Hx.
        -- exists l1. split; [right; exact H|exact Hx].
    + split.
      * intros (l0 & [H|H] & Hx).
        -- injection H as <- <-. right. exists l.
           split; [left; reflexivity|exact Hx].
        -- destruct (proj1 IH (ex_intro _ l0 (conj H Hx))) as [Hl|(l1 & H1 & H2)];
             [left; exact Hl|].
           right. exists l1. split; [right; exact H1|exact H2].
      * intros [Hl|(l1 & [H|H] & Hx)].
        -- destruct (proj2 IH (or_introl Hl)) as (l0 & H1 & H2).
           exists l0. split; [right; exact H1|exact H2].
        -- exists l1. split; [left; exact H|exact Hx].
        -- destruct (proj2 IH (or_intror (ex_intro _ l1 (conj H Hx))))
             as (l0 & H1 & H2).
           exists l0. split; [right; exact H1|exact H2].
Qed.

Lemma chunksByPath_members :
  forall (C : Type) (storage_path : C -> option string)
         (chunks done : list C) (m : paths),
    (forall k c, (exists l, List.In (k, l) m /\ List.In c l)
                 <-> List.In c done /\ storage_path c = Some k
                     /\ k <> ""%string) ->
    forall k c,
      (exists l, List.In (k, l) (List.fold_left (addChunk storage_path) chunks m)
                 /\ List.In c l)
      <-> List.In c (done ++ chunks) /\ storage_path c = Some k
          /\ k <> ""%string.
Proof.
  intros C storage_path chunks.
  induction chunks as [|x chunks IH]; intros done m Hm k c.
  - simpl. rewrite List.app_nil_r. apply Hm.
  - simpl. replace (done ++ x :: chunks) with ((done ++ [x]) ++ chunks)
      by (rewrite <- List.app_assoc; reflexivity).
    apply IH. clear k c. intros k c. unfold addChunk.
    rewrite List.in_app_iff. simpl.
    destruct (storage_path x) as [p|] eqn:Ep.
    + destruct (String.eqb_spec p "") as [E|E].
      * rewrite Hm. split; [tauto|].
        intros ([H|[<-|[]]] & Hs & Hk); [tauto|].
        rewrite Ep in Hs. injection Hs as <-. contradiction.
      * rewrite push_iff, Hm. split.
        -- intros [[-> ->]|(H1 & H2 & H3)]; [|tauto].
           split; [right; left; reflexivity|]. split; [exact Ep|exact E].
        -- intros ([H|[<-|[]]] & Hs & Hk); [right; tauto|].
           left. rewrite Ep in Hs. injection Hs as <-. split; reflexivity.
    + rewrite Hm. split; [tauto|].
      intros ([H|[<-|[]]] & Hs & Hk); [tauto|].
      rewrite Ep in Hs. discriminate Hs.
Qed.

Lemma retrieveChunkTexts_members :
  forall (C : Type) (storage_path : C -> option string)
         (start_time end_time : C -> Z)
         (download : string -> option (list VideoProcessor.segment))
         (chunks : list C) (c : C) (txt : jsstring),
    List.In (c, txt)
            (retrieveChunkTexts storage_path start_time end_time download chunks)
    <-> List.In c chunks
        /\ exists p transcript,
             storage_path c = Some p /\ p <> ""%string
             /\ download p = Some transcript
             /\ txt = fullText start_time end_time transcript c.
Proof.
  intros C storage_path start_time end_time download chunks c txt.
  pose proof (chunksByPath_members C storage_path chunks [] []) as Hm.
  simpl List.app in Hm. fold (chunksByPath storage_path chunks) in Hm.
  assert (H0 : forall k c0,
             (exists l : list C, List.In (k, l) [] /\ List.In c0 l)
             <-> List.In c0 [] /\ storage_path c0 = Some k /\ k <> ""%string).
  { intros k c0. split; [intros (l & [] & _)|intros ([] & _)]. }
  specialize (Hm H0). clear H0.
  unfold retrieveChunkTexts. rewrite List.in_flat_map. split.
  - intros ([k l] & Hin & Hc). simpl in Hc.
    destruct (download k) as [transcript|] eqn:Ed; [|contradiction].
    apply List.in_map_iff in Hc. destruct Hc as (c0 & E & Hc0).
    injection E as -> <-.
    destruct (proj1 (Hm k c) (ex_intro _ l (conj Hin Hc0))) as (H1 & H2 & H3).
    split; [exact H1|]. exists k, transcript. repeat split; assumption.
  - intros (Hin & p & transcript & Hs & Hp & Hd & ->).
    destruct (proj2 (Hm p c) (conj Hin (conj Hs Hp))) as (l & Hl & Hc).
    exists (p, l). split; [exact Hl|]. simpl. rewrite Hd.
    apply List.in_map_iff. exists c. split; [reflexivity|exact Hc].
Qed.

Lemma no_member_nil :
  forall (A : Type) (l : list A), (forall x, ~ List.In x l) -> l = [].
Proof.
  intros A [|x l] H; [reflexivity|]. exfalso. apply (H x). left. reflexivity.
Qed.

(** [X22] What the searches of the RAG service return.
    [retrieveChunkTexts] returns exactly the chunks that have a
    [storage_path] whose blob could be downloaded and parsed, each with the
    texts of the segments inside its time range; a chunk without a
    [storage_path] is dropped.  The rows [search_transcript_chunks] and
    [search_channel_chunks] answer have no such column, so
    [searchVideoChunks] and [searchChannelChunks] return the empty list
    whatever the tables hold, whether or not the embedding, the procedure
    and the reading of the previews succeed: the ranked selection they
    build never reaches the caller. *)
Theorem rag_searches_return_nothing :
  (forall (C : Type) (storage_path : C -> option string)
          (start_time end_time : C -> Z)
          (download : string -> option (list VideoProcessor.segment))
          (chunks : list C),
      (forall c txt,
          List.In (c, txt)
            (retrieveChunkTexts storage_path start_time end_time download chunks)
          <-> List.In c chunks
              /\ exists p transcript,
                   storage_path c = Some p /\ p <> ""%string
                   /\ download p = Some transcript
                   /\ txt = fullText start_time end_time transcript c)
      /\ ((forall c, List.In c chunks -> storage_path c = None) ->
          retrieveChunkTexts storage_path start_time end_time download chunks
          = []))
  /\ (forall (embedded answered : bool)
             (hasPreview : RagService.chunkRow -> bool)
             (start_time end_time : RagService.enhancedChunk -> Z)
             (download : string -> option (list VideoProcessor.segment))
             (table : list RagService.chunkRow) (video : option string)
             (keywords : list jsstring) (limit : nat),
        Retrieval.searchVideoChunks embedded answered hasPreview start_time
          end_time download table video keywords limit = [])
  /\ (forall (embedded answered : bool)
             (hasPreview : RagService.chunkRow -> bool)
             (start_time end_time : RagService.enhancedChunk -> Z)
             (download : string -> option (list VideoProcessor.segment))
             (chunks : list RagService.chunkRow)
             (keywords : list jsstring) (limit : nat),
        Retrieval.searchChannelChunks embedded answered hasPreview start_time
          end_time download chunks keywords limit = []).
Proof.
  assert (Hnone : forall (C : Type) (storage_path : C -> option string)
                         (start_time end_time : C -> Z)
                         (download : string -> option (list VideoProcessor.segment))
                         (chunks : list C),
             (forall c, List.In c chunks -> storage_path c = None) ->
             retrieveChunkTexts storage_path start_time end_time download chunks
             = []).
  { intros C storage_path start_time end_time download chunks Hno.
    apply no_member_nil. intros [c txt] Hin.
    apply retrieveChunkTexts_members in Hin.
    destruct Hin as (Hc & p & transcript & Hs & _).
    rewrite (Hno c Hc) in Hs. discriminate Hs. }
  split; [|split].
  - intros C storage_path start_time end_time download chunks.
    split; [apply retrieveChunkTexts_members|apply Hnone].
  - intros embedded answered hasPreview start_time end_time download table
      video keywords limit.
    unfold Retrieval.searchVideoChunks.
    destruct (negb embedded); [reflexivity|].
    destruct video as [video_id|]; [|reflexivity].
    destruct (negb answered); [reflexivity|]. cbv zeta.
    destruct (negb (List.forallb hasPreview
                      (RagService.search_transcript_chunks table video_id
                         (7 # 10) limit))
              && (0 <? Z.of_nat (List.length keywords))); [reflexivity|].
    apply Hnone. intros c _. reflexivity.
  - intros embedded answered hasPreview start_time end_time download chunks
      keywords limit.
    unfold Retrieval.searchChannelChunks.
    destruct (negb embedded); [reflexivity|].
    destruct (negb answered); [reflexivity|].
    destruct (negb (List.forallb hasPreview chunks)
              && (0 <? Z.of_nat (List.length keywords))); [reflexivity|].
    apply Hnone. intros c _. reflexivity.
Qed.

End RetrievedTexts.

(* ------------------------------------------------------------------ *)
(** ** [searchChannelChunks]: the balance between the videos *)

Section ChannelBalance.
Import RagService ChannelSearch.

Lemma push_keys :
  forall (m : groups) (k : string) (e : enhancedChunk),
    List.map fst (push m k e)
    = if List.existsb (String.eqb k) (List.map fst m)
      then List.map fst m else List.map fst m ++ [k].
Proof.
  induction m as [|[k' l] m IH]; intros k e; simpl; [reflexivity|].
  rewrite (String.eqb_sym k k').
  destruct (String.eqb k' k) eqn:E; simpl; [reflexivity|].
  rewrite IH. destruct (List.existsb (String.eqb k) (List.map fst m));
    reflexivity.
Qed.

Lemma push_members :
  forall (m : groups) (k : string) (e : enhancedChunk) (k0 : string)
         (l0 : list enhancedChunk) (x : enhancedChunk),
    List.In (k0, l0) (push m k e) -> List.In x l0 ->
    (k0 = k /\ x = e) \/ exists l, List.In (k0, l) m /\ List.In x l.
Proof.
  induction m as [|[k' l] m IH]; intros k e k0 l0 x Hin Hx; simpl in Hin.
  - destruct Hin as [H|[]]. injection H as <- <-.
    destruct Hx as [<-|[]]. left. split; reflexivity.
  - destruct (String.eqb k' k) eqn:E.
    + apply String.eqb_eq in E. subst k'. destruct Hin as [H|Hin].
      * injection H as <- <-. apply List.in_app_or in Hx.
        destruct Hx as [Hx|[<-|[]]].
        -- right. exists l. split; [left; reflexivity|exact Hx].
        -- left. split; reflexivity.
      * right. exists l0. split; [right; exact Hin|exact Hx].
    + destruct Hin as [H|Hin].
      * injection H as <- <-. right. exists l.
        split; [left; reflexivity|exact Hx].
      * destruct (IH k e k0 l0 x Hin Hx) as [H|(l1 & H1 & H2)];
          [left; exact H|].
        right. exists l1. split; [right; exact H1|exact H2].
Qed.

Lemma existsb_eqb_In :
  forall (k : string) (l : list string),
    List.existsb (String.eqb k) l = true <-> List.In k l.
Proof.
  intros k l. rewrite List.existsb_exists. split.
  - intros (x & Hx & E). apply String.eqb_eq in E. subst x. exact Hx.
  - intros H. exists k. split; [exact H|apply String.eqb_refl].
Qed.

(** What holds of [videoChunks] after the rows [done]. *)
Lemma grouped_invariant :
  forall (keywords : list JS.jsstring) (chunks done : list chunkRow) (m : groups),
    List.NoDup (List.map fst m) ->
    (forall k, List.In k (List.map fst m) <-> List.In k (List.map video_id done)) ->
    (forall k l x, List.In (k, l) m -> List.In x l ->
                   video_id (chunk x) = k
                   /\ exists c, List.In c done /\ x = enhance keywords c) ->
    let m' := List.fold_left
                (fun m c => push m (video_id c) (enhance keywords c)) chunks m in
    List.NoDup (List.map fst m')
    /\ (forall k, List.In k (List.map fst m')
                  <-> List.In k (List.map video_id (done ++ chunks)))
    /\ (forall k l x, List.In (k, l) m' -> List.In x l ->
                      video_id (chunk x) = k
                      /\ exists c, List.In c (done ++ chunks)
                                   /\ x = enhance keywords c).
Proof.
  intros keywords chunks.
  induction chunks as [|c chunks IH]; intros done m Hnd Hkeys Hmem; simpl.
  - rewrite List.app_nil_r. split; [exact Hnd|]. split; [exact Hkeys|exact Hmem].
  - replace (done ++ c :: chunks) with ((done ++ [c]) ++ chunks)
      by (rewrite <- List.app_assoc; reflexivity).
    apply IH.
    + rewrite push_keys.
      destruct (List.existsb (String.eqb (video_id c)) (List.map fst m)) eqn:E;
        [exact Hnd|].
      apply List.NoDup_app; [exact Hnd|repeat constructor; tauto|].
      intros k Hk [<-|[]].
      apply existsb_eqb_In in Hk. congruence.
    + intros k. rewrite push_keys, List.map_app, List.in_app_iff. simpl.
      destruct (List.existsb (String.eqb (video_id c)) (List.map fst m)) eqn:E.
      * apply existsb_eqb_In in E. rewrite Hkeys. split; [tauto|].
        intros [H|[<-|[]]]; [exact H|]. apply Hkeys. exact E.
      * rewrite List.in_app_iff, Hkeys. simpl. tauto.
    + intros k l x Hin Hx.
      destruct (push_members _ _ _ _ _ _ Hin Hx) as [[-> ->]|(l1 & H1 & H2)].
      * split; [reflexivity|]. exists c. split; [|reflexivity].
        apply List.in_or_app. right. left. reflexivity.
      * destruct (Hmem k l1 x H1 H2) as [Hv (c0 & Hc0 & Hx0)].
        split; [exact Hv|]. exists c0. split; [|exact Hx0].
        apply List.in_or_app. left. exact Hc0.
Qed.

Lemma filter_firstn_length :
  forall (A : Type) (p : A -> bool) (n : nat) (l : list A),
    (List.length (List.filter p (List.firstn n l))
     <= List.length (List.filter p l))%nat.
Proof.
  intros A p n l. rewrite <- (List.firstn_skipn n l) at 2.
  rewrite List.filter_app, List.length_app. lia.
Qed.

Lemma filter_perm_length :
  forall (A : Type) (p : A -> bool) (l l' : list A),
    Permutation l l' ->
    List.length (List.filter p l) = List.length (List.filter p l').
Proof.
  intros A p l l' H. induction H as [|x l l' _ IH|x y l|l l' l'' _ IH1 _ IH2];
    simpl.
  - reflexivity.
  - destruct (p x); simpl; lia.
  - destruct (p x), (p y); reflexivity.
  - lia.
Qed.

Lemma one_group_per_video :
  forall (v : string) (cap : nat) (m : groups),
    List.NoDup (List.map fst m) ->
    (forall k l x, List.In (k, l) m -> List.In x l -> video_id (chunk x) = k) ->
    (List.length
       (ofVideo v
          (List.flat_map
             (fun kv => List.firstn cap (Score.sortDesc score (snd kv))) m))
     <= cap)%nat.
Proof.
  intros v cap m Hnd Hmem.
  assert (Hnone : forall m0 : groups,
             ~ List.In v (List.map fst m0) ->
             (forall k l x, List.In (k, l) m0 -> List.In x l ->
                            video_id (chunk x) = k) ->
             ofVideo v
               (List.flat_map
                  (fun kv => List.firstn cap (Score.sortDesc score (snd kv))) m0)
             = []).
  { induction m0 as [|[k l] m0 IH0]; intros Hv Hm0; [reflexivity|].
    simpl. unfold ofVideo. rewrite List.filter_app.
    fold (ofVideo v (List.firstn cap (Score.sortDesc score l))).
    fold (ofVideo v (List.flat_map
            (fun kv => List.firstn cap (Score.sortDesc score (snd kv))) m0)).
    rewrite IH0.
    - rewrite List.app_nil_r. apply filter_none. intros x Hx.
      apply firstn_In in Hx. apply In_sortDesc in Hx.
      apply String.eqb_neq. intros E. apply Hv. left. simpl.
      rewrite <- E. symmetry. apply (Hm0 k l x); [left; reflexivity|exact Hx].
    - intros H. apply Hv. right. exact H.
    - intros k0 l0 x H1 H2. apply (Hm0 k0 l0 x); [right; exact H1|exact H2]. }
  induction m as [|[k l] m IH]; [simpl; lia|].
  simpl in Hnd. inversion Hnd as [|a b Hnot Hrest]; subst.
  simpl. unfold ofVideo. rewrite List.filter_app, List.length_app.
  fold (ofVideo v (List.firstn cap (Score.sortDesc score l))).
  fold (ofVideo v (List.flat_map
          (fun kv => List.firstn cap (Score.sortDesc score (snd kv))) m)).
  destruct (String.eqb_spec k v) as [E|E].
  - subst k. rewrite (Hnone m Hnot).
    + simpl. rewrite Nat.add_0_r.
      pose proof (List.filter_length_le
                    (fun e => String.eqb (video_id (chunk e)) v)
                    (List.firstn cap (Score.sortDesc score l))) as H1.
      pose proof (List.firstn_le_length cap (Score.sortDesc score l)) as H2.
      unfold ofVideo. lia.
    + intros k0 l0 x H1 H2. apply (Hmem k0 l0 x); [right; exact H1|exact H2].
  - assert (H0 : ofVideo v (List.firstn cap (Score.sortDesc score l)) = []).
    { apply filter_none. intros x Hx. apply firstn_In in Hx.
      apply In_sortDesc in Hx. apply String.eqb_neq. intros E'. apply E.
      rewrite <- E'. symmetry. apply (Hmem k l x); [left; reflexivity|exact Hx]. }
    rewrite H0. simpl. apply IH; [exact Hrest|].
    intros k0 l0 x H1 H2. apply (Hmem k0 l0 x); [right; exact H1|exact H2].
Qed.

(** [X23] What [searchChannelChunks] selects from the rows the procedure
    returned: at most [limit] results, in order of decreasing boosted
    score, each one a returned row with its boost; and the videos are
    balanced: with [n] different videos among the rows, no video has more
    than [ceil(limit / min(n, 3))] results, whatever the scores of its
    rows.  Without rows it selects nothing. *)
Theorem searchChannelChunks_balanced :
  forall (chunks : list chunkRow) (keywords : list JS.jsstring) (limit : nat),
    let results := searchChannelChunks chunks keywords limit in
    let videos := List.map fst (grouped keywords chunks) in
    (List.length results <= limit)%nat
    /\ StronglySorted (fun a b => (score b <= score a)%Q) results
    /\ List.Forall
         (fun e => exists c, List.In c chunks /\ e = enhance keywords c) results
    /\ List.NoDup videos
    /\ (forall v, List.In v videos <-> List.In v (List.map video_id chunks))
    /\ (forall v, (List.length (ofVideo v results)
                   <= maxChunksPerVideo limit (List.length videos))%nat)
    /\ searchChannelChunks [] keywords limit = [].
Proof.
  intros chunks keywords limit results videos.
  destruct (grouped_invariant keywords chunks [] []) as (Hnd & Hkeys & Hmem).
  { constructor. }
  { intros k. simpl. tauto. }
  { intros k l x []. }
  simpl List.app in Hkeys, Hmem. fold (grouped keywords chunks) in Hnd, Hkeys, Hmem.
  unfold results, searchChannelChunks.
  set (m := grouped keywords chunks) in *.
  set (cap := maxChunksPerVideo limit (List.length m)).
  set (final := List.flat_map
                  (fun kv => List.firstn cap (Score.sortDesc score (snd kv))) m).
  pose proof (sortDesc_perm score final) as Hperm.
  split; [apply List.firstn_le_length|].
  split; [apply sorted_firstn; apply sortDesc_sorted|].
  split; [|split; [exact Hnd|split; [exact Hkeys|split; [|apply List.firstn_nil]]]].
  - apply List.Forall_forall. intros e He. apply firstn_In in He.
    apply (Permutation_in _ Hperm) in He. unfold final in He.
    apply List.in_flat_map in He. destruct He as ([k l] & Hin & He).
    simpl in He. apply firstn_In in He. apply In_sortDesc in He.
    destruct (Hmem k l e Hin He) as [_ H]. exact H.
  - intros v. unfold videos. rewrite List.length_map. fold cap.
    unfold ofVideo at 1.
    pose proof (filter_firstn_length _
                  (fun e => String.eqb (video_id (chunk e)) v) limit
                  (Score.sortDesc score final)) as H1.
    rewrite (filter_perm_length _ _ _ _ Hperm) in H1.
    pose proof (one_group_per_video v cap m Hnd
                  (fun k l x H1 H2 => proj1 (Hmem k l x H1 H2))) as H2.
    fold final in H2. unfold ofVideo in H2. lia.
Qed.

End ChannelBalance.

(* ------------------------------------------------------------------ *)
(** ** The frames of a chat stream *)

Section ChatFrames.
Import ChatService ChatTrace.

Variable citation : Type.
Variable extractCitations : string -> list citation.

Lemma joinAll_app :
  forall a b : list string, joinAll (a ++ b) = (joinAll a ++ joinAll b)%string.
Proof.
  induction a as [|x a IH]; intros b; [reflexivity|].
  change (joinAll ((x :: a) ++ b)) with (x ++ joinAll (a ++ b))%string.
  change (joinAll (x :: a)) with (x ++ joinAll a)%string.
  rewrite IH, string_app_assoc. reflexivity.
Qed.

Lemma consume_contents :
  forall (events : list streamEvent) (full : string)
         (frames : list (frame citation)),
    exists contents : list string,
      fst (fst (consume citation events full frames))
      = (full ++ joinAll contents)%string
      /\ snd (fst (consume citation events full frames))
         = frames ++ List.map ContentFrame contents
      /\ List.Forall (fun c => c <> ""%string) contents.
Proof.
  induction events as [|e events IH]; intros full frames.
  - exists []. simpl. rewrite string_app_empty, List.app_nil_r.
    split; [reflexivity|]. split; [reflexivity|constructor].
  - destruct e as [active c|m].
    + destruct active.
      * cbn [consume negb].
        set (content := match c with Some c0 => c0 | None => ""%string end).
        destruct (String.eqb content "") eqn:E; cbn [negb].
        -- apply IH.
        -- destruct (IH (full ++ content)%string
                        (frames ++ [ContentFrame content]))
             as (contents & H1 & H2 & H3).
           exists (content :: contents). rewrite H1, H2.
           split; [apply string_app_assoc|].
           split; [rewrite <- List.app_assoc; reflexivity|].
           constructor; [apply String.eqb_neq; exact E|exact H3].
      * exists []. simpl. rewrite string_app_empty, List.app_nil_r.
        split; [reflexivity|]. split; [reflexivity|constructor].
    + exists []. simpl. rewrite string_app_empty, List.app_nil_r.
      split; [reflexivity|]. split; [reflexivity|constructor].
Qed.

(** [X24] What a client of [streamChat] receives, whatever the model sends
    and whenever the client leaves: content frames, none of them empty,
    then exactly one closing frame, [done] or [error], and the response is
    ended.  After an [error] frame nothing was stored.  After a [done]
    frame the citations are those of the context followed by those
    extracted from the text of the content frames, and either nothing was
    stored or exactly two messages were inserted, the last user message
    and an assistant message whose text is the content frames joined: the
    history holds what the client was sent.  The row of the session is
    never updated. *)
Theorem streamChat_frame_protocol :
  forall (messages : list message) (sessionId : option string)
         (contextCitations : list citation) (events : list streamEvent),
    let o := streamChat citation extractCitations messages sessionId
               contextCitations events in
    ended o = true
    /\ exists (contents : list string) (closing : frame citation),
         written o = List.map ContentFrame contents ++ [closing]
         /\ List.Forall (fun c => c <> ""%string) contents
         /\ match closing with
            | ContentFrame _ => False
            | ErrorFrame _ => requests o = []
            | DoneFrame cs =>
                cs = contextCitations ++ extractCitations (joinAll contents)
                /\ (requests o = []
                    \/ exists sid m,
                         sessionId = Some sid
                         /\ lastMessage messages = Some m
                         /\ requests o
                            = [ InsertMessage sid "user" (content m) None;
                                InsertMessage sid "assistant" (joinAll contents)
                                  (match extractCitations (joinAll contents) with
                                   | [] => None
                                   | _ => Some (extractCitations
                                                  (joinAll contents))
                                   end) ])
            end.
Proof.
  intros messages sessionId ctx events o.
  destruct (consume_contents events "" []) as (contents & H1 & H2 & H3).
  unfold o, streamChat.
  destruct (consume citation events "" []) as [[full frames] err].
  simpl in H1, H2. subst full frames.
  destruct err as [m|].
  - split; [reflexivity|]. exists contents, (ErrorFrame m).
    split; [reflexivity|]. split; [exact H3|reflexivity].
  - split; [reflexivity|]. eexists contents, (DoneFrame _).
    cbn [written requests]. split; [reflexivity|]. split; [exact H3|].
    split; [reflexivity|].
    destruct sessionId as [sid|]; [|left; reflexivity].
    destruct (String.eqb sid ""); [left; reflexivity|].
    destruct (lastMessage messages) as [m|] eqn:El; [|left; reflexivity].
    right. exists sid, m. split; [reflexivity|]. split; reflexivity.
Qed.

End ChatFrames.

(* ------------------------------------------------------------------ *)
(** ** The helpers of src/utils/helpers.js *)

Section HelperFunctions.
Import JS Helpers.

Lemma ceil_div_step :
  forall n size : nat,
    (1 <= size)%nat -> (1 <= n)%nat ->
    ((n + size - 1) / size = S ((n - size + size - 1) / size))%nat.
Proof.
  intros n size Hs Hn.
  destruct (Nat.le_gt_cases n size) as [Hle|Hgt].
  - replace (n - size)%nat with 0%nat by lia.
    rewrite (Nat.div_small (0 + size - 1) size) by lia.
    replace (n + size - 1)%nat with ((n - 1) + 1 * size)%nat by lia.
    rewrite Nat.div_add by lia. rewrite Nat.div_small by lia. reflexivity.
  - replace (n + size - 1)%nat with ((n - size + size - 1) + 1 * size)%nat by lia.
    rewrite Nat.div_add by lia. lia.
Qed.

Lemma chunkLoop_pieces :
  forall (A : Type) (array : list A) (size : nat),
    (1 <= size)%nat ->
    forall (fuel i : nat) (acc : list (list A)),
      (List.length array - i < fuel)%nat ->
      exists pieces : list (list A),
        chunkLoop fuel array size i acc = Some (acc ++ pieces)
        /\ List.concat pieces = List.skipn i array
        /\ List.Forall (fun p => (1 <= List.length p <= size)%nat) pieces
        /\ (forall k p, List.nth_error pieces k = Some p ->
                        (S k < List.length pieces)%nat -> List.length p = size)
        /\ List.length pieces
           = ((List.length array - i + size - 1) / size)%nat.
Proof.
  intros A array size Hs fuel.
  induction fuel as [|fuel IH]; intros i acc Hfuel; [lia|].
  cbn [chunkLoop]. destruct (Nat.ltb_spec i (List.length array)) as [Hlt|Hge].
  - destruct (IH (i + size)%nat
                 (acc ++ [List.firstn size (List.skipn i array)]))
      as (pieces & H1 & H2 & H3 & H4 & H5); [lia|].
    exists (List.firstn size (List.skipn i array) :: pieces).
    assert (Hlen : List.length (List.firstn size (List.skipn i array))
                   = Nat.min size (List.length array - i)).
    { rewrite List.length_firstn, List.length_skipn. reflexivity. }
    split; [rewrite H1, <- List.app_assoc; reflexivity|].
    split; [|split; [|split]].
    + simpl. rewrite H2.
      replace (i + size)%nat with (size + i)%nat by lia.
      rewrite <- List.skipn_skipn. apply List.firstn_skipn.
    + constructor; [rewrite Hlen; lia|exact H3].
    + intros k p Hk Hmore. destruct k as [|k].
      * simpl in Hk. injection Hk as <-. rewrite Hlen.
        simpl in Hmore.
        assert (Hpos : (0 < List.length pieces)%nat) by lia.
        rewrite H5 in Hpos.
        destruct (Nat.le_gt_cases (List.length array - i) size) as [Hle|Hgt];
          [|lia].
        replace (List.length array - (i + size))%nat with 0%nat in Hpos by lia.
        rewrite Nat.div_small in Hpos by lia. lia.
      * simpl in Hk, Hmore. apply (H4 k p Hk). lia.
    + simpl. rewrite H5.
      rewrite (ceil_div_step (List.length array - i) size) by lia.
      replace (List.length array - (i + size))%nat
        with (List.length array - i - size)%nat by lia.
      reflexivity.
  - exists []. rewrite List.app_nil_r. split; [reflexivity|].
    split; [rewrite List.skipn_all2 by lia; reflexivity|].
    split; [constructor|]. split; [intros k p Hk; destruct k; discriminate Hk|].
    replace (List.length array - i)%nat with 0%nat by lia.
    rewrite Nat.div_small by lia. reflexivity.
Qed.

Lemma chunkLoop_stuck :
  forall (A : Type) (array : list A) (i : nat),
    (i < List.length array)%nat ->
    forall (fuel : nat) (acc : list (list A)),
      chunkLoop fuel array 0 i acc = None.
Proof.
  intros A array i Hi fuel.
  induction fuel as [|fuel IH]; intros acc; [reflexivity|].
  cbn [chunkLoop]. destruct (Nat.ltb_spec i (List.length array)) as [_|H];
    [|lia].
  rewrite Nat.add_0_r. apply IH.
Qed.

(** [X25] [chunkArray] with a size of at least one cuts the array into
    consecutive pieces: joined in order they are the array, none is empty,
    all but the last have exactly [size] elements, the last at most
    [size], and there are [ceil(length / size)] of them; the loop needs no
    more turns than the array has elements.  With size [0] and an array
    that is not empty the loop never ends: no number of turns is enough. *)
Theorem chunkArray_pieces :
  forall (A : Type) (array : list A),
    (forall size fuel : nat,
        (1 <= size)%nat -> (List.length array < fuel)%nat ->
        exists pieces : list (list A),
          chunkArray fuel array size = Some pieces
          /\ List.concat pieces = array
          /\ List.Forall (fun p => (1 <= List.length p <= size)%nat) pieces
          /\ (forall k p, List.nth_error pieces k = Some p ->
                          (S k < List.length pieces)%nat ->
                          List.length p = size)
          /\ List.length pieces
             = ((List.length array + size - 1) / size)%nat)
    /\ (array <> [] -> forall fuel : nat, chunkArray fuel array 0 = None).
Proof.
  intros A array. split.
  - intros size fuel Hs Hfuel.
    destruct (chunkLoop_pieces A array size Hs fuel 0 []) as (pieces & H);
      [lia|].
    exists pieces. rewrite Nat.sub_0_r in H. exact H.
  - intros Hne fuel. apply chunkLoop_stuck.
    destruct array; [contradiction|simpl; lia].
Qed.

Lemma chunkArray_pieces_witness :
  chunkArray 6 [1; 2; 3; 4; 5] 2 = Some [[1; 2]; [3; 4]; [5]]
  /\ exists pieces,
       chunkArray 6 [1; 2; 3; 4; 5] 2 = Some pieces
       /\ List.concat pieces = [1; 2; 3; 4; 5].
Proof.
  split; [reflexivity|].
  destruct (chunkArray_pieces Z [1; 2; 3; 4; 5]) as [H _].
  destruct (H 2%nat 6%nat) as (pieces & H1 & H2 & _); [lia|simpl; lia|].
  exists pieces. split; assumption.
Defined.

(** [X26] [truncateText] returns a text of at most [maxLength] characters
    unchanged; a longer one is cut to its first [maxLength - 3] characters
    followed by three dots, so the result is exactly [maxLength] long when
    [maxLength] is at least [3].  For a smaller [maxLength] the result of
    cutting is the three dots alone, which is longer than [maxLength]. *)
Theorem truncateText_length :
  forall (text : jsstring) (maxLength : Z),
    (JS.length text <= maxLength -> truncateText text maxLength = text)
    /\ (maxLength < JS.length text ->
        truncateText text maxLength
        = List.firstn (Z.to_nat (maxLength - 3)) text ++ of_string "..."
        /\ JS.length (truncateText text maxLength) = Z.max maxLength 3)
    /\ JS.length (truncateText text maxLength) <= Z.max maxLength 3.
Proof.
  intros text maxLength.
  assert (Hcut : maxLength < JS.length text ->
            truncateText text maxLength
            = List.firstn (Z.to_nat (maxLength - 3)) text ++ of_string "..."
            /\ JS.length (truncateText text maxLength) = Z.max maxLength 3).
  { intros Hlong. unfold truncateText.
    destruct (Z.leb_spec (JS.length text) maxLength) as [H|_]; [lia|].
    split; [reflexivity|]. unfold substring0, JS.length in *.
    rewrite List.length_app, List.length_firstn. simpl. lia. }
  split; [|split; [exact Hcut|]].
  - intros Hshort. unfold truncateText.
    destruct (Z.leb_spec (JS.length text) maxLength) as [_|H]; [reflexivity|lia].
  - destruct (Z.le_gt_cases (JS.length text) maxLength) as [H|H].
    + unfold truncateText.
      destruct (Z.leb_spec (JS.length text) maxLength) as [_|H']; lia.
    + destruct (Hcut ltac:(lia)) as [_ E]. rewrite E. lia.
Qed.

Lemma truncateText_length_witness :
  truncateText (of_string "transcript") 8 = of_string "trans..."
  /\ JS.length (truncateText (of_string "transcript") 8) = 8.
Proof.
  destruct (truncateText_length (of_string "transcript") 8) as (_ & H & _).
  destruct H as [H1 H2]; [vm_compute; reflexivity|].
  split; [rewrite H1; reflexivity|exact H2].
Defined.

Lemma backoff_succ :
  forall (initialDelay : Z) (n : nat),
    backoff initialDelay (S n)
    = backoff initialDelay n ++ [initialDelay * 2 ^ Z.of_nat n].
Proof.
  intros initialDelay n. unfold backoff. rewrite List.seq_S, List.map_app.
  reflexivity.
Qed.

Lemma retryLoop_calls :
  forall (R : Type) (fn : nat -> attempt R Transcript.jsError)
         (initialDelay : Z) (left i : nat)
         (lastError : option Transcript.jsError),
    (forall k, (k < i)%nat ->
               exists e, fn k = Thrown e /\ retryable e = true) ->
    (match lastError with
     | None => i = 0%nat
     | Some e => (1 <= i)%nat /\ fn (i - 1)%nat = Thrown e
     end) ->
    let r := retryLoop fn initialDelay left i lastError (backoff initialDelay i) in
    (i <= calls r <= i + left)%nat
    /\ (forall k, (k < calls r - 1)%nat ->
                  exists e, fn k = Thrown e /\ retryable e = true)
    /\ match outcome r with
       | Some (Returned x) =>
           (1 <= calls r)%nat /\ fn (calls r - 1)%nat = Returned x
           /\ waits r = backoff initialDelay (calls r - 1)
       | Some (Thrown e) =>
           (1 <= calls r)%nat /\ fn (calls r - 1)%nat = Thrown e
           /\ if retryable e
              then calls r = (i + left)%nat
                   /\ waits r = backoff initialDelay (calls r)
              else waits r = backoff initialDelay (calls r - 1)
       | None => calls r = 0%nat /\ (i + left = 0)%nat /\ waits r = []
       end.
Proof.
  intros R fn initialDelay left.
  induction left as [|left IH]; intros i lastError Hbefore Hlast r.
  - unfold r. cbn [retryLoop calls outcome waits].
    split; [lia|]. split; [intros k Hk; apply Hbefore; lia|].
    destruct lastError as [e|]; cbn [option_map].
    + destruct Hlast as [Hi He]. split; [exact Hi|]. split; [exact He|].
      destruct (Hbefore (i - 1)%nat ltac:(lia)) as (e' & He' & Hr).
      rewrite He in He'. injection He' as <-. rewrite Hr.
      split; [lia|reflexivity].
    + subst i. split; [reflexivity|]. split; reflexivity.
  - unfold r. cbn [retryLoop].
    destruct (fn i) as [x|e] eqn:Ef.
    + cbn [calls outcome waits]. replace (S i - 1)%nat with i by lia.
      split; [lia|]. split; [exact Hbefore|].
      split; [lia|]. split; [exact Ef|reflexivity].
    + destruct (retryable e) eqn:Er.
      * rewrite <- backoff_succ.
        destruct (IH (S i) (Some e)) as (H1 & H2 & H3).
        { intros k Hk. destruct (Nat.eq_dec k i) as [->|Hne].
          - exists e. split; assumption.
          - apply Hbefore. lia. }
        { split; [lia|]. replace (S i - 1)%nat with i by lia. exact Ef. }
        cbv zeta in H1, H2, H3.
        split; [lia|]. split; [exact H2|].
        destruct (outcome (retryLoop fn initialDelay left (S i) (Some e)
                             (backoff initialDelay (S i)))) as [[x|e']|].
        -- exact H3.
        -- destruct H3 as (Hc & Hf & Hw). split; [exact Hc|].
           split; [exact Hf|].
           destruct (retryable e'); [|exact Hw].
           destruct Hw as [Hw1 Hw2]. split; [lia|exact Hw2].
        -- lia.
      * cbn [calls outcome waits]. replace (S i - 1)%nat with i by lia.
        split; [lia|]. split; [exact Hbefore|].
        split; [lia|]. split; [exact Ef|]. rewrite Er. reflexivity.
Qed.

(** [X27] The function [retryWithBackoff] returns makes at most
    [maxRetries] calls, going on only after an error with status 429 or
    with "rate limit" in its message.  It returns what the first
    successful call returns and throws the first other error at once,
    having paused [initialDelay * 2^k] after the failed call number [k].
    When every call was rate limited it pauses once more after the last
    one and then throws its error; with [maxRetries = 0] it calls nothing
    and throws [undefined]. *)
Theorem retryWithBackoff_calls :
  forall (R : Type) (fn : nat -> attempt R Transcript.jsError)
         (maxRetries : nat) (initialDelay : Z),
    let r := retryWithBackoff fn maxRetries initialDelay in
    (calls r <= maxRetries)%nat
    /\ (forall k, (k < calls r - 1)%nat ->
                  exists e, fn k = Thrown e /\ retryable e = true)
    /\ match outcome r with
       | Some (Returned x) =>
           (1 <= calls r)%nat /\ fn (calls r - 1)%nat = Returned x
           /\ waits r = backoff initialDelay (calls r - 1)
       | Some (Thrown e) =>
           (1 <= calls r)%nat /\ fn (calls r - 1)%nat = Thrown e
           /\ if retryable e
              then calls r = maxRetries
                   /\ waits r = backoff initialDelay maxRetries
              else waits r = backoff initialDelay (calls r - 1)
       | None => calls r = 0%nat /\ maxRetries = 0%nat /\ waits r = []
       end.
Proof.
  intros R fn maxRetries initialDelay r.
  destruct (retryLoop_calls R fn initialDelay maxRetries 0 None)
    as (H1 & H2 & H3); [intros k Hk; lia|reflexivity|].
  change (retryLoop fn initialDelay maxRetries 0 None (backoff initialDelay 0))
    with r in H1, H2, H3.
  split; [lia|]. split; [exact H2|].
  destruct (outcome r) as [[x|e]|]; [exact H3| |exact H3].
  destruct H3 as (Hc & Hf & Hw). split; [exact Hc|]. split; [exact Hf|].
  destruct (retryable e); [|exact Hw].
  destruct Hw as [Hw1 Hw2]. simpl in Hw1.
  split; [exact Hw1|]. rewrite Hw2, Hw1. reflexivity.
Qed.

End HelperFunctions.

(* ------------------------------------------------------------------ *)
(** ** [formatContext]: the context handed to the model *)

Section ContextBudget.
Import JS Context.

Lemma fill_prefix :
  forall (maxLength : Z) (chunks : list resultChunk) (context : jsstring)
         (addedChunks : list addedChunk),
    exists n : nat,
      let taken := List.firstn n chunks in
      (n <= List.length chunks)%nat
      /\ fill maxLength chunks context addedChunks
         = (context ++ List.concat (List.map formattedChunk taken),
            addedChunks ++ List.map added taken)
      /\ (JS.length context <= maxLength ->
          JS.length (context ++ List.concat (List.map formattedChunk taken))
          <= maxLength)
      /\ (forall c, List.nth_error chunks n = Some c ->
            maxLength
            < JS.length (context ++ List.concat (List.map formattedChunk taken))
              + JS.length (formattedChunk c)).
Proof.
  intros maxLength chunks.
  induction chunks as [|c rest IH]; intros context addedChunks.
  - exists 0%nat. simpl. rewrite !List.app_nil_r.
    split; [lia|]. split; [reflexivity|]. split; [tauto|].
    intros c H. discriminate H.
  - cbn [fill].
    destruct (Z.leb_spec (JS.length context + JS.length (formattedChunk c))
                         maxLength) as [Hfit|Hover].
    + destruct (IH (context ++ formattedChunk c) (addedChunks ++ [added c]))
        as (n & Hn & Hfill & Hlen & Hstop).
      exists (S n). cbv zeta in *.
      change (List.firstn (S n) (c :: rest)) with (c :: List.firstn n rest).
      change (List.concat (List.map formattedChunk (c :: List.firstn n rest)))
        with (formattedChunk c
              ++ List.concat (List.map formattedChunk (List.firstn n rest))).
      change (List.map added (c :: List.firstn n rest))
        with ([added c] ++ List.map added (List.firstn n rest)).
      change (List.nth_error (c :: rest) (S n)) with (List.nth_error rest n).
      rewrite (List.app_assoc context).
      rewrite (List.app_assoc addedChunks [added c]).
      split; [simpl; lia|]. split; [exact Hfill|]. split; [|exact Hstop].
      intros _. apply Hlen. unfold JS.length in *.
      rewrite List.length_app. lia.
    + exists 0%nat. simpl. rewrite !List.app_nil_r.
      split; [lia|]. split; [reflexivity|]. split; [tauto|].
      intros c' H. injection H as <-. lia.
Qed.

(** [X28] [formatContext] takes the results in order for as long as they
    fit: the context is the formatted text of a first part of the results,
    the chunks reported are exactly those, the context is never longer
    than [maxLength] (for a [maxLength] that is not negative), and the
    first result left out is one that would not have fitted; results after
    it are not looked at, even if they are shorter.  For no results the
    function returns the empty string, not an object. *)
Theorem formatContext_fits :
  forall (chunks : list resultChunk) (maxLength : Z),
    match formatContext chunks maxLength with
    | EmptyText => chunks = []
    | WithChunks context addedChunks =>
        chunks <> []
        /\ exists n : nat,
             let taken := List.firstn n chunks in
             (n <= List.length chunks)%nat
             /\ context = List.concat (List.map formattedChunk taken)
             /\ addedChunks = List.map added taken
             /\ (0 <= maxLength -> JS.length context <= maxLength)
             /\ (forall c, List.nth_error chunks n = Some c ->
                   maxLength < JS.length context + JS.length (formattedChunk c))
    end.
Proof.
  intros chunks maxLength. unfold formatContext.
  destruct chunks as [|c rest]; [reflexivity|].
  destruct (fill_prefix maxLength (c :: rest) [] [])
    as (n & Hn & Hfill & Hlen & Hstop).
  rewrite Hfill. split; [discriminate|].
  exists n. cbv zeta in *. simpl List.app in *.
  split; [exact Hn|]. split; [reflexivity|]. split; [reflexivity|].
  split; [|exact Hstop]. intros H. apply Hlen. exact H.
Qed.

End ContextBudget.

(* ------------------------------------------------------------------ *)
(** ** Time stamps: what is printed is parsed back *)

Section TimeStamps.
Import JS ChatTime.

Lemma digit_facts :
  forall c : N,
    isDigit c = true ->
    isWhiteSpace c = false /\ (c =? 45)%N = false /\ (c =? 43)%N = false
    /\ (c =? 58)%N = false /\ digitValue c = Some (Z.of_N c - 48).
Proof.
  intros c H. unfold isDigit, in_range in H.
  apply andb_true_iff in H. destruct H as [H1 H2].
  apply N.leb_le in H1, H2.
  assert (Hc : (c = 48 \/ c = 49 \/ c = 50 \/ c = 51 \/ c = 52 \/ c = 53
                \/ c = 54 \/ c = 55 \/ c = 56 \/ c = 57)%N) by lia.
  repeat (destruct Hc as [->|Hc]; [repeat split; reflexivity|]).
  subst c. repeat split; reflexivity.
Qed.

Lemma uint_digits :
  forall d : Decimal.uint,
    List.Forall (fun c => isDigit c = true)
                (of_string (NilEmpty.string_of_uint d)).
Proof.
  induction d; simpl; constructor; try reflexivity; assumption.
Qed.

Lemma readDigits_acc :
  forall (d : Decimal.uint) (p : positive) (rest : jsstring),
    readDigits (of_string (NilEmpty.string_of_uint d) ++ rest) (Z.pos p) true
    = readDigits rest (Z.pos (Pos.of_uint_acc d p)) true.
Proof.
  induction d; intros p rest; [reflexivity| | | | | | | | | |];
    cbn [NilEmpty.string_of_uint of_string list_ascii_of_string List.map
         List.app readDigits Pos.of_uint_acc];
    match goal with
    | |- context [digitValue ?c] =>
        let v := eval vm_compute in (digitValue c) in
        change (digitValue c) with v
    end;
    cbv beta iota;
    match goal with
    | |- readDigits _ ?a true = readDigits _ (Z.pos (Pos.of_uint_acc _ ?q)) true =>
        replace a with (Z.pos q) by lia
    end;
    apply IHd.
Qed.

Lemma readDigits_uint :
  forall (d : Decimal.uint) (rest : jsstring),
    readDigits (of_string (NilEmpty.string_of_uint d) ++ rest) 0 true
    = readDigits rest (Z.of_N (Pos.of_uint d)) true.
Proof.
  induction d; intros rest; [reflexivity| | | | | | | | | |];
    cbn [NilEmpty.string_of_uint of_string list_ascii_of_string List.map
         List.app readDigits Pos.of_uint];
    match goal with
    | |- context [digitValue ?c] =>
        let v := eval vm_compute in (digitValue c) in
        change (digitValue c) with v
    end;
    cbv beta iota;
    first [ apply IHd
          | match goal with
            | |- readDigits _ ?a true = readDigits _ (Z.of_N (N.pos (Pos.of_uint_acc _ ?q))) true =>
                replace a with (Z.pos q) by lia
            end;
            apply readDigits_acc ].
Qed.

Lemma readDigits_first :
  forall (c : N) (s : jsstring) (acc : Z),
    isDigit c = true ->
    readDigits (c :: s) acc false = readDigits (c :: s) acc true.
Proof.
  intros c s acc H. destruct (digit_facts c H) as (_ & _ & _ & _ & Hv).
  cbn [readDigits]. rewrite Hv. reflexivity.
Qed.

(** A number that is not negative is printed as digits, at least one. *)
Lemma numberToString_digits :
  forall n : Z,
    0 <= n ->
    List.Forall (fun c => isDigit c = true) (numberToString n)
    /\ numberToString n <> [].
Proof.
  intros n Hn. unfold numberToString.
  destruct n as [|p|p]; [split; [repeat constructor|discriminate]| |lia].
  cbn [Z.to_int NilZero.string_of_int]. unfold NilZero.string_of_uint.
  pose proof (Unsigned.to_uint_nonnil p) as Hnil.
  pose proof (uint_digits (Pos.to_uint p)) as H.
  destruct (Pos.to_uint p); try contradiction;
    (split; [exact H|simpl; discriminate]).
Qed.

Lemma readDigits_number :
  forall (n : Z) (seen : bool),
    0 <= n -> readDigits (numberToString n) 0 seen = Some n.
Proof.
  intros n seen Hn.
  assert (Htrue : readDigits (numberToString n) 0 true = Some n).
  { unfold numberToString.
    destruct n as [|p|p]; [reflexivity| |lia].
    cbn [Z.to_int NilZero.string_of_int]. unfold NilZero.string_of_uint.
    pose proof (Unsigned.to_uint_nonnil p) as Hnil.
    pose proof (readDigits_uint (Pos.to_uint p) []) as H.
    rewrite List.app_nil_r, Unsigned.of_to in H.
    destruct (Pos.to_uint p); try contradiction; exact H. }
  destruct seen; [exact Htrue|].
  destruct (numberToString_digits n Hn) as [Hd Hne].
  destruct (numberToString n) as [|c s]; [contradiction|].
  inversion Hd as [|x l Hc Hl]; subst.
  rewrite readDigits_first by exact Hc. exact Htrue.
Qed.

Lemma readDigits_padded :
  forall (n : Z) (k : nat),
    0 <= n -> readDigits (padStart0 k (numberToString n)) 0 false = Some n.
Proof.
  intros n k Hn. unfold padStart0.
  generalize (k - List.length (numberToString n))%nat. intros z.
  assert (H : forall seen, readDigits (List.repeat 48%N z ++ numberToString n)
                                      0 seen = Some n).
  { induction z as [|z IH]; intros seen; [apply readDigits_number; exact Hn|].
    simpl List.repeat. simpl List.app. cbn [readDigits].
    change (digitValue 48%N) with (Some 0). apply IH. }
  apply H.
Qed.

Lemma padded_digits :
  forall (n : Z) (k : nat),
    0 <= n ->
    List.Forall (fun c => isDigit c = true) (padStart0 k (numberToString n))
    /\ padStart0 k (numberToString n) <> [].
Proof.
  intros n k Hn. destruct (numberToString_digits n Hn) as [Hd Hne].
  unfold padStart0. split.
  - apply List.Forall_app. split; [|exact Hd].
    apply List.Forall_forall. intros c Hc. apply List.repeat_spec in Hc.
    subst c. reflexivity.
  - intros H. apply List.app_eq_nil in H. destruct H as [_ H]. contradiction.
Qed.

Lemma parseInt10_digits :
  forall (s : jsstring) (v : Z),
    List.Forall (fun c => isDigit c = true) s -> s <> [] ->
    readDigits s 0 false = Some v -> parseInt10 s = Some v.
Proof.
  intros s v Hd Hne Hv. destruct s as [|c s]; [contradiction|].
  inversion Hd as [|x l Hc Hl]; subst.
  destruct (digit_facts c Hc) as (Hw & Hm & Hp & _ & _).
  unfold parseInt10. cbn [trimStart]. rewrite Hw, Hm, Hp. exact Hv.
Qed.

Lemma splitColon_piece :
  forall (s rest cur : jsstring),
    List.Forall (fun c => isDigit c = true) s ->
    splitColon_go (s ++ 58%N :: rest) cur
    = (List.rev cur ++ s) :: splitColon_go rest [].
Proof.
  induction s as [|c s IH]; intros rest cur Hd.
  - simpl. rewrite List.app_nil_r. reflexivity.
  - inversion Hd as [|x l Hc Hl]; subst.
    destruct (digit_facts c Hc) as (_ & _ & _ & H58 & _).
    simpl. rewrite H58. rewrite IH by exact Hl. simpl.
    rewrite <- List.app_assoc. reflexivity.
Qed.

Lemma splitColon_last :
  forall (s cur : jsstring),
    List.Forall (fun c => isDigit c = true) s ->
    splitColon_go s cur = [List.rev cur ++ s].
Proof.
  induction s as [|c s IH]; intros cur Hd.
  - simpl. rewrite List.app_nil_r. reflexivity.
  - inversion Hd as [|x l Hc Hl]; subst.
    destruct (digit_facts c Hc) as (_ & _ & _ & H58 & _).
    simpl. rewrite H58. rewrite IH by exact Hl. simpl.
    rewrite <- List.app_assoc. reflexivity.
Qed.

Lemma parse_two :
  forall m sec : Z,
    0 <= m -> 0 <= sec ->
    parseTimestamp
      (numberToString m ++ [58%N] ++ padStart0 2 (numberToString sec))
    = Seconds (m * 60 + sec).
Proof.
  intros m sec Hm Hs.
  destruct (numberToString_digits m Hm) as [Hmd Hmn].
  destruct (padded_digits sec 2 Hs) as [Hsd Hsn].
  unfold parseTimestamp, splitColon.
  change ([58%N] ++ padStart0 2 (numberToString sec))
    with (58%N :: padStart0 2 (numberToString sec)).
  rewrite splitColon_piece by exact Hmd.
  rewrite splitColon_last by exact Hsd.
  cbn [List.rev List.app List.map].
  rewrite (parseInt10_digits _ m Hmd Hmn (readDigits_number m false Hm)).
  rewrite (parseInt10_digits _ sec Hsd Hsn (readDigits_padded sec 2 Hs)).
  reflexivity.
Qed.

Lemma parse_three :
  forall h m sec : Z,
    0 <= h -> 0 <= m -> 0 <= sec ->
    parseTimestamp
      (numberToString h ++ [58%N] ++ padStart0 2 (numberToString m)
       ++ [58%N] ++ padStart0 2 (numberToString sec))
    = Seconds (h * 3600 + m * 60 + sec).
Proof.
  intros h m sec Hh Hm Hs.
  destruct (numberToString_digits h Hh) as [Hhd Hhn].
  destruct (padded_digits m 2 Hm) as [Hmd Hmn].
  destruct (padded_digits sec 2 Hs) as [Hsd Hsn].
  unfold parseTimestamp, splitColon.
  change ([58%N] ++ padStart0 2 (numberToString m)
          ++ [58%N] ++ padStart0 2 (numberToString sec))
    with (58%N :: (padStart0 2 (numberToString m)
                   ++ 58%N :: padStart0 2 (numberToString sec))).
  rewrite splitColon_piece by exact Hhd.
  rewrite splitColon_piece by exact Hmd.
  rewrite splitColon_last by exact Hsd.
  cbn [List.rev List.app List.map].
  rewrite (parseInt10_digits _ h Hhd Hhn (readDigits_number h false Hh)).
  rewrite (parseInt10_digits _ m Hmd Hmn (readDigits_padded m 2 Hm)).
  rewrite (parseInt10_digits _ sec Hsd Hsn (readDigits_padded sec 2 Hs)).
  reflexivity.
Qed.

(** [X29] The time stamps the services print are read back by
    [parseTimestamp] as the same number of seconds, for every whole number
    of seconds from [0] to [2^31 - 1], the range of the columns
    [start_time] and [end_time]: those of the chat service's and the
    search service's [formatTime] ([m:ss], or [h:mm:ss] from one hour on)
    and those of the chunker's [formatTimestamp] ([m:ss] with the minutes
    not limited to two digits), which stand at the start of every line of
    the context.  In that range the quotients and remainders the code
    computes on doubles are the exact ones and the numbers are printed in
    plain decimal. *)
Theorem timestamps_parse_back :
  forall seconds : Z,
    0 <= seconds -> seconds < 2147483648 ->
    parseTimestamp (ChatTime.formatTime seconds) = Seconds seconds
    /\ parseTimestamp (Context.formatTime seconds) = Seconds seconds
    /\ parseTimestamp (VideoProcessor.formatTimestamp seconds) = Seconds seconds.
Proof.
  intros seconds Hs _.
  assert (H60 : Z.rem seconds 60 = seconds mod 60)
    by (apply Z.rem_mod_nonneg; lia).
  assert (H3600 : Z.rem seconds 3600 = seconds mod 3600)
    by (apply Z.rem_mod_nonneg; lia).
  pose proof (Z.div_mod seconds 3600 ltac:(lia)) as D1.
  pose proof (Z.mod_pos_bound seconds 3600 ltac:(lia)) as B1.
  pose proof (Z.div_mod (seconds mod 3600) 60 ltac:(lia)) as D2.
  pose proof (Z.mod_pos_bound (seconds mod 3600) 60 ltac:(lia)) as B2.
  pose proof (Z.div_mod seconds 60 ltac:(lia)) as D3.
  pose proof (Z.mod_pos_bound seconds 60 ltac:(lia)) as B3.
  assert (Hh : 0 <= seconds / 3600) by (apply Z.div_pos; lia).
  assert (Hm : 0 <= seconds mod 3600 / 60) by (apply Z.div_pos; lia).
  assert (Hm' : 0 <= seconds / 60) by (apply Z.div_pos; lia).
  assert (Hmod : (seconds mod 3600) mod 60 = seconds mod 60).
  { apply (Z.mod_unique seconds 60
             (60 * (seconds / 3600) + seconds mod 3600 / 60)); lia. }
  assert (Hchat : parseTimestamp (ChatTime.formatTime seconds) = Seconds seconds).
  { unfold ChatTime.formatTime. cbv zeta. rewrite H60, H3600.
    destruct (Z.ltb_spec 0 (seconds / 3600)) as [Hlong|Hshort].
    - rewrite parse_three by lia. f_equal. lia.
    - rewrite parse_two by lia. f_equal.
      assert (seconds / 3600 = 0) by lia. lia. }
  split; [exact Hchat|]. split; [exact Hchat|].
  unfold VideoProcessor.formatTimestamp. cbv zeta. rewrite H60.
  rewrite parse_two by lia. f_equal. lia.
Qed.

Lemma timestamps_parse_back_witness :
  ChatTime.formatTime 3725 = of_string "1:02:05"
  /\ parseTimestamp (ChatTime.formatTime 3725) = Seconds 3725.
Proof.
  split; [vm_compute; reflexivity|].
  destruct (timestamps_parse_back 3725) as [H _]; [lia|lia|exact H].
Defined.

End TimeStamps.

(* ------------------------------------------------------------------ *)
(** ** The channel queue *)

Section ChannelQueue.
Import QueueService.

(** [X30] A channel is queued once.  [enqueueChannel] changes the queue
    only by appending one pending row for the channel, and only when it
    found no single active row; a channel with at most one active row
    (pending or processing) before the call has at most one after it, and
    so has every other channel.  After a channel without an active row was
    queued, every further call for it returns the row just made and
    changes nothing.  When the call reports an existing row or throws, the
    tables are as before. *)
Theorem enqueueChannel_once :
  forall (newId : string) (insertError : option (option string)) (now : Z)
         (channelId userId priority : string) (w : world),
    let '(w', r) :=
      enqueueChannel newId insertError now channelId userId priority w in
    (forall c,
        (List.length (List.filter (isActive c) (channel_queue w)) <= 1)%nat ->
        (List.length (List.filter (isActive c) (channel_queue w')) <= 1)%nat)
    /\ match r with
       | AlreadyQueued existing =>
           w' = w /\ List.In existing (channel_queue w)
           /\ isActive channelId existing = true
       | Queued item =>
           channel_queue w' = channel_queue w ++ [item]
           /\ channels w' = channels w
           /\ item = {| id := newId; channel_id := channelId;
                        requested_by := userId; status := "pending";
                        priority := priority; created_at := now |}
           /\ (List.filter (isActive channelId) (channel_queue w) = [] ->
               forall newId' insertError' now' userId' priority',
                 enqueueChannel newId' insertError' now' channelId userId'
                                priority' w'
                 = (w', AlreadyQueued item))
       | Threw _ => w' = w
       end.
Proof.
  intros newId insertError now channelId userId priority w.
  unfold enqueueChannel.
  destruct (List.filter (isActive channelId) (channel_queue w))
    as [|x [|y rest]] eqn:Ef; cbn [single].
  2:{ split; [tauto|]. split; [reflexivity|].
      assert (Hx : List.In x (List.filter (isActive channelId) (channel_queue w)))
        by (rewrite Ef; left; reflexivity).
      apply List.filter_In in Hx. exact Hx. }
  - destruct (single (List.filter (String.eqb channelId) (channels w)));
      [|split; [tauto|reflexivity]].
    destruct insertError as [m|]; [split; [tauto|reflexivity]|].
    cbn [channel_queue channels].
    set (item := {| id := newId; channel_id := channelId;
                    requested_by := userId; status := "pending";
                    priority := priority; created_at := now |}).
    assert (Hitem : isActive channelId item = true).
    { unfold isActive. simpl. rewrite String.eqb_refl. reflexivity. }
    split.
    + intros c Hc. rewrite List.filter_app, List.length_app.
      destruct (String.eqb_spec channelId c) as [<-|Hne].
      * rewrite Ef. simpl. rewrite Hitem. simpl. lia.
      * assert (Hno : isActive c item = false).
        { unfold isActive. simpl.
          apply String.eqb_neq in Hne. rewrite Hne. reflexivity. }
        simpl. rewrite Hno. simpl. lia.
    + split; [reflexivity|]. split; [reflexivity|]. split; [reflexivity|].
      intros _ newId' insertError' now' userId' priority'.
      cbn [channel_queue]. rewrite List.filter_app, Ef. simpl.
      rewrite Hitem. reflexivity.
  - destruct (single (List.filter (String.eqb channelId) (channels w)));
      [|split; [tauto|reflexivity]].
    destruct insertError as [m|]; [split; [tauto|reflexivity]|].
    cbn [channel_queue channels].
    split.
    + intros c Hc. rewrite List.filter_app, List.length_app.
      destruct (String.eqb_spec channelId c) as [<-|Hne].
      * rewrite Ef in Hc. simpl in Hc. lia.
      * unfold isActive at 2. simpl.
        apply String.eqb_neq in Hne. rewrite Hne. simpl. lia.
    + split; [reflexivity|]. split; [reflexivity|]. split; [reflexivity|].
      intros H. discriminate H.
Qed.

End ChannelQueue.
